(** * Cuda-Fractals: escape-time kernels, colouring and PPM output

    A shallow embedding of [fractals.cu].  Single precision values are
    IEEE 754 binary32 numbers and double precision values are binary64
    numbers, both carried by the Standard Library's [spec_float] with the
    operations of [SpecFloat] (round to nearest, ties to even, every
    operation rounded on its own).  C [int] values are integers in [Z];
    signed overflow is undefined in C and the image sizes considered here
    stay far below it.  The single precision library functions [sinf],
    [expf] and [logf] are not part of the program: they are the fields of
    the class [DeviceMath]. *)

From Stdlib Require Import ZArith Lia Bool List Permutation.
From Stdlib Require Import SpecFloat.
From Stdlib Require Import Reals Lra Machin.
From Stdlib Require Import Strings.Byte Strings.Ascii Strings.String.
From Stdlib Require Import Decimal DecimalZ DecimalPos DecimalN.
From stdpp Require Import base list gmap strings.
Import ListNotations.

Local Open Scope Z_scope.

(** ** Floating-point formats *)

Module F32.
Definition prec : Z := 24.
Definition emax : Z := 128.

Definition add := SFadd prec emax.
Definition sub := SFsub prec emax.
Definition mul := SFmul prec emax.
Definition div := SFdiv prec emax.
Definition sqrt := SFsqrt prec emax.
Definition abs := SFabs.
Definition opp := SFopp.
Definition ltb := SFltb.
Definition leb := SFleb.

(** Conversion of a C [int] to [float]. *)
Definition of_int (n : Z) : spec_float := binary_normalize prec emax n 0 false.

(** Decimal literal [n/d] with suffix [f]: the nearest binary32 number
    ([n] and [d] are below 2^24, so both convert exactly and the
    division rounds once). *)
Definition lit (n d : Z) : spec_float := div (of_int n) (of_int d).

Definition valid (x : spec_float) : Prop := valid_binary prec emax x = true.
End F32.

Module F64.
Definition prec : Z := 53.
Definition emax : Z := 1024.

Definition add := SFadd prec emax.
Definition sub := SFsub prec emax.
Definition mul := SFmul prec emax.
Definition div := SFdiv prec emax.
Definition opp := SFopp.

(** Conversion of a C [int] to [double] (always exact). *)
Definition of_int (n : Z) : spec_float := binary_normalize prec emax n 0 false.

(** Decimal literal [n/d] of type [double]. *)
Definition lit (n d : Z) : spec_float := div (of_int n) (of_int d).
End F64.

(** Narrowing conversion [double -> float], done by [make_float2] when it
    is called on [double] arguments. *)
Definition narrow (x : spec_float) : spec_float :=
  match x with
  | S754_finite s m e => binary_normalize F32.prec F32.emax (cond_Zopp s (Zpos m)) e s
  | _ => x
  end.

Definition is_nan (x : spec_float) : bool :=
  match x with S754_nan => true | _ => false end.

(** Real value of a finite binary floating-point number. *)
Definition SF2R (x : spec_float) : R :=
  match x with
  | S754_finite s m e =>
      let v := match e with
               | Zneg p => (IZR (Zpos m) / IZR (2 ^ Zpos p))%R
               | _ => IZR (Zpos m * 2 ^ e)
               end in
      if s then (- v)%R else v
  | _ => 0%R
  end.

(** The exponent of a finite number is at least [emin]: rounding never
    produces a smaller one. *)
Definition exp_ok (prec emax : Z) (x : spec_float) : Prop :=
  match x with
  | S754_finite _ _ e => emin prec emax <= e
  | _ => True
  end.

(** The sign bit is clear (or the value is not a number): [fabsf] leaves
    the value as it is. *)
Definition sign_clear (x : spec_float) : Prop := SFabs x = x.

Definition neg_zero : spec_float := S754_zero true.

(** Both components are binary32 numbers. *)
Definition valid2 (x y : spec_float) : Prop :=
  F32.valid x /\ F32.valid y.

(** ** Constants of the program *)

Definition WIDTH : Z := 1920.
Definition HEIGHT : Z := 1080.
Definition MAX_ITER : Z := 1000.

Definition zero_f : spec_float := S754_zero false.      (* 0.0f *)
Definition half_f : spec_float := F32.lit 1 2.          (* 0.5f *)
Definition one_f : spec_float := F32.of_int 1.          (* 1.0f *)
Definition two_f : spec_float := F32.of_int 2.          (* 2.0f *)
Definition four_f : spec_float := F32.of_int 4.
Definition sixteen_f : spec_float := F32.of_int 16.     (* 16.0f *)
Definition rate_f : spec_float := F32.lit 5 100.        (* 0.05f *)
Definition phase_g : spec_float := F32.lit 2094 1000.   (* 2.094f *)
Definition phase_b : spec_float := F32.lit 4188 1000.   (* 4.188f *)
Definition decay_f : spec_float := F32.lit 1 10.        (* 0.1f *)

Definition minus_half_f : spec_float := S754_finite true 8388608 (-24).        (* -0.5f *)
Definition minus_half_d : spec_float := S754_finite true 4503599627370496 (-53). (* -0.5 *)

Definition zero_d : spec_float := S754_zero false.      (* 0.0 *)
Definition huge_f : spec_float := S754_finite false 8388608 77.             (* 2^100 *)
Definition tiny_d : spec_float := S754_finite false 4503599627370496 (-192). (* 2^-140 *)
Definition two_d : spec_float := F64.of_int 2.          (* 2.0 *)
Definition four_d : spec_float := F64.of_int 4.         (* 4.0 *)

(** ** Colours and complex numbers *)

(** [struct Color]: three [unsigned char] channels. *)
Record Color := mk_color { red : Z; green : Z; blue : Z }.

Record float2 := make_float2 { fx : spec_float; fy : spec_float }.

(** [complex_mul]: each product, the difference and the sum are rounded on
    their own, as IEEE 754 evaluates the expression ([nvcc -fmad=false]).
    A build that contracts a product and a sum into one fused multiply-add
    rounds once there. *)
Definition complex_mul (a b : float2) : float2 :=
  make_float2 (F32.sub (F32.mul (fx a) (fx b)) (F32.mul (fy a) (fy b)))
              (F32.add (F32.mul (fx a) (fy b)) (F32.mul (fy a) (fx b))).

Definition complex_mag_squared (c : float2) : spec_float :=
  F32.add (F32.mul (fx c) (fx c)) (F32.mul (fy c) (fy c)).

(** ** The escape-time loop *)

Inductive variant := Mandelbrot | Julia | BurningShip.

(** The variables of the loop: [z], [iter] and [mag_sq]. *)
Record loop_state := mk_state { st_z : float2; st_iter : Z; st_mag_sq : spec_float }.

(** Loop guard [iter < MAX_ITER && mag_sq < 16.0f]; [&&] evaluates the
    iteration test first. *)
Definition loop_cond (max_iter : Z) (s : loop_state) : bool :=
  (st_iter s <? max_iter) && F32.ltb (st_mag_sq s) sixteen_f.

(** [z = complex_mul(z, z); z.x += c.x; z.y += c.y]. *)
Definition square_add (z c : float2) : float2 :=
  let z := complex_mul z z in
  make_float2 (F32.add (fx z) (fx c)) (F32.add (fy z) (fy c)).

(** One transition on [z], for [mandelbrot_kernel] and [julia_kernel]. *)
Definition mandel_step (c z : float2) : float2 := square_add z c.

(** One transition on [z], for [burning_ship_kernel]: [fabsf] on both
    components first. *)
Definition ship_step (c z : float2) : float2 :=
  square_add (make_float2 (F32.abs (fx z)) (F32.abs (fy z))) c.

Definition z_step (v : variant) : float2 -> float2 -> float2 :=
  match v with
  | BurningShip => ship_step
  | _ => mandel_step
  end.

(** Loop body: the transition, [mag_sq = complex_mag_squared(z)], [iter++]. *)
Definition body (v : variant) (c : float2) (s : loop_state) : loop_state :=
  let z := z_step v c (st_z s) in
  mk_state z (st_iter s + 1) (complex_mag_squared z).

(** [while (cond) step], with fuel: [None] when the fuel runs out before
    the guard fails. *)
Fixpoint while_loop {S : Type} (fuel : nat) (cond : S -> bool) (step : S -> S)
    (s : S) : option S :=
  match fuel with
  | O => None
  | S k => if cond s then while_loop k cond step (step s) else Some s
  end.

(** [int iter = 0; float mag_sq = 0.0f;] *)
Definition init_state (z0 : float2) : loop_state := mk_state z0 0 zero_f.

Record escape_result := mk_result { iterations : Z; final_magnitude_sq : spec_float }.

Definition result_of (s : loop_state) : escape_result :=
  mk_result (st_iter s) (st_mag_sq s).

Definition escape_fuel (max_iter : Z) : nat := S (Z.to_nat max_iter).

Definition run_loop (v : variant) (z0 c : float2) (max_iter : Z) : option loop_state :=
  while_loop (escape_fuel max_iter) (loop_cond max_iter) (body v c) (init_state z0).

(** The evaluator: the values of [iter] and [mag_sq] after the loop.  The
    loop always leaves through its guard ([run_loop_total] below), so the
    second branch is never taken. *)
Definition escape_time (v : variant) (z0 c : float2) (max_iter : Z) : escape_result :=
  match run_loop v z0 c max_iter with
  | Some s => result_of s
  | None => result_of (init_state z0)
  end.

(** The sequence of iterates, without the guard. *)
Fixpoint orbit (v : variant) (c : float2) (n : nat) (z0 : float2) : float2 :=
  match n with
  | O => z0
  | S k => z_step v c (orbit v c k z0)
  end.

(** [x < 0] on [float]. *)
Definition negative (x : spec_float) : bool := F32.ltb x zero_f.

(** No component of the first [n] iterates after [z0] (the ones the loop
    can reach within [n] steps) and of [z0] itself is negative. *)
Fixpoint never_negative (v : variant) (c : float2) (n : nat) (z0 : float2) : bool :=
  negb (negative (fx z0)) && negb (negative (fy z0)) &&
  match n with
  | O => true
  | S k => never_negative v c k (z_step v c z0)
  end.

(** ** Mapping pixels to the plane *)

(** [scale = 4.0 / (zoom * min(width, height))]. *)
Definition pixel_scale (width height : Z) (zoom : spec_float) : spec_float :=
  F64.div four_d (F64.mul zoom (F64.of_int (Z.min width height))).

(** [(x - width / 2.0) * scale]. *)
Definition offset (x width : Z) (scale : spec_float) : spec_float :=
  F64.mul (F64.sub (F64.of_int x) (F64.div (F64.of_int width) two_d)) scale.

(** The [double] pair ([real], [imag]) of [mandelbrot_kernel]. *)
Definition mandelbrot_plane (width height : Z) (center_x center_y zoom : spec_float)
    (x y : Z) : spec_float * spec_float :=
  let scale := pixel_scale width height zoom in
  let real := F64.add center_x (offset x width scale) in
  let imag := F64.add center_y (offset y height scale) in
  (real, imag).

(** The [double] pair of [julia_kernel]: the kernel has no centre. *)
Definition julia_plane (width height : Z) (zoom : spec_float)
    (x y : Z) : spec_float * spec_float :=
  let scale := pixel_scale width height zoom in
  let real := offset x width scale in
  let imag := offset y height scale in
  (real, imag).

(** The [double] pair of [burning_ship_kernel]: the imaginary axis is
    flipped. *)
Definition burning_ship_plane (width height : Z) (center_x center_y zoom : spec_float)
    (x y : Z) : spec_float * spec_float :=
  let scale := pixel_scale width height zoom in
  let real := F64.add center_x (offset x width scale) in
  let imag := F64.sub center_y (offset y height scale) in
  (real, imag).

(** [make_float2(real, imag)] on [double] arguments. *)
Definition to_float2 (p : spec_float * spec_float) : float2 :=
  make_float2 (narrow (fst p)) (narrow (snd p)).

Record View := mk_view { center_x : spec_float; center_y : spec_float; zoom : spec_float }.

(** The plane mapper of the program, by variant: what each kernel computes
    from a view. *)
Definition plane_map (v : variant) (vw : View) (width height x y : Z)
    : spec_float * spec_float :=
  match v with
  | Mandelbrot => mandelbrot_plane width height (center_x vw) (center_y vw) (zoom vw) x y
  | Julia => julia_plane width height (zoom vw) x y
  | BurningShip => burning_ship_plane width height (center_x vw) (center_y vw) (zoom vw) x y
  end.

(** The plane mapper in the words of the specification:
    [re = center_x + (x - width/2) * scale] and
    [im = center_y +- (y - height/2) * scale], minus for Burning Ship. *)
Definition spec_plane_map (v : variant) (vw : View) (width height x y : Z)
    : spec_float * spec_float :=
  let scale := F64.div four_d (F64.mul (zoom vw) (F64.of_int (Z.min width height))) in
  let dx := F64.mul (F64.sub (F64.of_int x) (F64.div (F64.of_int width) two_d)) scale in
  let dy := F64.mul (F64.sub (F64.of_int y) (F64.div (F64.of_int height) two_d)) scale in
  (F64.add (center_x vw) dx,
   match v with
   | BurningShip => F64.sub (center_y vw) dy
   | _ => F64.add (center_y vw) dy
   end).

(** ** Colouring *)

(** The single precision functions of the device math library used by the
    program, and the result of converting to [unsigned char] a [float]
    whose truncation is not a value of that type (not defined by the
    language). *)
Class DeviceMath := {
  sinf : spec_float -> spec_float;
  expf : spec_float -> spec_float;
  logf : spec_float -> spec_float;
  cvt_out_of_range : spec_float -> Z
}.

(** Truncation toward zero of a finite number. *)
Definition trunc_Z (x : spec_float) : option Z :=
  match x with
  | S754_zero _ => Some 0
  | S754_finite s m e =>
      Some (cond_Zopp s (match e with
                         | Zneg p => Zpos m / 2 ^ Zpos p
                         | _ => Zpos m * 2 ^ e
                         end))
  | _ => None
  end.

Section Colouring.
Context `{DeviceMath}.

(** Conversion [(unsigned char)] of a [float]. *)
Definition uchar_of_float (x : spec_float) : Z :=
  match trunc_Z x with
  | Some n => if (0 <=? n) && (n <=? 255) then n else cvt_out_of_range x mod 256
  | None => cvt_out_of_range x mod 256
  end.

(** [0.5f + 0.5f * s]. *)
Definition wave (s : spec_float) : spec_float :=
  F32.add half_f (F32.mul half_f s).

(** [(unsigned char)(255 * r * brightness)]. *)
Definition channel (r brightness : spec_float) : Z :=
  uchar_of_float (F32.mul (F32.mul (F32.of_int 255) r) brightness).

(** [get_color]; the program compares with the constant [MAX_ITER]. *)
Definition get_color (max_iter iter : Z) (smooth_iter : spec_float) : Color :=
  if iter =? max_iter then mk_color 0 0 0
  else
    let t := F32.mul (F32.add (F32.of_int iter) smooth_iter) rate_f in
    let r := wave (sinf t) in
    let g := wave (sinf (F32.add t phase_g)) in
    let b := wave (sinf (F32.add t phase_b)) in
    let brightness :=
      F32.sub one_f (expf (F32.mul (F32.opp decay_f) (F32.of_int iter))) in
    mk_color (channel r brightness) (channel g brightness) (channel b brightness).

(** [logf(logf(sqrtf(mag_sq))) / logf(2.0f)]. *)
Definition smoothing (mag_sq : spec_float) : spec_float :=
  F32.div (logf (logf (F32.sqrt mag_sq))) (logf two_f).

(** [smooth_iter] as the kernels set it after the loop. *)
Definition smooth_iter_of (max_iter : Z) (res : escape_result) : spec_float :=
  if iterations res <? max_iter then smoothing (final_magnitude_sq res) else zero_f.

(** From the loop's result to the colour stored by a kernel. *)
Definition shade (max_iter : Z) (res : escape_result) : Color :=
  get_color max_iter (iterations res) (smooth_iter_of max_iter res).

(** The logarithm as a partial function: no value on an argument that is
    zero or negative, where [log] has its pole and domain errors. *)
Definition checked_logf (x : spec_float) : option spec_float :=
  if F32.leb x zero_f then None else Some (logf x).

(** The smoothing term computed through [checked_logf]. *)
Definition checked_smoothing (mag_sq : spec_float) : option spec_float :=
  match checked_logf (F32.sqrt mag_sq) with
  | Some l1 =>
      match checked_logf l1, checked_logf two_f with
      | Some l2, Some d => Some (F32.div l2 d)
      | _, _ => None
      end
  | None => None
  end.

(** The smoothing term of a magnitude is computed on positive arguments
    only: the square root is at least 4, its logarithm is positive, and
    no checked logarithm fails. *)
Definition smoothing_ok (mag_sq : spec_float) : Prop :=
  F32.leb four_f (F32.sqrt mag_sq) = true
  /\ F32.ltb zero_f (F32.sqrt mag_sq) = true
  /\ F32.ltb zero_f (logf (F32.sqrt mag_sq)) = true
  /\ checked_logf (F32.sqrt mag_sq) = Some (logf (F32.sqrt mag_sq))
  /\ checked_logf (logf (F32.sqrt mag_sq)) = Some (logf (logf (F32.sqrt mag_sq)))
  /\ checked_smoothing mag_sq = Some (smoothing mag_sq).

(** *** The colour of one pixel, kernel by kernel *)

Definition mandelbrot_pixel (max_iter width height : Z)
    (center_x center_y zoom : spec_float) (x y : Z) : Color :=
  let c := to_float2 (mandelbrot_plane width height center_x center_y zoom x y) in
  let z := make_float2 zero_f zero_f in
  shade max_iter (escape_time Mandelbrot z c max_iter).

Definition julia_pixel (max_iter width height : Z)
    (julia_real julia_imag zoom : spec_float) (x y : Z) : Color :=
  let z := to_float2 (julia_plane width height zoom x y) in
  let c := make_float2 (narrow julia_real) (narrow julia_imag) in
  shade max_iter (escape_time Julia z c max_iter).

Definition burning_ship_pixel (max_iter width height : Z)
    (center_x center_y zoom : spec_float) (x y : Z) : Color :=
  let c := to_float2 (burning_ship_plane width height center_x center_y zoom x y) in
  let z := make_float2 zero_f zero_f in
  shade max_iter (escape_time BurningShip z c max_iter).

(** ** Kernels and their launch *)

(** One thread of a launch: [blockIdx] and [threadIdx]. *)
Record thread := mk_thread {
  blockIdx_x : Z; blockIdx_y : Z; threadIdx_x : Z; threadIdx_y : Z }.

(** [<<<gridSize, blockSize>>>]. *)
Record launch_cfg := mk_cfg {
  gridDim_x : Z; gridDim_y : Z; blockDim_x : Z; blockDim_y : Z }.

Definition thread_x (cfg : launch_cfg) (t : thread) : Z :=
  blockIdx_x t * blockDim_x cfg + threadIdx_x t.
Definition thread_y (cfg : launch_cfg) (t : thread) : Z :=
  blockIdx_y t * blockDim_y cfg + threadIdx_y t.

(** What one thread of [mandelbrot_kernel] does to the image. *)
Definition mandelbrot_kernel (max_iter : Z) (cfg : launch_cfg) (image : list Color)
    (width height : Z) (center_x center_y zoom : spec_float) (t : thread) : list Color :=
  let x := thread_x cfg t in
  let y := thread_y cfg t in
  if (x >=? width) || (y >=? height) then image
  else
    <[Z.to_nat (y * width + x) :=
        mandelbrot_pixel max_iter width height center_x center_y zoom x y]> image.

Definition julia_kernel (max_iter : Z) (cfg : launch_cfg) (image : list Color)
    (width height : Z) (julia_real julia_imag zoom : spec_float) (t : thread) : list Color :=
  let x := thread_x cfg t in
  let y := thread_y cfg t in
  if (x >=? width) || (y >=? height) then image
  else
    <[Z.to_nat (y * width + x) :=
        julia_pixel max_iter width height julia_real julia_imag zoom x y]> image.

Definition burning_ship_kernel (max_iter : Z) (cfg : launch_cfg) (image : list Color)
    (width height : Z) (center_x center_y zoom : spec_float) (t : thread) : list Color :=
  let x := thread_x cfg t in
  let y := thread_y cfg t in
  if (x >=? width) || (y >=? height) then image
  else
    <[Z.to_nat (y * width + x) :=
        burning_ship_pixel max_iter width height center_x center_y zoom x y]> image.

(** A scene: which kernel runs, with which arguments. *)
Inductive fractal :=
| FMandelbrot (center_x center_y zoom : spec_float)
| FJulia (julia_real julia_imag zoom : spec_float)
| FBurningShip (center_x center_y zoom : spec_float).

Record Scene := mk_scene {
  sc_fractal : fractal; sc_width : Z; sc_height : Z; sc_max_iter : Z }.

Definition kernel (sc : Scene) (cfg : launch_cfg) (image : list Color) (t : thread)
    : list Color :=
  match sc_fractal sc with
  | FMandelbrot cx cy zm =>
      mandelbrot_kernel (sc_max_iter sc) cfg image (sc_width sc) (sc_height sc) cx cy zm t
  | FJulia jr ji zm =>
      julia_kernel (sc_max_iter sc) cfg image (sc_width sc) (sc_height sc) jr ji zm t
  | FBurningShip cx cy zm =>
      burning_ship_kernel (sc_max_iter sc) cfg image (sc_width sc) (sc_height sc) cx cy zm t
  end.

Definition pixel (sc : Scene) (x y : Z) : Color :=
  match sc_fractal sc with
  | FMandelbrot cx cy zm =>
      mandelbrot_pixel (sc_max_iter sc) (sc_width sc) (sc_height sc) cx cy zm x y
  | FJulia jr ji zm =>
      julia_pixel (sc_max_iter sc) (sc_width sc) (sc_height sc) jr ji zm x y
  | FBurningShip cx cy zm =>
      burning_ship_pixel (sc_max_iter sc) (sc_width sc) (sc_height sc) cx cy zm x y
  end.

Definition range (n : Z) : list Z := map Z.of_nat (seq 0 (Z.to_nat n)).

(** Every thread of a launch, block after block. *)
Definition grid_threads (cfg : launch_cfg) : list thread :=
  flat_map (fun by_ =>
    flat_map (fun bx =>
      flat_map (fun ty =>
        map (fun tx => mk_thread bx by_ tx ty) (range (blockDim_x cfg)))
        (range (blockDim_y cfg)))
      (range (gridDim_x cfg)))
    (range (gridDim_y cfg)).

(** The part the three kernels share: the thread's pixel, the bounds test
    and the store, around a colour function [pix]. *)
Definition store_pixel (pix : Z -> Z -> Color) (cfg : launch_cfg) (image : list Color)
    (width height : Z) (t : thread) : list Color :=
  let x := thread_x cfg t in
  let y := thread_y cfg t in
  if (x >=? width) || (y >=? height) then image
  else <[Z.to_nat (y * width + x) := pix x y]> image.

(** A launch followed by [cudaDeviceSynchronize]: the threads run in the
    order [sched], which the device chooses. *)
Definition launch (k : list Color -> thread -> list Color) (sched : list thread)
    (image : list Color) : list Color :=
  fold_left k sched image.

(** [blockSize(16, 16)] and the grid that [main] derives from the size. *)
Definition cfg_of (width height : Z) : launch_cfg :=
  mk_cfg ((width + 16 - 1) / 16) ((height + 16 - 1) / 16) 16 16.

(** The image of a scene, pixel by pixel in row-major order. *)
Definition image_of (sc : Scene) : list Color :=
  map (fun i => pixel sc (Z.of_nat i mod sc_width sc) (Z.of_nat i / sc_width sc))
      (seq 0 (Z.to_nat (sc_width sc * sc_height sc))).

(** The grid executor: the launch of the scene's kernel over a buffer. *)
Definition render (sc : Scene) (sched : list thread) (buffer : list Color) : list Color :=
  launch (kernel sc (cfg_of (sc_width sc) (sc_height sc))) sched buffer.
End Colouring.

(** ** Writing the image *)

(** The decimal digits of [printf("%d")]. *)
Fixpoint uint_bytes (u : Decimal.uint) : list byte :=
  match u with
  | Decimal.Nil => []
  | Decimal.D0 u => x30 :: uint_bytes u
  | Decimal.D1 u => x31 :: uint_bytes u
  | Decimal.D2 u => x32 :: uint_bytes u
  | Decimal.D3 u => x33 :: uint_bytes u
  | Decimal.D4 u => x34 :: uint_bytes u
  | Decimal.D5 u => x35 :: uint_bytes u
  | Decimal.D6 u => x36 :: uint_bytes u
  | Decimal.D7 u => x37 :: uint_bytes u
  | Decimal.D8 u => x38 :: uint_bytes u
  | Decimal.D9 u => x39 :: uint_bytes u
  end.

(** [printf("%d", n)]. *)
Definition dec_bytes (n : Z) : list byte :=
  match Z.to_int n with
  | Decimal.Pos u => uint_bytes u
  | Decimal.Neg u => x2d :: uint_bytes u
  end.

(** The bytes of [fprintf(fp, "P6\n%d %d\n255\n", width, height)]. *)
Definition ppm_header (width height : Z) : list byte :=
  [x50; x36; x0a] ++ dec_bytes width ++ [x20] ++ dec_bytes height
    ++ [x0a; x32; x35; x35; x0a].

(** One [unsigned char] as it lies in memory. *)
Definition byte_of_uchar (n : Z) : byte :=
  match Byte.of_N (Z.to_N (n mod 256)) with
  | Some b => b
  | None => x00
  end.

(** The three bytes of a [Color] ([sizeof(Color)] is 3). *)
Definition color_bytes (c : Color) : list byte :=
  [byte_of_uchar (red c); byte_of_uchar (green c); byte_of_uchar (blue c)].

(** [fwrite(image, sizeof(Color), count, fp)]: the first [count] elements. *)
Definition fwrite_colors (image : list Color) (count : Z) : list byte :=
  flat_map color_bytes (firstn (Z.to_nat count) image).

(** What [save_ppm] writes to the file once it is open. *)
Definition ppm_bytes (image : list Color) (width height : Z) : list byte :=
  ppm_header width height ++ fwrite_colors image (width * height).

(** The part of the machine that [save_ppm] and [main] act on: the files
    on disk and what was printed. *)
Record world := mk_world { files : gmap string (list byte); console : list string }.

Definition nl : string := String "010"%char EmptyString.

Definition printf (msg : string) (w : world) : world :=
  mk_world (files w) (console w ++ [msg]).

(** [save_ppm].  [can_open] tells whether [fopen(filename, "wb")] succeeds. *)
Definition save_ppm (can_open : string -> bool) (filename : string)
    (image : list Color) (width height : Z) (w : world) : world :=
  if can_open filename then
    let w := mk_world (<[filename := ppm_bytes image width height]> (files w)) (console w) in
    printf ("Saved fractal to " +:+ filename +:+ nl) w
  else
    printf ("Error: Could not open file " +:+ filename +:+ nl) w.

(** *** Reading a written image back *)

Definition digit_of_byte (b : byte) : option (Decimal.uint -> Decimal.uint) :=
  match b with
  | x30 => Some Decimal.D0 | x31 => Some Decimal.D1 | x32 => Some Decimal.D2
  | x33 => Some Decimal.D3 | x34 => Some Decimal.D4 | x35 => Some Decimal.D5
  | x36 => Some Decimal.D6 | x37 => Some Decimal.D7 | x38 => Some Decimal.D8
  | x39 => Some Decimal.D9
  | _ => None
  end.

(** The longest prefix of decimal digits, and what follows it. *)
Fixpoint read_uint (l : list byte) : Decimal.uint * list byte :=
  match l with
  | [] => (Decimal.Nil, [])
  | b :: l' =>
      match digit_of_byte b with
      | Some d => let (u, rest) := read_uint l' in (d u, rest)
      | None => (Decimal.Nil, l)
      end
  end.

Definition read_number (l : list byte) : option (Z * list byte) :=
  match read_uint l with
  | (Decimal.Nil, _) => None
  | (u, rest) => Some (Z.of_uint u, rest)
  end.

Definition is_space (b : byte) : bool :=
  match b with
  | x20 | x09 | x0a | x0b | x0c | x0d => true
  | _ => false
  end.

Definition skip_space (l : list byte) : option (list byte) :=
  match l with
  | b :: l' => if is_space b then Some l' else None
  | [] => None
  end.

Record ppm := mk_ppm {
  ppm_width : Z; ppm_height : Z; ppm_maxval : Z; ppm_payload : list byte }.

(** A reader of the container of section 6: the magic [P6], then width,
    height and maximum channel value in decimal, each followed by one
    white-space byte, then the payload. *)
Definition parse_ppm (l : list byte) : option ppm :=
  match l with
  | x50 :: x36 :: l0 =>
      l1 ← skip_space l0;
      '(w, l2) ← read_number l1;
      l3 ← skip_space l2;
      '(h, l4) ← read_number l3;
      l5 ← skip_space l4;
      '(m, l6) ← read_number l5;
      l7 ← skip_space l6;
      Some (mk_ppm w h m l7)
  | _ => None
  end.

(** ** The driver *)

Section Driver.
Context `{DeviceMath}.

(** The state [main] works on: the device buffer, the host buffer, and
    the world outside. *)
Record machine := mk_machine {
  d_image : list Color; h_image : list Color; outside : world }.

Definition say (msg : string) (m : machine) : machine :=
  mk_machine (d_image m) (h_image m) (printf msg (outside m)).

(** A kernel launch over [d_image] with [cudaDeviceSynchronize], then
    [cudaMemcpy] to [h_image], then [save_ppm]. *)
Definition generate (can_open : string -> bool) (f : fractal) (sched : list thread)
    (filename : string) (m : machine) : machine :=
  let sc := mk_scene f WIDTH HEIGHT MAX_ITER in
  let d := render sc sched (d_image m) in
  let h := firstn (Z.to_nat (WIDTH * HEIGHT)) d ++ skipn (Z.to_nat (WIDTH * HEIGHT)) (h_image m) in
  mk_machine d h (save_ppm can_open filename h WIDTH HEIGHT (outside m)).

(** Both buffers have the size [main] allocates. *)
Definition buffers_ok (m : machine) : Prop :=
  length (d_image m) = Z.to_nat (WIDTH * HEIGHT)
  /\ length (h_image m) = Z.to_nat (WIDTH * HEIGHT).

(** The seven scenes of [main]. *)
Definition scene1 : fractal := FMandelbrot (F64.opp (F64.lit 1 2)) zero_d (F64.of_int 1).
Definition scene2 : fractal := FMandelbrot (F64.opp (F64.lit 7 10)) zero_d (F64.of_int 100).
Definition scene3 : fractal := FJulia (F64.opp (F64.lit 7 10)) (F64.lit 27015 100000) (F64.of_int 1).
Definition scene4 : fractal := FJulia (F64.opp (F64.lit 4 10)) (F64.lit 6 10) (F64.of_int 1).
Definition scene5 : fractal := FJulia (F64.lit 285 1000) (F64.lit 1 100) (F64.of_int 1).
Definition scene6 : fractal :=
  FBurningShip (F64.opp (F64.lit 18 10)) (F64.opp (F64.lit 8 100)) (F64.of_int 1).
Definition scene7 : fractal :=
  FMandelbrot (F64.opp (F64.lit 7269 10000)) (F64.lit 1889 10000) (F64.of_int 10000).

Definition str_of_int (n : Z) : string := string_of_list_byte (dec_bytes n).

(** [main].  [sched k] is the order in which the device runs the threads
    of the [k]-th launch; [h0] and [d0] are the contents of the two
    buffers after allocation.  The result is the final state and the
    exit status. *)
Definition main (can_open : string -> bool) (sched : nat -> list thread)
    (h0 d0 : list Color) (w0 : world) : machine * Z :=
  let m := mk_machine d0 h0 w0 in
  let m := say ("Generating beautiful fractals with CUDA..." +:+ nl) m in
  let m := say ("Image size: " +:+ str_of_int WIDTH +:+ "x" +:+ str_of_int HEIGHT
                +:+ ", Max iterations: " +:+ str_of_int MAX_ITER +:+ nl) m in
  let m := say (nl +:+ "1. Generating Mandelbrot set..." +:+ nl) m in
  let m := generate can_open scene1 (sched 1%nat) "mandelbrot_classic.ppm" m in
  let m := say ("2. Generating zoomed Mandelbrot set..." +:+ nl) m in
  let m := generate can_open scene2 (sched 2%nat) "mandelbrot_zoom.ppm" m in
  let m := say ("3. Generating Julia set (c = -0.7 + 0.27015i)..." +:+ nl) m in
  let m := generate can_open scene3 (sched 3%nat) "julia_1.ppm" m in
  let m := say ("4. Generating Julia set (c = -0.4 + 0.6i)..." +:+ nl) m in
  let m := generate can_open scene4 (sched 4%nat) "julia_2.ppm" m in
  let m := say ("5. Generating Julia set (c = 0.285 + 0.01i)..." +:+ nl) m in
  let m := generate can_open scene5 (sched 5%nat) "julia_3.ppm" m in
  let m := say ("6. Generating Burning Ship fractal..." +:+ nl) m in
  let m := generate can_open scene6 (sched 6%nat) "burning_ship.ppm" m in
  let m := say ("7. Generating deep zoom Mandelbrot..." +:+ nl) m in
  let m := generate can_open scene7 (sched 7%nat) "mandelbrot_deep_zoom.ppm" m in
  let m := say (nl +:+ "All fractals generated successfully!" +:+ nl) m in
  (m, 0).

(** The scenes of [main] with their file names, in order. *)
Definition scenes : list (fractal * string) :=
  [ (scene1, "mandelbrot_classic.ppm"); (scene2, "mandelbrot_zoom.ppm");
    (scene3, "julia_1.ppm"); (scene4, "julia_2.ppm"); (scene5, "julia_3.ppm");
    (scene6, "burning_ship.ppm"); (scene7, "mandelbrot_deep_zoom.ppm") ]%string.
End Driver.

(** ** Instances for running the program on examples *)

(** A device math library for examples that do not depend on it: every
    function returns its argument. *)
Definition echo_math : DeviceMath :=
  {| sinf := fun x => x; expf := fun x => x; logf := fun x => x;
     cvt_out_of_range := fun _ => 0 |}.

(** ** Further notions used in the properties of the whole program *)

(** The point opposite to [z]. *)
Definition opp2 (z : float2) : float2 :=
  make_float2 (F32.opp (fx z)) (F32.opp (fy z)).

(** A zero or a finite number: neither an infinity nor a value that is
    not a number. *)
Definition is_finite (x : spec_float) : bool :=
  match x with
  | S754_zero _ | S754_finite _ _ _ => true
  | _ => false
  end.

Definition origin : float2 := make_float2 zero_f zero_f.

(** The complex conjugate. *)
Definition conjugate (z : float2) : float2 := make_float2 (fx z) (F32.opp (fy z)).

(** A number with the sign of a zero forgotten. *)
Definition clear_zero (x : spec_float) : spec_float :=
  match x with
  | S754_zero _ => S754_zero false
  | _ => x
  end.

Definition clear_zero2 (z : float2) : float2 :=
  make_float2 (clear_zero (fx z)) (clear_zero (fy z)).

(** Equality of floating-point data (not the comparison [==] of C). *)
Definition sf_eqb (x y : spec_float) : bool :=
  match x, y with
  | S754_zero s, S754_zero s' => Bool.eqb s s'
  | S754_infinity s, S754_infinity s' => Bool.eqb s s'
  | S754_nan, S754_nan => true
  | S754_finite s m e, S754_finite s' m' e' =>
      Bool.eqb s s' && Pos.eqb m m' && Z.eqb e e'
  | _, _ => false
  end.

(** [n - size / 2.0], the signed distance of pixel [n] to the middle. *)
Definition centred (n size : Z) : spec_float :=
  F64.sub (F64.of_int n) (F64.div (F64.of_int size) two_d).

(** Pixels [n] and [size - n] are at opposite distances of the middle,
    for every [n] from 0 to [size]. *)
Definition mirror_check (size : Z) : bool :=
  forallb (fun n => sf_eqb (clear_zero (centred (size - n) size))
                      (clear_zero (SFopp (centred n size))))
          (map Z.of_nat (seq 0 (Z.to_nat (size + 1)))).

(** Two points that differ at most in the signs of zero components. *)
Definition same_but_zero_signs (z z' : float2) : Prop :=
  clear_zero2 z = clear_zero2 z'.

(** The line [save_ppm] prints for a file. *)
Definition report (can_open : string -> bool) (filename : string) : string :=
  if can_open filename then ("Saved fractal to " +:+ filename +:+ nl)%string
  else ("Error: Could not open file " +:+ filename +:+ nl)%string.

(** What a run of [main] prints, line by line. *)
Definition transcript (can_open : string -> bool) : list string :=
  [ "Generating beautiful fractals with CUDA..." +:+ nl;
    "Image size: 1920x1080, Max iterations: 1000" +:+ nl;
    nl +:+ "1. Generating Mandelbrot set..." +:+ nl;
    report can_open "mandelbrot_classic.ppm";
    "2. Generating zoomed Mandelbrot set..." +:+ nl;
    report can_open "mandelbrot_zoom.ppm";
    "3. Generating Julia set (c = -0.7 + 0.27015i)..." +:+ nl;
    report can_open "julia_1.ppm";
    "4. Generating Julia set (c = -0.4 + 0.6i)..." +:+ nl;
    report can_open "julia_2.ppm";
    "5. Generating Julia set (c = 0.285 + 0.01i)..." +:+ nl;
    report can_open "julia_3.ppm";
    "6. Generating Burning Ship fractal..." +:+ nl;
    report can_open "burning_ship.ppm";
    "7. Generating deep zoom Mandelbrot..." +:+ nl;
    report can_open "mandelbrot_deep_zoom.ppm";
    nl +:+ "All fractals generated successfully!" +:+ nl ]%string.

(** *** Decoding a written image *)

(** The value of a byte read as [unsigned char]. *)
Definition uchar_of_byte (b : byte) : Z := Z.of_N (Byte.to_N b).

(** The colours of a payload, three bytes each; a tail of fewer than three
    bytes is dropped. *)
Fixpoint colors_of_bytes (l : list byte) : list Color :=
  match l with
  | r :: g :: b :: rest =>
      mk_color (uchar_of_byte r) (uchar_of_byte g) (uchar_of_byte b)
        :: colors_of_bytes rest
  | _ => []
  end.

(** A reader of a whole file: the header, then the colours. *)
Definition read_ppm (l : list byte) : option (Z * Z * list Color) :=
  match parse_ppm l with
  | Some p => Some (ppm_width p, ppm_height p, colors_of_bytes (ppm_payload p))
  | None => None
  end.

(** Every channel is a value of [unsigned char]. *)
Definition in_gamut (c : Color) : Prop :=
  0 <= red c <= 255 /\ 0 <= green c <= 255 /\ 0 <= blue c <= 255.

(** *** Conversions that stay in range *)

(** The real number [m * 2^e]. *)
Definition F2R (m e : Z) : R := (IZR m * powerRZ 2 e)%R.

(** [(unsigned char)x] where the language defines it: the truncation of
    [x] toward zero when that is a value of the type. *)
Definition checked_uchar (x : spec_float) : option Z :=
  match trunc_Z x with
  | Some n => if (0 <=? n) && (n <=? 255) then Some n else None
  | None => None
  end.

(** A finite number in the interval from [lo] to [hi]. *)
Definition between (lo hi : R) (x : spec_float) : Prop :=
  is_finite x = true /\ (lo <= SF2R x <= hi)%R.

(** A device math library with constant functions, for examples: the sine
    is -1 and the exponential 0.5 everywhere. *)
Definition flat_math : DeviceMath :=
  {| sinf := fun _ => F32.opp one_f; expf := fun _ => half_f; logf := fun x => x;
     cvt_out_of_range := fun _ => 0 |}.

(** *** The kernels on machine integers *)

Definition INT_MAX : Z := 2147483647.
Definition INT_MIN : Z := -2147483648.

(** Arithmetic on [unsigned int]: modulo 2^32. *)
Definition uint (n : Z) : Z := n mod 4294967296.

(** Conversion of an [unsigned int] to [int], as the device does it: a
    value above [INT_MAX] comes out negative. *)
Definition int_of_uint (u : Z) : Z := if u <=? INT_MAX then u else u - 4294967296.

(** The value of an [int] expression where the language defines it:
    signed overflow has no value. *)
Definition int_result (n : Z) : option Z :=
  if (INT_MIN <=? n) && (n <=? INT_MAX) then Some n else None.

(** [int x = blockIdx.x * blockDim.x + threadIdx.x]: the product and the
    sum are computed on [unsigned int], the result is converted. *)
Definition device_x (cfg : launch_cfg) (t : thread) : Z :=
  int_of_uint (uint (uint (blockIdx_x t * blockDim_x cfg) + threadIdx_x t)).
Definition device_y (cfg : launch_cfg) (t : thread) : Z :=
  int_of_uint (uint (uint (blockIdx_y t * blockDim_y cfg) + threadIdx_y t)).

(** [y * width + x] on [int]. *)
Definition int_index (width x y : Z) : option Z :=
  match int_result (y * width) with
  | Some p => int_result (p + x)
  | None => None
  end.

(** One thread of a kernel with the coordinates and the index computed on
    machine integers and a store that has a result only inside the
    buffer.  [None]: the behaviour is not defined (an overflow of the
    index, or a store outside the buffer). *)
Definition store_pixel_checked (pix : Z -> Z -> Color) (cfg : launch_cfg)
    (image : list Color) (width height : Z) (t : thread) : option (list Color) :=
  let x := device_x cfg t in
  let y := device_y cfg t in
  if (x >=? width) || (y >=? height) then Some image
  else
    match int_index width x y with
    | Some i =>
        if (0 <=? i) && (i <? Z.of_nat (length image))
        then Some (<[Z.to_nat i := pix x y]> image)
        else None
    | None => None
    end.

(** A launch of checked threads in the order [sched]. *)
Fixpoint launch_checked (k : list Color -> thread -> option (list Color))
    (sched : list thread) (image : list Color) : option (list Color) :=
  match sched with
  | [] => Some image
  | t :: rest =>
      match k image t with
      | Some image' => launch_checked k rest image'
      | None => None
      end
  end.

Section CheckedKernels.
Context `{DeviceMath}.

(** The kernel of a scene, checked. *)
Definition kernel_checked (sc : Scene) (cfg : launch_cfg) (image : list Color)
    (t : thread) : option (list Color) :=
  store_pixel_checked (pixel sc) cfg image (sc_width sc) (sc_height sc) t.

(** The launch of [render], checked. *)
Definition render_checked (sc : Scene) (sched : list thread) (buffer : list Color)
    : option (list Color) :=
  launch_checked (kernel_checked sc (cfg_of (sc_width sc) (sc_height sc))) sched buffer.
End CheckedKernels.

(** An image size for which the pixel count and the sides rounded up to
    whole blocks are values of [int]. *)
Definition size_fits (width height : Z) : Prop :=
  0 <= width /\ 0 <= height
  /\ width + 15 <= INT_MAX /\ height + 15 <= INT_MAX
  /\ width * height <= INT_MAX.

(** The number of newline characters of a string. *)
Fixpoint newlines (s : string) : nat :=
  match s with
  | EmptyString => 0
  | String c s' => (if Ascii.eqb c "010"%char then 1 else 0) + newlines s'
  end.

(** * Properties *)

(** ** Comparisons on floating-point numbers *)

Lemma SFcompare_antisym (x y : spec_float) :
  SFcompare y x = option_map CompOpp (SFcompare x y).
Proof.
  destruct x as [sx|sx| |sx mx ex], y as [sy|sy| |sy my ey]; simpl;
    try reflexivity; try (destruct sx; reflexivity); try (destruct sy; reflexivity);
    try (destruct sx, sy; reflexivity).
  change (Pos.compare_cont Eq mx my) with (Pos.compare mx my).
  change (Pos.compare_cont Eq my mx) with (Pos.compare my mx).
  destruct sx, sy; simpl; try reflexivity;
    rewrite (Z.compare_antisym ey ex), (Pos.compare_antisym my mx);
    destruct (ey ?= ex); simpl; try reflexivity;
    destruct (my ?= mx)%positive; reflexivity.
Qed.

(** When [x < y] is false, either one of the two is not a number or
    [y <= x]. *)
Lemma not_ltb_leb (x y : spec_float) :
  SFltb x y = false -> is_nan x = true \/ is_nan y = true \/ SFleb y x = true.
Proof.
  unfold SFltb, SFleb. rewrite (SFcompare_antisym x y).
  destruct (SFcompare x y) as [[ | | ]|] eqn:E; simpl; auto; try discriminate.
  intros _. destruct x, y; simpl in E; auto; discriminate.
Qed.

(** ** Rounding in [SpecFloat] *)

Section Rounding.
Variables prec emax : Z.
Hypothesis prec_pos : 0 < prec.

Lemma fexp_ge_emin (e : Z) : emin prec emax <= fexp prec emax e.
Proof. unfold fexp. lia. Qed.

Lemma digits2_size (m : positive) : digits2_pos m = Pos.size m.
Proof. induction m as [m IH|m IH|]; simpl; now rewrite ?IH. Qed.

Lemma digits2_bounds (m : positive) :
  2 ^ (Zpos (digits2_pos m) - 1) <= Zpos m < 2 ^ Zpos (digits2_pos m).
Proof.
  rewrite digits2_size. split.
  - pose proof (Pos.size_le m) as Hle.
    assert (H2 : 2 ^ Zpos (Pos.size m) <= 2 * Zpos m).
    { change 2 with (Zpos 2) at 1. rewrite <- Pos2Z.inj_pow.
      change (2 * Zpos m) with (Zpos m~0). now apply Pos2Z.pos_le_pos. }
    replace (Zpos (Pos.size m)) with (Z.succ (Zpos (Pos.size m) - 1)) in H2 by lia.
    rewrite Z.pow_succ_r in H2 by lia. lia.
  - pose proof (Pos.size_gt m) as Hgt.
    change 2 with (Zpos 2). rewrite <- Pos2Z.inj_pow. now apply Pos2Z.pos_lt_pos.
Qed.

Lemma iter_pos_nat {A : Type} (f : A -> A) (p : positive) (x : A) :
  SpecFloat.iter_pos f p x = Nat.iter (Pos.to_nat p) f x.
Proof.
  revert x. induction p as [p IH|p IH|]; intros x; cbn [SpecFloat.iter_pos].
  - rewrite !IH, <- Nat.iter_add, <- Nat.iter_succ_r.
    f_equal. rewrite Pos2Nat.inj_xI. lia.
  - rewrite !IH, <- Nat.iter_add. f_equal. rewrite Pos2Nat.inj_xO. lia.
  - reflexivity.
Qed.

Lemma shr_1_m (mrs : shr_record) :
  0 <= shr_m mrs -> shr_m (shr_1 mrs) = shr_m mrs / 2.
Proof.
  destruct mrs as [m r s]; cbn [shr_m]. intros Hm.
  destruct m as [|[p|p|]|p]; cbn [shr_1 shr_m]; try lia; try reflexivity.
  - rewrite (Pos2Z.inj_xI p). apply Z.div_unique with 1; lia.
  - rewrite (Pos2Z.inj_xO p). apply Z.div_unique with 0; lia.
Qed.

Lemma shr_iter_m (n : nat) (mrs : shr_record) :
  0 <= shr_m mrs ->
  shr_m (Nat.iter n shr_1 mrs) = shr_m mrs / 2 ^ Z.of_nat n.
Proof.
  intros Hm. induction n as [|n IH].
  - simpl. now rewrite Z.div_1_r.
  - rewrite Nat.iter_succ, shr_1_m.
    + rewrite IH, Nat2Z.inj_succ, Z.pow_succ_r by lia.
      rewrite Z.div_div by lia. f_equal. lia.
    + rewrite IH. apply Z.div_pos; lia.
Qed.

Lemma shr_spec (mrs : shr_record) (e n : Z) :
  0 <= shr_m mrs ->
  shr_m (fst (shr mrs e n)) = shr_m mrs / 2 ^ Z.max 0 n
  /\ snd (shr mrs e n) = e + Z.max 0 n.
Proof.
  intros Hm. unfold shr. destruct n as [|p|p]; simpl.
  - now rewrite Z.div_1_r, Z.add_0_r.
  - rewrite iter_pos_nat, shr_iter_m by assumption.
    now rewrite positive_nat_Z.
  - now rewrite Z.div_1_r, Z.add_0_r.
Qed.

Lemma shr_record_of_loc_m (m : Z) (l : location) : shr_m (shr_record_of_loc m l) = m.
Proof. destruct l as [|[ | | ]]; reflexivity. Qed.

Lemma loc_of_shr_record_of_loc (m : Z) (l : location) :
  loc_of_shr_record (shr_record_of_loc m l) = l.
Proof. destruct l as [|[ | | ]]; reflexivity. Qed.

Lemma shr_fexp_spec (m e : Z) (l : location) :
  0 <= m ->
  let n := Z.max 0 (fexp prec emax (Zdigits2 m + e) - e) in
  shr_m (fst (shr_fexp prec emax m e l)) = m / 2 ^ n
  /\ snd (shr_fexp prec emax m e l) = e + n.
Proof.
  intros Hm n. unfold shr_fexp.
  pose proof (shr_spec (shr_record_of_loc m l) e
                (fexp prec emax (Zdigits2 m + e) - e)) as Hs.
  rewrite shr_record_of_loc_m in Hs. now apply Hs.
Qed.

(** The exponent that comes out of [shr_fexp] is never below [emin]. *)
Lemma shr_fexp_exp (m e : Z) (l : location) :
  0 <= m -> emin prec emax <= snd (shr_fexp prec emax m e l).
Proof.
  intros Hm. destruct (shr_fexp_spec m e l Hm) as [_ ->].
  pose proof (fexp_ge_emin (Zdigits2 m + e)). lia.
Qed.

(** No underflow to zero from an exponent that is at least [emin]. *)
Lemma shr_fexp_pos (m : positive) (e : Z) (l : location) :
  emin prec emax <= e ->
  0 < shr_m (fst (shr_fexp prec emax (Zpos m) e l)).
Proof.
  intros He. destruct (shr_fexp_spec (Zpos m) e l) as [-> _]; [lia|].
  simpl Zdigits2. pose proof (digits2_bounds m) as [Hlo _].
  set (d := Zpos (digits2_pos m)) in *.
  assert (Hn : Z.max 0 (fexp prec emax (d + e) - e) <= d - 1).
  { unfold fexp. lia. }
  apply Z.div_str_pos. split; [apply Z.pow_pos_nonneg; lia|].
  transitivity (2 ^ (d - 1)); [apply Z.pow_le_mono_r; lia | assumption].
Qed.

Lemma round_nearest_even_bounds (m : Z) (l : location) :
  m <= round_nearest_even m l <= m + 1.
Proof.
  unfold round_nearest_even. destruct l as [|[ | | ]]; try lia.
  destruct (Z.even m); lia.
Qed.

(** Every result of [binary_round_aux] carries the sign it was given, and
    a finite result has an exponent of at least [emin]. *)
Lemma binary_round_aux_cases (s : bool) (m e : Z) (l : location) :
  0 <= m ->
  binary_round_aux prec emax s m e l = S754_zero s
  \/ binary_round_aux prec emax s m e l = S754_infinity s
  \/ exists (m' : positive) (e' : Z),
       binary_round_aux prec emax s m e l = S754_finite s m' e'
       /\ emin prec emax <= e'.
Proof.
  intros Hm. unfold binary_round_aux.
  destruct (shr_fexp prec emax m e l) as [mrs1 e1] eqn:E1.
  pose proof (shr_fexp_spec m e l Hm) as [Hm1 _]. rewrite E1 in Hm1. simpl in Hm1.
  assert (H1 : 0 <= shr_m mrs1) by (rewrite Hm1; apply Z.div_pos; [lia|apply Z.pow_pos_nonneg; lia]).
  pose proof (round_nearest_even_bounds (shr_m mrs1) (loc_of_shr_record mrs1)) as Hr.
  set (m2 := round_nearest_even (shr_m mrs1) (loc_of_shr_record mrs1)) in *.
  assert (H2 : 0 <= m2) by lia.
  destruct (shr_fexp prec emax m2 e1 loc_Exact) as [mrs3 e3] eqn:E3.
  pose proof (shr_fexp_spec m2 e1 loc_Exact H2) as [Hm3 _].
  pose proof (shr_fexp_exp m2 e1 loc_Exact H2) as He3.
  rewrite E3 in Hm3, He3. simpl in Hm3, He3.
  destruct (shr_m mrs3) as [|m3|m3] eqn:E.
  - now left.
  - destruct (e3 <=? emax - prec); [|now right; left].
    right; right. now exists m3, e3.
  - exfalso. assert (0 <= Z.neg m3); [|lia].
    rewrite Hm3. apply Z.div_pos; [lia|apply Z.pow_pos_nonneg; lia].
Qed.

Lemma binary_round_aux_nonzero (s : bool) (m : positive) (e : Z) (l : location) :
  emin prec emax <= e ->
  binary_round_aux prec emax s (Zpos m) e l <> S754_zero s.
Proof.
  intros He. unfold binary_round_aux.
  destruct (shr_fexp prec emax (Zpos m) e l) as [mrs1 e1] eqn:E1.
  pose proof (shr_fexp_pos m e l He) as H1. rewrite E1 in H1. simpl in H1.
  pose proof (shr_fexp_exp (Zpos m) e l ltac:(lia)) as He1. rewrite E1 in He1. simpl in He1.
  pose proof (round_nearest_even_bounds (shr_m mrs1) (loc_of_shr_record mrs1)) as Hr.
  destruct (round_nearest_even (shr_m mrs1) (loc_of_shr_record mrs1)) as [|m2|m2];
    try lia.
  destruct (shr_fexp prec emax (Zpos m2) e1 loc_Exact) as [mrs3 e3] eqn:E3.
  pose proof (shr_fexp_pos m2 e1 loc_Exact He1) as H3. rewrite E3 in H3. simpl in H3.
  destruct (shr_m mrs3) as [|m3|m3]; try lia.
  destruct (e3 <=? emax - prec); discriminate.
Qed.
End Rounding.

(** ** Signs and exponents of results *)

Section Operations.
Variables prec emax : Z.
Hypothesis prec_pos : 0 < prec.

Lemma valid_exp_ok (x : spec_float) :
  valid_binary prec emax x = true -> exp_ok prec emax x.
Proof.
  destruct x as [s|s| |s m e]; simpl; auto.
  unfold bounded, canonical_mantissa. intros Hv.
  apply andb_true_iff in Hv as [Hc _]. apply Z.eqb_eq in Hc.
  rewrite <- Hc. apply fexp_ge_emin.
Qed.

Lemma sign_clear_zero (s : bool) : sign_clear (S754_zero s) -> s = false.
Proof. unfold sign_clear; simpl. now intros [= <-]. Qed.

Lemma sign_clear_infinity (s : bool) : sign_clear (S754_infinity s) -> s = false.
Proof. unfold sign_clear; simpl. now intros [= <-]. Qed.

Lemma sign_clear_finite (s : bool) (m : positive) (e : Z) :
  sign_clear (S754_finite s m e) -> s = false.
Proof. unfold sign_clear; simpl. now intros [= <-]. Qed.

Lemma shl_align_exp (mx : positive) (ex ex' : Z) :
  emin prec emax <= ex -> emin prec emax <= ex' ->
  emin prec emax <= snd (shl_align mx ex ex').
Proof.
  intros He He'. unfold shl_align. destruct (ex' - ex); simpl; lia.
Qed.

Lemma binary_round_cases (s : bool) (m : positive) (e : Z) :
  binary_round prec emax s m e = S754_zero s
  \/ binary_round prec emax s m e = S754_infinity s
  \/ exists (m' : positive) (e' : Z),
       binary_round prec emax s m e = S754_finite s m' e' /\ emin prec emax <= e'.
Proof.
  unfold binary_round.
  destruct (shl_align m e (fexp prec emax (Zpos (digits2_pos m) + e))) as [mz ez].
  apply binary_round_aux_cases; lia.
Qed.

Lemma binary_round_nonzero (s : bool) (m : positive) (e : Z) :
  emin prec emax <= e -> binary_round prec emax s m e <> S754_zero s.
Proof.
  intros He. unfold binary_round.
  pose proof (shl_align_exp m e (fexp prec emax (Zpos (digits2_pos m) + e)) He
                (fexp_ge_emin prec emax _)) as Hz.
  destruct (shl_align m e (fexp prec emax (Zpos (digits2_pos m) + e))) as [mz ez].
  now apply binary_round_aux_nonzero.
Qed.

Lemma binary_normalize_facts (m e : Z) :
  emin prec emax <= e ->
  binary_normalize prec emax m e false <> neg_zero
  /\ exp_ok prec emax (binary_normalize prec emax m e false)
  /\ (0 <= m -> sign_clear (binary_normalize prec emax m e false)).
Proof.
  intros He. unfold binary_normalize, neg_zero. destruct m as [|m|m].
  - repeat split; discriminate.
  - destruct (binary_round_cases false m e) as [->|[->|(m' & e' & -> & He')]];
      repeat split; try discriminate; assumption.
  - pose proof (binary_round_nonzero true m e He) as Hnz.
    destruct (binary_round_cases true m e) as [Hr|[->|(m' & e' & -> & He')]];
      [contradiction| |]; repeat split; try discriminate; try assumption; lia.
Qed.

Lemma SFmul_exp_ok (x y : spec_float) : exp_ok prec emax (SFmul prec emax x y).
Proof.
  destruct x as [sx|sx| |sx mx ex], y as [sy|sy| |sy my ey]; simpl; auto.
  destruct (binary_round_aux_cases prec emax (xorb sx sy) (Zpos (mx * my)) (ex + ey)
              loc_Exact) as [->|[->|(m' & e' & -> & He')]]; simpl; auto; lia.
Qed.

Lemma SFmul_sign_clear (x y : spec_float) :
  sign_clear x -> sign_clear y -> sign_clear (SFmul prec emax x y).
Proof.
  destruct x as [sx|sx| |sx mx ex], y as [sy|sy| |sy my ey]; intros Hx Hy;
    try reflexivity;
    try apply sign_clear_zero in Hx; try apply sign_clear_infinity in Hx;
    try apply sign_clear_finite in Hx;
    try apply sign_clear_zero in Hy; try apply sign_clear_infinity in Hy;
    try apply sign_clear_finite in Hy; subst; try reflexivity.
  simpl.
  destruct (binary_round_aux_cases prec emax false (Zpos (mx * my)) (ex + ey)
              loc_Exact) as [->|[->|(m' & e' & -> & He')]]; try reflexivity; lia.
Qed.

Lemma SFadd_facts (x y : spec_float) :
  exp_ok prec emax x -> exp_ok prec emax y ->
  exp_ok prec emax (SFadd prec emax x y)
  /\ (SFadd prec emax x y = neg_zero -> x = neg_zero /\ y = neg_zero)
  /\ (sign_clear x -> sign_clear y -> sign_clear (SFadd prec emax x y)).
Proof.
  unfold neg_zero.
  destruct x as [sx|sx| |sx mx ex], y as [sy|sy| |sy my ey]; intros Hx Hy;
    try (repeat split; simpl; auto; discriminate).
  - destruct sx, sy; repeat split; simpl; auto; try discriminate;
      intros H1 H2; try (apply sign_clear_zero in H1; discriminate);
      try (apply sign_clear_zero in H2; discriminate).
  - destruct sx, sy; repeat split; simpl; auto; try discriminate;
      intros H1 H2; try (apply sign_clear_infinity in H1; discriminate);
      try (apply sign_clear_infinity in H2; discriminate).
  - simpl in Hx, Hy. cbn [SFadd].
    destruct (binary_normalize_facts
                (cond_Zopp sx (Zpos (fst (shl_align mx ex (Z.min ex ey))))
                 + cond_Zopp sy (Zpos (fst (shl_align my ey (Z.min ex ey)))))
                (Z.min ex ey)) as (Hnz & Hok & Hsc); [lia|].
    split; [exact Hok|]. split; [intros E; contradiction|].
    intros H1 H2. apply sign_clear_finite in H1. apply sign_clear_finite in H2.
    subst. apply Hsc. simpl. lia.
Qed.

Lemma SFsub_facts (x y : spec_float) :
  exp_ok prec emax x -> exp_ok prec emax y ->
  exp_ok prec emax (SFsub prec emax x y)
  /\ (SFsub prec emax x y = neg_zero -> x = neg_zero).
Proof.
  unfold neg_zero.
  destruct x as [sx|sx| |sx mx ex], y as [sy|sy| |sy my ey]; intros Hx Hy;
    try (split; simpl; auto; discriminate).
  - destruct sx, sy; split; simpl; auto; discriminate.
  - destruct sx, sy; split; simpl; auto; discriminate.
  - simpl in Hx, Hy. cbn [SFsub].
    destruct (binary_normalize_facts
                (cond_Zopp sx (Zpos (fst (shl_align mx ex (Z.min ex ey))))
                 - cond_Zopp sy (Zpos (fst (shl_align my ey (Z.min ex ey)))))
                (Z.min ex ey)) as (Hnz & Hok & _); [lia|].
    split; [exact Hok|]. intros E; contradiction.
Qed.
End Operations.

(** ** The square root of a magnitude past the bailout *)

Lemma sixteen_f_value : sixteen_f = S754_finite false 8388608 (-19).
Proof. vm_compute. reflexivity. Qed.

Lemma four_f_value : four_f = S754_finite false 8388608 (-21).
Proof. vm_compute. reflexivity. Qed.

Lemma digits2_unique (m : positive) (k : Z) :
  2 ^ (k - 1) <= Zpos m < 2 ^ k -> Zpos (digits2_pos m) = k.
Proof.
  intros [Hlo Hhi]. pose proof (digits2_bounds m) as [Dlo Dhi].
  set (d := Zpos (digits2_pos m)) in *.
  assert (Hd : 0 < d) by (unfold d; lia).
  destruct (Z.lt_trichotomy d k) as [Hlt|[Heq|Hgt]]; [|assumption|]; exfalso.
  - assert (2 ^ d <= 2 ^ (k - 1)) by (apply Z.pow_le_mono_r; lia). lia.
  - assert (0 <= k).
    { destruct (Z.neg_nonneg_cases k) as [Hk|Hk]; [|assumption].
      rewrite (Z.pow_neg_r 2 k Hk) in Hhi. lia. }
    assert (2 ^ k <= 2 ^ (d - 1)) by (apply Z.pow_le_mono_r; lia). lia.
Qed.

(** A binary32 number that is at least 16 has a full mantissa and an
    exponent of at least -19. *)
Lemma ge_sixteen_shape (x : spec_float) :
  F32.valid x -> F32.leb sixteen_f x = true ->
  x = S754_infinity false
  \/ exists (m : positive) (e : Z),
       x = S754_finite false m e
       /\ 8388608 <= Zpos m < 16777216 /\ -19 <= e <= 104.
Proof.
  rewrite sixteen_f_value. unfold F32.valid, F32.leb, SFleb.
  destruct x as [s|[|]| |[|] m e]; cbn [valid_binary SFcompare]; intros Hv Hle;
    try discriminate; auto.
  right. exists m, e. split; [reflexivity|].
  unfold bounded, canonical_mantissa in Hv.
  apply andb_true_iff in Hv as [Hc Hb].
  apply Z.eqb_eq in Hc. apply Z.leb_le in Hb.
  unfold fexp, emin, F32.prec, F32.emax in Hc, Hb.
  assert (He : -19 <= e).
  { destruct (Z.compare_spec (-19) e); try lia; discriminate. }
  assert (Hd : Zpos (digits2_pos m) = 24) by lia.
  pose proof (digits2_bounds m) as Hm. rewrite Hd in Hm.
  change (2 ^ (24 - 1)) with 8388608 in Hm. change (2 ^ 24) with 16777216 in Hm.
  lia.
Qed.

(** Rounding a full mantissa with an exponent of at least -21 gives at
    least 4. *)
Lemma round_full_mantissa_ge_four (q : positive) (e : Z) (l : location) :
  8388608 <= Zpos q < 16777216 -> -21 <= e ->
  F32.leb four_f (binary_round_aux F32.prec F32.emax false (Zpos q) e l) = true.
Proof.
  intros Hq He. rewrite four_f_value. unfold binary_round_aux.
  assert (Hd : Zpos (digits2_pos q) = 24) by (apply digits2_unique; simpl; lia).
  assert (E1 : shr_fexp F32.prec F32.emax (Zpos q) e l = (shr_record_of_loc (Zpos q) l, e)).
  { unfold shr_fexp. cbn [Zdigits2]. rewrite Hd.
    replace (fexp F32.prec F32.emax (24 + e) - e) with 0
      by (unfold fexp, emin, F32.prec, F32.emax; lia).
    reflexivity. }
  rewrite E1, shr_record_of_loc_m, loc_of_shr_record_of_loc.
  pose proof (round_nearest_even_bounds (Zpos q) l) as Hr.
  destruct (round_nearest_even (Zpos q) l) as [|m2|m2]; try lia.
  destruct (shr_fexp F32.prec F32.emax (Zpos m2) e loc_Exact) as [mrs3 e3] eqn:E3.
  pose proof (shr_fexp_spec F32.prec F32.emax (Zpos m2) e loc_Exact) as Hs.
  rewrite E3 in Hs. cbn [fst snd Zdigits2] in Hs.
  destruct Hs as [Hm3 He3]; [lia|].
  assert (Hres : 8388608 <= shr_m mrs3 /\ -21 <= e3).
  { destruct (Z.eq_dec (Zpos m2) 16777216) as [Heq|Hne].
    - assert (Hd2 : Zpos (digits2_pos m2) = 25) by (apply digits2_unique; simpl; lia).
      rewrite Hd2 in Hm3, He3.
      replace (Z.max 0 (fexp F32.prec F32.emax (25 + e) - e)) with 1 in Hm3, He3
        by (unfold fexp, emin, F32.prec, F32.emax; lia).
      rewrite Hm3, Heq. split; [vm_compute; discriminate | lia].
    - assert (Hd2 : Zpos (digits2_pos m2) = 24) by (apply digits2_unique; simpl; lia).
      rewrite Hd2 in Hm3, He3.
      replace (Z.max 0 (fexp F32.prec F32.emax (24 + e) - e)) with 0 in Hm3, He3
        by (unfold fexp, emin, F32.prec, F32.emax; lia).
      rewrite Z.div_1_r in Hm3. lia. }
  destruct Hres as [Hm He'].
  destruct (shr_m mrs3) as [|m3|m3]; try lia.
  destruct (e3 <=? F32.emax - F32.prec); [|reflexivity].
  unfold F32.leb, SFleb. cbn [SFcompare].
  destruct (Z.compare_spec (-21) e3) as [Heq|Hlt|Hgt]; try reflexivity; [|lia].
  change (Pos.compare_cont Eq 8388608 m3) with (Z.compare 8388608 (Zpos m3)).
  destruct (Z.compare_spec 8388608 (Zpos m3)); try reflexivity; lia.
Qed.

(** [sqrtf] of a binary32 number that is at least 16 is at least 4. *)
Lemma sqrt_ge_four (x : spec_float) :
  F32.valid x -> F32.leb sixteen_f x = true -> F32.leb four_f (F32.sqrt x) = true.
Proof.
  intros Hv Hle.
  destruct (ge_sixteen_shape x Hv Hle) as [->|(m & e & -> & Hm & He)];
    [vm_compute; reflexivity|].
  unfold F32.sqrt, SFsqrt, SFsqrt_core_binary. cbn [Zdigits2].
  assert (Hd : Zpos (digits2_pos m) = 24) by (apply digits2_unique; simpl; lia).
  rewrite Hd.
  set (e' := Z.min (fexp F32.prec F32.emax (Z.div2 (24 + e + 1))) (Z.div2 e)).
  assert (He' : e' = (e + 25) / 2 - 24).
  { unfold e', fexp, emin, F32.prec, F32.emax. rewrite !Z.div2_div.
    Z.div_mod_to_equations. lia. }
  assert (Hs : e - 2 * e' = 23 \/ e - 2 * e' = 24)
    by (rewrite He'; Z.div_mod_to_equations; lia).
  assert (Hsh : match e - 2 * e' with
                | Z.pos _ => Z.shiftl (Zpos m) (e - 2 * e')
                | 0 => Zpos m
                | Z.neg _ => 0
                end = Zpos m * 2 ^ (e - 2 * e')).
  { destruct Hs as [Hs | Hs]; rewrite Hs; cbv beta iota;
      apply Z.shiftl_mul_pow2; lia. }
  rewrite Hsh.
  pose proof (Z.sqrtrem_spec (Zpos m * 2 ^ (e - 2 * e'))) as Hsq.
  destruct (Z.sqrtrem (Zpos m * 2 ^ (e - 2 * e'))) as [q r].
  assert (Hq : 8388608 <= q < 16777216).
  { destruct Hsq as [Hsq Hr]; [destruct Hs as [-> | ->]; lia|].
    destruct Hs as [Hs | Hs]; rewrite Hs in Hsq.
    - change (2 ^ 23) with 8388608 in Hsq. split.
      + apply Z.nlt_ge. intros Hlt.
        assert (q * q <= 8388607 * 8388607) by (apply Z.mul_le_mono_nonneg; lia). lia.
      + apply Z.nle_gt. intros Hge.
        assert (16777216 * 16777216 <= q * q) by (apply Z.mul_le_mono_nonneg; lia). lia.
    - change (2 ^ 24) with 16777216 in Hsq. split.
      + apply Z.nlt_ge. intros Hlt.
        assert (q * q <= 8388607 * 8388607) by (apply Z.mul_le_mono_nonneg; lia). lia.
      + apply Z.nle_gt. intros Hge.
        assert (16777216 * 16777216 <= q * q) by (apply Z.mul_le_mono_nonneg; lia). lia. }
  destruct q as [|q|q]; try lia.
  apply round_full_mantissa_ge_four; [assumption | lia].
Qed.

(** ** Results of operations are numbers of the format *)

Section Validity.
Variables prec emax : Z.
Hypothesis prec_pos : 0 < prec.
Hypothesis emin_nonpos : emin prec emax <= 0.

Lemma digits2_mono (m m' : positive) :
  Zpos m <= Zpos m' -> Zpos (digits2_pos m) <= Zpos (digits2_pos m').
Proof.
  intros Hle. pose proof (digits2_bounds m) as [Hlo _].
  pose proof (digits2_bounds m') as [_ Hhi].
  assert (Hlt : 2 ^ (Zpos (digits2_pos m) - 1) < 2 ^ Zpos (digits2_pos m')) by lia.
  apply Z.pow_lt_mono_r_iff in Hlt; lia.
Qed.

Lemma digits2_div (m : positive) (n : Z) :
  0 <= n < Zpos (digits2_pos m) ->
  exists q : positive,
    Zpos m / 2 ^ n = Zpos q /\ Zpos (digits2_pos q) = Zpos (digits2_pos m) - n.
Proof.
  intros Hn. pose proof (digits2_bounds m) as [Hlo Hhi].
  set (d := Zpos (digits2_pos m)) in *.
  assert (Hp : 0 < 2 ^ n) by (apply Z.pow_pos_nonneg; lia).
  assert (Hq : 2 ^ (d - n - 1) <= Zpos m / 2 ^ n < 2 ^ (d - n)).
  { split.
    - apply Z.div_le_lower_bound; [assumption|].
      rewrite <- Z.pow_add_r by lia. now replace (n + (d - n - 1)) with (d - 1) by lia.
    - apply Z.div_lt_upper_bound; [assumption|].
      rewrite <- Z.pow_add_r by lia. now replace (n + (d - n)) with d by lia. }
  assert (Hpos : 0 < 2 ^ (d - n - 1)) by (apply Z.pow_pos_nonneg; lia).
  destruct (Zpos m / 2 ^ n) as [|q|q] eqn:E; try lia.
  exists q. split; [reflexivity|]. apply digits2_unique. exact Hq.
Qed.

Lemma digits2_shift (m p : positive) :
  Zpos (digits2_pos (Pos.iter xO m p)) = Zpos (digits2_pos m) + Zpos p.
Proof.
  induction p as [|p IH] using Pos.peano_ind.
  - simpl. lia.
  - rewrite Pos.iter_succ. cbn [digits2_pos]. lia.
Qed.

Lemma shr_fexp_canonical (m : positive) (e : Z) :
  emin prec emax <= e ->
  e <= fexp prec emax (Zpos (digits2_pos m) + e) ->
  exists m' : positive,
    shr_m (fst (shr_fexp prec emax (Zpos m) e loc_Exact)) = Zpos m'
    /\ canonical_mantissa prec emax m' (snd (shr_fexp prec emax (Zpos m) e loc_Exact))
       = true.
Proof.
  intros He Hf.
  destruct (shr_fexp_spec prec emax (Zpos m) e loc_Exact) as [-> ->]; [lia|].
  cbn [Zdigits2]. set (d := Zpos (digits2_pos m)) in *.
  assert (Hd : 0 < d) by (unfold d; lia).
  set (n := Z.max 0 (fexp prec emax (d + e) - e)).
  assert (Hn : 0 <= n < d) by (unfold n, fexp in *; lia).
  destruct (digits2_div m n Hn) as (q & Hq & Hdq). fold d in Hdq.
  exists q. split; [exact Hq|].
  unfold canonical_mantissa. apply Z.eqb_eq. rewrite Hdq.
  replace (d - n + (e + n)) with (d + e) by lia. unfold n. lia.
Qed.

(** Rounding a mantissa whose exponent is not above the format's gives a
    number of the format. *)
Lemma binary_round_aux_valid (s : bool) (m : positive) (e : Z) (l : location) :
  e <= fexp prec emax (Zpos (digits2_pos m) + e) ->
  valid_binary prec emax (binary_round_aux prec emax s (Zpos m) e l) = true.
Proof.
  intros Hf. unfold binary_round_aux.
  destruct (shr_fexp prec emax (Zpos m) e l) as [mrs1 e1] eqn:E1.
  destruct (shr_fexp_spec prec emax (Zpos m) e l) as [Hm1 He1]; [lia|].
  rewrite E1 in Hm1, He1. cbn [fst snd Zdigits2] in Hm1, He1.
  set (d := Zpos (digits2_pos m)) in *.
  assert (Hd : 0 < d) by (unfold d; lia).
  set (n := Z.max 0 (fexp prec emax (d + e) - e)) in *.
  assert (He1' : e1 = fexp prec emax (d + e)) by (unfold n in He1; lia).
  pose proof (fexp_ge_emin prec emax (d + e)) as Hmin.
  pose proof (round_nearest_even_bounds (shr_m mrs1) (loc_of_shr_record mrs1)) as Hr.
  assert (H1 : 0 <= shr_m mrs1)
    by (rewrite Hm1; apply Z.div_pos; [lia|apply Z.pow_pos_nonneg; unfold n; lia]).
  destruct (round_nearest_even (shr_m mrs1) (loc_of_shr_record mrs1)) as [|m2|m2];
    [| |lia].
  - destruct (shr_fexp prec emax 0 e1 loc_Exact) as [mrs3 e3] eqn:E3.
    destruct (shr_fexp_spec prec emax 0 e1 loc_Exact) as [Hm3 _]; [lia|].
    rewrite E3 in Hm3. cbn [fst] in Hm3. rewrite Z.div_0_l in Hm3
      by (apply Z.pow_nonzero; lia).
    now rewrite Hm3.
  - assert (Hf2 : e1 <= fexp prec emax (Zpos (digits2_pos m2) + e1)).
    { destruct (Z.lt_ge_cases n d) as [Hlt|Hge].
      - destruct (digits2_div m n) as (q & Hq & Hdq); [unfold n; lia|].
        fold d in Hdq. rewrite Hq in Hm1.
        assert (Hmono : Zpos (digits2_pos q) <= Zpos (digits2_pos m2))
          by (apply digits2_mono; lia).
        unfold fexp in *. lia.
      - pose proof (fexp_ge_emin prec emax (Zpos (digits2_pos m2) + e1)).
        unfold fexp in *. lia. }
    destruct (shr_fexp_canonical m2 e1) as (m3 & Hm3 & Hc3); [lia | exact Hf2 |].
    destruct (shr_fexp prec emax (Zpos m2) e1 loc_Exact) as [mrs3 e3].
    cbn [fst snd] in Hm3, Hc3. rewrite Hm3.
    destruct (e3 <=? emax - prec) eqn:Hb; [|reflexivity].
    change (SpecFloat.bounded prec emax m3 e3 = true).
    unfold SpecFloat.bounded. now rewrite Hc3, Hb.
Qed.

Lemma binary_round_valid (s : bool) (m : positive) (e : Z) :
  valid_binary prec emax (binary_round prec emax s m e) = true.
Proof.
  unfold binary_round.
  set (f := fexp prec emax (Zpos (digits2_pos m) + e)).
  assert (Hal : let '(mz, ez) := shl_align m e f in
                ez <= fexp prec emax (Zpos (digits2_pos mz) + ez)).
  { unfold shl_align. destruct (f - e) as [|p|p] eqn:Hfe; try (fold f; lia).
    rewrite digits2_shift.
    replace (Zpos (digits2_pos m) + Zpos p + f) with (Zpos (digits2_pos m) + e) by lia.
    fold f. lia. }
  destruct (shl_align m e f) as [mz ez]. now apply binary_round_aux_valid.
Qed.

Lemma binary_normalize_valid (m e : Z) (szero : bool) :
  valid_binary prec emax (binary_normalize prec emax m e szero) = true.
Proof.
  unfold binary_normalize. destruct m; [reflexivity | |]; apply binary_round_valid.
Qed.

Lemma canonical_shape (m : positive) (e : Z) :
  canonical_mantissa prec emax m e = true ->
  Zpos (digits2_pos m) <= prec
  /\ (Zpos (digits2_pos m) = prec \/ e = emin prec emax).
Proof.
  unfold canonical_mantissa, fexp. intros Hc. apply Z.eqb_eq in Hc. lia.
Qed.

Lemma SFmul_valid (x y : spec_float) :
  valid_binary prec emax x = true -> valid_binary prec emax y = true ->
  valid_binary prec emax (SFmul prec emax x y) = true.
Proof.
  destruct x as [sx|sx| |sx mx ex], y as [sy|sy| |sy my ey]; intros Hx Hy;
    try reflexivity.
  cbn [SFmul]. apply binary_round_aux_valid.
  cbn [valid_binary] in Hx, Hy. unfold bounded in Hx, Hy.
  apply andb_true_iff in Hx as [Hx _]. apply andb_true_iff in Hy as [Hy _].
  apply canonical_shape in Hx as [Hdx Hx], Hy as [Hdy Hy].
  pose proof (digits2_bounds mx) as [Lx _]. pose proof (digits2_bounds my) as [Ly _].
  pose proof (digits2_bounds (mx * my)) as [_ Hxy].
  set (dx := Zpos (digits2_pos mx)) in *. set (dy := Zpos (digits2_pos my)) in *.
  set (d := Zpos (digits2_pos (mx * my))) in *.
  assert (Hd : dx + dy - 1 <= d).
  { assert (Hlt : 2 ^ (dx + dy - 2) < 2 ^ d).
    { apply Z.le_lt_trans with (Zpos (mx * my)); [|exact Hxy].
      replace (dx + dy - 2) with ((dx - 1) + (dy - 1)) by lia.
      rewrite Z.pow_add_r by (unfold dx, dy; lia). rewrite Pos2Z.inj_mul.
      apply Z.mul_le_mono_nonneg; try assumption; apply Z.pow_nonneg; lia. }
    apply Z.pow_lt_mono_r_iff in Hlt; unfold d; lia. }
  assert (0 < dx) by (unfold dx; lia). assert (0 < dy) by (unfold dy; lia).
  unfold fexp. destruct Hx as [Hx|Hx], Hy as [Hy|Hy]; lia.
Qed.

Lemma SFadd_valid (x y : spec_float) :
  valid_binary prec emax x = true -> valid_binary prec emax y = true ->
  valid_binary prec emax (SFadd prec emax x y) = true.
Proof.
  destruct x as [sx|sx| |sx mx ex], y as [sy|sy| |sy my ey]; intros Hx Hy;
    try reflexivity; try assumption;
    try (destruct sx, sy; reflexivity).
  cbn [SFadd]. apply binary_normalize_valid.
Qed.

Lemma SFsub_valid (x y : spec_float) :
  valid_binary prec emax x = true -> valid_binary prec emax y = true ->
  valid_binary prec emax (SFsub prec emax x y) = true.
Proof.
  destruct x as [sx|sx| |sx mx ex], y as [sy|sy| |sy my ey]; intros Hx Hy;
    try reflexivity; try assumption;
    try (destruct sx, sy; reflexivity).
  cbn [SFsub]. apply binary_normalize_valid.
Qed.

Lemma SFabs_valid (x : spec_float) :
  valid_binary prec emax x = true -> valid_binary prec emax (SFabs x) = true.
Proof. destruct x; auto. Qed.
End Validity.
(** ** The loop *)

Section Loop.
Variables (v : variant) (c : float2) (max_iter : Z).

Local Abbreviation step := (body v c).
Local Abbreviation cond := (loop_cond max_iter).

Lemma iter_body_iter (n : nat) (s : loop_state) :
  st_iter (Nat.iter n step s) = st_iter s + Z.of_nat n.
Proof.
  induction n as [|n IH]; simpl; [lia|]. rewrite IH. lia.
Qed.

Lemma iter_body_comm (n : nat) (s : loop_state) :
  Nat.iter n step (step s) = step (Nat.iter n step s).
Proof.
  induction n as [|n IH]; simpl; [reflexivity|]. now rewrite IH.
Qed.

Lemma iter_body_z (n : nat) (s : loop_state) :
  st_z (Nat.iter n step s) = orbit v c n (st_z s).
Proof.
  induction n as [|n IH]; simpl; [reflexivity|]. now rewrite IH.
Qed.

Lemma iter_body_mag (n : nat) (s : loop_state) :
  st_mag_sq (Nat.iter (S n) step s) = complex_mag_squared (orbit v c (S n) (st_z s)).
Proof.
  simpl. now rewrite iter_body_z.
Qed.

(** With more fuel than iterations left, the loop leaves through its
    guard after some number [n] of passes through the body. *)
Lemma while_loop_exit (fuel : nat) (s : loop_state) :
  (Z.to_nat (max_iter - st_iter s) < fuel)%nat ->
  exists n : nat,
    while_loop fuel cond step s = Some (Nat.iter n step s)
    /\ cond (Nat.iter n step s) = false
    /\ (forall k : nat, (k < n)%nat -> cond (Nat.iter k step s) = true)
    /\ (Z.of_nat n <= Z.max 0 (max_iter - st_iter s)).
Proof.
  revert s. induction fuel as [|fuel IH]; intros s Hf; [lia|].
  simpl. destruct (cond s) eqn:Hc.
  - assert (Hlt : st_iter s < max_iter).
    { unfold cond, loop_cond in Hc. apply andb_true_iff in Hc as [Hc _]. lia. }
    destruct (IH (step s)) as (n & Hrun & Hstop & Hbefore & Hle).
    { unfold step, body; simpl. lia. }
    exists (S n). rewrite Hrun. simpl. rewrite <- !iter_body_comm.
    repeat split; auto.
    + intros [|k] Hk; simpl; [exact Hc|].
      rewrite <- iter_body_comm. apply Hbefore. lia.
    + revert Hle. unfold step, body; simpl. lia.
  - exists O. simpl. repeat split; auto; [intros; lia | lia].
Qed.
End Loop.

(** The loop of every kernel terminates within its fuel. *)
Lemma run_loop_total (v : variant) (z0 c : float2) (max_iter : Z) :
  exists n : nat,
    run_loop v z0 c max_iter = Some (Nat.iter n (body v c) (init_state z0))
    /\ loop_cond max_iter (Nat.iter n (body v c) (init_state z0)) = false
    /\ (forall k : nat, (k < n)%nat ->
          loop_cond max_iter (Nat.iter k (body v c) (init_state z0)) = true)
    /\ Z.of_nat n <= Z.max 0 max_iter.
Proof.
  unfold run_loop.
  destruct (while_loop_exit v c max_iter (escape_fuel max_iter) (init_state z0))
    as (n & H1 & H2 & H3 & H4).
  { unfold escape_fuel, init_state; simpl. lia. }
  exists n. repeat split; auto.
  revert H4. unfold init_state; simpl. lia.
Qed.

Lemma escape_time_run (v : variant) (z0 c : float2) (max_iter : Z) :
  exists n : nat,
    run_loop v z0 c max_iter = Some (Nat.iter n (body v c) (init_state z0))
    /\ escape_time v z0 c max_iter
       = mk_result (Z.of_nat n) (st_mag_sq (Nat.iter n (body v c) (init_state z0)))
    /\ loop_cond max_iter (Nat.iter n (body v c) (init_state z0)) = false
    /\ (forall k : nat, (k < n)%nat ->
          loop_cond max_iter (Nat.iter k (body v c) (init_state z0)) = true)
    /\ Z.of_nat n <= Z.max 0 max_iter.
Proof.
  destruct (run_loop_total v z0 c max_iter) as (n & H1 & H2 & H3 & H4).
  exists n. repeat split; auto.
  unfold escape_time. rewrite H1. unfold result_of.
  now rewrite iter_body_iter.
Qed.

(** The guard tests the iteration count first: at [iter == max_iter] the
    loop stops whatever the magnitude is, and below it the magnitude test
    alone decides. *)
Lemma loop_cond_order (max_iter : Z) (s : loop_state) :
  (st_iter s = max_iter -> loop_cond max_iter s = false)
  /\ (st_iter s < max_iter -> loop_cond max_iter s = F32.ltb (st_mag_sq s) sixteen_f).
Proof.
  unfold loop_cond. split; intros Hs.
  - replace (st_iter s <? max_iter) with false by (symmetry; apply Z.ltb_ge; lia).
    reflexivity.
  - replace (st_iter s <? max_iter) with true by (symmetry; apply Z.ltb_lt; lia).
    reflexivity.
Qed.

(** C1, as amended.  For every variant, starting point and constant the
    evaluator terminates: it runs the transition [n <= max_iter] times and
    returns [iterations = n] in [0, max_iter] with the magnitude of the
    [n]-th iterate.  Before each of these transitions the guard held (the
    count was below [max_iter] and the tracked magnitude below 16).  At
    the end the count test comes first: [n = max_iter] ends the loop
    whatever the magnitude; otherwise [n < max_iter] and the comparison
    [mag_sq < 16.0f] is false, that is, the magnitude is at least 16 or is
    not a number. *)
Theorem escape_time_bounded (v : variant) (z0 c : float2) (max_iter : Z) :
  0 <= max_iter ->
  exists n : nat,
    let s := Nat.iter n (body v c) (init_state z0) in
    let r := escape_time v z0 c max_iter in
    run_loop v z0 c max_iter = Some s
    /\ r = result_of s
    /\ iterations r = Z.of_nat n
    /\ st_z s = orbit v c n z0
    /\ 0 <= iterations r <= max_iter
    /\ (forall k : nat, (k < n)%nat ->
          let sk := Nat.iter k (body v c) (init_state z0) in
          st_iter sk < max_iter /\ F32.ltb (st_mag_sq sk) sixteen_f = true)
    /\ (forall s' : loop_state,
          (st_iter s' = max_iter -> loop_cond max_iter s' = false)
          /\ (st_iter s' < max_iter ->
              loop_cond max_iter s' = F32.ltb (st_mag_sq s') sixteen_f))
    /\ (iterations r < max_iter ->
          F32.ltb (final_magnitude_sq r) sixteen_f = false
          /\ (is_nan (final_magnitude_sq r) = true
              \/ F32.leb sixteen_f (final_magnitude_sq r) = true)).
Proof.
  intros Hmax.
  destruct (escape_time_run v z0 c max_iter) as (n & H1 & H2 & H3 & H4 & H5).
  exists n. cbv zeta. rewrite H2. cbn [iterations final_magnitude_sq].
  assert (Hit : st_iter (Nat.iter n (body v c) (init_state z0)) = Z.of_nat n).
  { rewrite iter_body_iter. cbn [init_state st_iter]. lia. }
  split; [exact H1|].
  split; [unfold result_of; now rewrite Hit|].
  split; [reflexivity|].
  split; [now rewrite iter_body_z|].
  split; [lia|].
  split.
  { intros k Hk. specialize (H4 k Hk). unfold loop_cond in H4.
    apply andb_true_iff in H4 as [Hlt Hmag]. split; [lia | exact Hmag]. }
  split; [intros s'; apply loop_cond_order|].
  intros Hesc.
  destruct (loop_cond_order max_iter (Nat.iter n (body v c) (init_state z0))) as [_ Ho].
  rewrite Ho in H3 by lia.
  split; [exact H3|].
  destruct (not_ltb_leb _ _ H3) as [Hn|[Hn|Hn]]; auto.
  vm_compute in Hn. discriminate.
Qed.

Lemma escape_time_bounded_witness :
  0 <= 5
  /\ exists n : nat,
       iterations (escape_time Mandelbrot (make_float2 zero_f zero_f)
                     (make_float2 four_f zero_f) 5) = Z.of_nat n
       /\ 0 <= Z.of_nat n <= 5.
Proof.
  split; [lia|].
  destruct (escape_time_bounded Mandelbrot (make_float2 zero_f zero_f)
              (make_float2 four_f zero_f) 5 ltac:(lia))
    as (n & _ & _ & Hn & _ & Hb & _).
  exists n. rewrite <- Hn. split; [reflexivity | exact Hb].
Defined.

(** The two numbers used below are numbers of their formats, and the
    second is a positive zoom. *)
Example huge_and_tiny :
  F32.valid huge_f /\ valid_binary F64.prec F64.emax tiny_d = true
  /\ SFltb zero_d tiny_d = true.
Proof. repeat split; reflexivity. Qed.

(** C1 as stated fails on the Julia loop.  Started at (2^100, 2^100), the
    first transition computes infinity minus infinity: the loop stops
    after one step with a magnitude that is not a number, and
    [16.0f <= mag_sq] is false although [iterations < max_iter].  The same
    happens on the starting point that [julia_kernel] computes for pixel
    (0, 0) at zoom 2^-140, which narrows to minus infinity in both
    components. *)
Lemma escape_nan_counterexample :
  let c := make_float2 (narrow (F64.opp (F64.lit 7 10))) (narrow (F64.lit 27015 100000)) in
  let r1 := escape_time Julia (make_float2 huge_f huge_f) c MAX_ITER in
  let z0 := to_float2 (julia_plane WIDTH HEIGHT tiny_d 0 0) in
  let r2 := escape_time Julia z0 c MAX_ITER in
  (iterations r1 = 1 /\ iterations r1 < MAX_ITER
   /\ final_magnitude_sq r1 = S754_nan
   /\ F32.leb sixteen_f (final_magnitude_sq r1) = false)
  /\ (z0 = make_float2 (S754_infinity true) (S754_infinity true)
      /\ iterations r2 = 1 /\ iterations r2 < MAX_ITER
      /\ final_magnitude_sq r2 = S754_nan
      /\ F32.leb sixteen_f (final_magnitude_sq r2) = false).
Proof.
  vm_compute. repeat split; reflexivity.
Qed.

(** C10, as amended.  With [max_iter >= 1] every variant reports at least
    one iteration from every starting point: the tracked magnitude starts
    at [0.0f], below the bailout, so the first transition is always taken
    and the magnitude of [z0] itself is never tested.  The count is
    exactly 1 if and only if the cap is 1 or the first iterate fails the
    test [mag_sq < 16.0f]: a starting point outside the radius whose first
    iterate passes the test is iterated further. *)
Theorem escape_time_at_least_one (v : variant) (z0 c : float2) (max_iter : Z) :
  1 <= max_iter ->
  st_mag_sq (init_state z0) = zero_f
  /\ loop_cond max_iter (init_state z0) = true
  /\ 1 <= iterations (escape_time v z0 c max_iter)
  /\ (F32.ltb (complex_mag_squared (z_step v c z0)) sixteen_f = false ->
      iterations (escape_time v z0 c max_iter) = 1)
  /\ (max_iter = 1 -> iterations (escape_time v z0 c max_iter) = 1)
  /\ (iterations (escape_time v z0 c max_iter) = 1 ->
      max_iter = 1
      \/ F32.ltb (complex_mag_squared (z_step v c z0)) sixteen_f = false).
Proof.
  intros Hmax.
  assert (Hinit : loop_cond max_iter (init_state z0) = true).
  { unfold loop_cond, init_state; simpl.
    replace (0 <? max_iter) with true by (symmetry; apply Z.ltb_lt; lia).
    reflexivity. }
  split; [reflexivity|]. split; [exact Hinit|].
  destruct (escape_time_run v z0 c max_iter) as (n & _ & H2 & H3 & H4 & H5).
  rewrite H2; cbn [iterations]. destruct n as [|n]; [simpl in H3; congruence|].
  split; [lia|]. split; [|split].
  - intros Hout.
    destruct n as [|n]; [reflexivity|]. exfalso.
    specialize (H4 1%nat ltac:(lia)). unfold loop_cond in H4.
    apply andb_true_iff in H4 as [_ H4].
    change (st_mag_sq (Nat.iter 1 (body v c) (init_state z0)))
      with (complex_mag_squared (z_step v c z0)) in H4.
    congruence.
  - intros Hcap. lia.
  - intros Hone. assert (Hn : n = 0%nat) by lia. subst n.
    unfold loop_cond in H3.
    change (st_mag_sq (Nat.iter 1 (body v c) (init_state z0)))
      with (complex_mag_squared (z_step v c z0)) in H3.
    change (st_iter (Nat.iter 1 (body v c) (init_state z0))) with (0 + 1) in H3.
    apply andb_false_iff in H3 as [H3|H3]; [|now right].
    left. apply Z.ltb_ge in H3. lia.
Qed.

Lemma escape_time_at_least_one_witness :
  let z0 := make_float2 (F32.of_int 5) zero_f in
  let c := make_float2 (narrow (F64.opp (F64.lit 7 10))) (narrow (F64.lit 27015 100000)) in
  1 <= MAX_ITER
  /\ 1 <= iterations (escape_time Julia z0 c MAX_ITER)
  /\ F32.ltb (complex_mag_squared (z_step Julia c z0)) sixteen_f = false
  /\ iterations (escape_time Julia z0 c MAX_ITER) = 1.
Proof.
  intros z0 c.
  assert (Hm : 1 <= MAX_ITER) by (unfold MAX_ITER; lia).
  assert (Hout : F32.ltb (complex_mag_squared (z_step Julia c z0)) sixteen_f = false)
    by (vm_compute; reflexivity).
  destruct (escape_time_at_least_one Julia z0 c MAX_ITER Hm) as (_ & _ & Hge & Hone & _).
  split; [exact Hm|]. split; [exact Hge|]. split; [exact Hout|]. exact (Hone Hout).
Defined.

(** C10 as stated fails: the Julia starting point [z0 = 5] is outside the
    bailout radius ([|z0|^2 = 25 >= 16]), but with the constant [c = -25]
    its first iterate is 0, inside the radius, and the loop reports two
    iterations, not one. *)
Lemma julia_outside_radius_counterexample :
  let z0 := make_float2 (F32.of_int 5) zero_f in
  let c := make_float2 (F32.opp (F32.of_int 25)) zero_f in
  F32.leb sixteen_f (complex_mag_squared z0) = true
  /\ iterations (escape_time Julia z0 c MAX_ITER) = 2
  /\ iterations (escape_time Julia z0 c MAX_ITER) <> 1.
Proof.
  vm_compute. repeat split; try reflexivity. discriminate.
Qed.

(** A point whose magnitude reaches 16 exactly at the cap is reported as
    bounded: Mandelbrot at [c = 4] with [max_iter = 1]. *)
Example escape_at_cap_is_bounded :
  let r := escape_time Mandelbrot (make_float2 zero_f zero_f)
             (make_float2 four_f zero_f) 1 in
  iterations r = 1 /\ F32.leb sixteen_f (final_magnitude_sq r) = true
  /\ shade (H := echo_math) 1 r = mk_color 0 0 0.
Proof.
  vm_compute. repeat split; reflexivity.
Qed.

(** A Julia starting point outside the bailout radius, [z0 = 5] with
    [|z0|^2 = 25], under the constant of the third scene: one iteration is
    reported, not zero. *)
Example julia_outside_radius :
  let z0 := make_float2 (F32.of_int 5) zero_f in
  let c := make_float2 (narrow (F64.opp (F64.lit 7 10))) (narrow (F64.lit 27015 100000)) in
  F32.leb sixteen_f (complex_mag_squared z0) = true
  /\ iterations (escape_time Julia z0 c MAX_ITER) = 1.
Proof.
  vm_compute. split; reflexivity.
Qed.

(** ** The plane mapper *)

(** C2, as amended.  For Mandelbrot and Burning Ship the kernels compute,
    in binary64, [re = center_x + (x - width/2) * scale] and
    [im = center_y +- (y - height/2) * scale] with
    [scale = 4.0 / (zoom * min(width, height))], minus for Burning Ship.
    The Julia kernel takes no centre: it computes [(x - width/2) * scale]
    and [(y - height/2) * scale].  In each kernel both numbers are
    narrowed to binary32 only when the [float2] that enters the loop is
    built. *)
Theorem plane_map_formula `{DeviceMath} (vw : View) (width height x y max_iter : Z) :
  let scale := F64.div four_d (F64.mul (zoom vw) (F64.of_int (Z.min width height))) in
  let dx := F64.mul (F64.sub (F64.of_int x) (F64.div (F64.of_int width) two_d)) scale in
  let dy := F64.mul (F64.sub (F64.of_int y) (F64.div (F64.of_int height) two_d)) scale in
  let origin := make_float2 zero_f zero_f in
  plane_map Mandelbrot vw width height x y = spec_plane_map Mandelbrot vw width height x y
  /\ plane_map BurningShip vw width height x y
     = spec_plane_map BurningShip vw width height x y
  /\ plane_map Mandelbrot vw width height x y
     = (F64.add (center_x vw) dx, F64.add (center_y vw) dy)
  /\ plane_map BurningShip vw width height x y
     = (F64.add (center_x vw) dx, F64.sub (center_y vw) dy)
  /\ plane_map Julia vw width height x y = (dx, dy)
  /\ mandelbrot_pixel max_iter width height (center_x vw) (center_y vw) (zoom vw) x y
     = shade max_iter
         (escape_time Mandelbrot origin
            (make_float2 (narrow (F64.add (center_x vw) dx))
                         (narrow (F64.add (center_y vw) dy))) max_iter)
  /\ burning_ship_pixel max_iter width height (center_x vw) (center_y vw) (zoom vw) x y
     = shade max_iter
         (escape_time BurningShip origin
            (make_float2 (narrow (F64.add (center_x vw) dx))
                         (narrow (F64.sub (center_y vw) dy))) max_iter)
  /\ forall julia_real julia_imag : spec_float,
       julia_pixel max_iter width height julia_real julia_imag (zoom vw) x y
       = shade max_iter
           (escape_time Julia (make_float2 (narrow dx) (narrow dy))
              (make_float2 (narrow julia_real) (narrow julia_imag)) max_iter).
Proof.
  repeat split; reflexivity.
Qed.

(** C2 as stated fails for the Julia kernel: with the view centred at
    (1, 0) and zoom 1, pixel (0, 0) of the 1920 x 1080 image is mapped
    without the centre, so the real part differs from the stated formula. *)
Lemma julia_center_counterexample :
  let vw := mk_view (F64.of_int 1) zero_d (F64.of_int 1) in
  plane_map Julia vw WIDTH HEIGHT 0 0 <> spec_plane_map Julia vw WIDTH HEIGHT 0 0.
Proof.
  vm_compute. discriminate.
Qed.

(** ** The colour mapper *)

Lemma PI_lower : (314154 / 100000 < PI)%R.
Proof.
  pose proof (PI_2_3_7_ineq 1) as [Hlow _].
  unfold sum_f_R0, tg_alt, PI_2_3_7_tg, Ratan_seq in Hlow; simpl in Hlow. lra.
Qed.

Lemma phase_g_value : phase_g = S754_finite false 8782873 (-22).
Proof. vm_compute. reflexivity. Qed.

Lemma phase_b_value : phase_b = S754_finite false 8782873 (-21).
Proof. vm_compute. reflexivity. Qed.

Section ColourFacts.
Context `{DeviceMath}.

Lemma uchar_of_float_range (x : spec_float) : 0 <= uchar_of_float x <= 255.
Proof.
  unfold uchar_of_float.
  destruct (trunc_Z x) as [n|].
  - destruct ((0 <=? n) && (n <=? 255)) eqn:Hn.
    + apply andb_true_iff in Hn as [H0 H1]. lia.
    + pose proof (Z.mod_pos_bound (cvt_out_of_range x) 256). lia.
  - pose proof (Z.mod_pos_bound (cvt_out_of_range x) 256). lia.
Qed.

Lemma get_color_range (max_iter iter : Z) (sm : spec_float) :
  let col := get_color max_iter iter sm in
  0 <= red col <= 255 /\ 0 <= green col <= 255 /\ 0 <= blue col <= 255.
Proof.
  unfold get_color. destruct (iter =? max_iter); simpl; [lia|].
  unfold channel. repeat split; apply uchar_of_float_range.
Qed.

Lemma shade_black (max_iter : Z) (res : escape_result) :
  iterations res = max_iter -> shade max_iter res = mk_color 0 0 0.
Proof.
  intros Hi. unfold shade, get_color. now rewrite Hi, Z.eqb_refl.
Qed.

(** C3, as amended.  When [iterations = max_iter] the colour is black.
    Below [max_iter] each channel is the conversion to [unsigned char]
    (truncation) of [255 * (0.5 + 0.5 * sinf(...)) * (1 - expf(-0.1 *
    iterations))], where the argument of [sinf] is
    [t = (iterations + smooth) * 0.05] for red, [t + 2.094f] for green
    and [t + 4.188f] for blue, with
    [smooth = logf(logf(sqrtf(final_magnitude_sq))) / logf(2)].  The two
    phases are the binary32 numbers nearest to 2.094 and 4.188, within
    2^-22 of them.  Every channel lies in [0, 255]. *)
Theorem shade_formula (max_iter : Z) (res : escape_result) :
  (iterations res = max_iter -> shade max_iter res = mk_color 0 0 0)
  /\ (iterations res < max_iter ->
        let n := F32.of_int (iterations res) in
        let smooth :=
          F32.div (logf (logf (F32.sqrt (final_magnitude_sq res)))) (logf two_f) in
        let t := F32.mul (F32.add n smooth) rate_f in
        let brightness := F32.sub one_f (expf (F32.mul (F32.opp decay_f) n)) in
        let chan (s : spec_float) :=
          uchar_of_float
            (F32.mul (F32.mul (F32.of_int 255) (F32.add half_f (F32.mul half_f s)))
               brightness) in
        shade max_iter res
        = mk_color (chan (sinf t)) (chan (sinf (F32.add t phase_g)))
            (chan (sinf (F32.add t phase_b))))
  /\ (forall (x : spec_float) (n : Z),
        trunc_Z x = Some n -> 0 <= n <= 255 -> uchar_of_float x = n)
  /\ (Rabs (SF2R phase_g - 2094 / 1000) <= / 4194304
      /\ Rabs (SF2R phase_b - 4188 / 1000) <= / 4194304)%R
  /\ (let col := shade max_iter res in
      0 <= red col <= 255 /\ 0 <= green col <= 255 /\ 0 <= blue col <= 255).
Proof.
  split; [|split; [|split; [|split]]].
  - apply shade_black.
  - intros Hi. cbv zeta. unfold shade, get_color, smooth_iter_of.
    replace (iterations res =? max_iter) with false by (symmetry; apply Z.eqb_neq; lia).
    replace (iterations res <? max_iter) with true by (symmetry; apply Z.ltb_lt; lia).
    reflexivity.
  - intros x n Hx Hn. unfold uchar_of_float. rewrite Hx.
    replace ((0 <=? n) && (n <=? 255)) with true; [reflexivity|].
    symmetry. apply andb_true_iff. split; apply Z.leb_le; lia.
  - rewrite phase_g_value, phase_b_value. unfold SF2R.
    change (2 ^ 22)%Z with 4194304%Z. change (2 ^ 21)%Z with 2097152%Z.
    split; apply Rabs_le; lra.
  - apply get_color_range.
Qed.
End ColourFacts.

Lemma shade_formula_witness :
  3 < MAX_ITER /\
  shade (H := echo_math) MAX_ITER (mk_result 3 sixteen_f)
  = mk_color 207 0 0.
Proof.
  split; [unfold MAX_ITER; lia|].
  destruct (shade_formula (H := echo_math) MAX_ITER (mk_result 3 sixteen_f))
    as (_ & Hf & _).
  rewrite Hf by (simpl; unfold MAX_ITER; lia).
  vm_compute. reflexivity.
Defined.

(** C3 as stated fails on the phases: the green and blue phases of the
    program are the constants [2.094f] and [4.188f], which lie below
    2 pi / 3 and 4 pi / 3 by more than 3/10000 and 7/10000. *)
Lemma phase_counterexample :
  (SF2R phase_g + 3 / 10000 < 2 * PI / 3
   /\ SF2R phase_b + 7 / 10000 < 4 * PI / 3
   /\ SF2R phase_g <> 2 * PI / 3 /\ SF2R phase_b <> 4 * PI / 3)%R.
Proof.
  pose proof PI_lower as Hpi.
  rewrite phase_g_value, phase_b_value. unfold SF2R.
  change (2 ^ 22)%Z with 4194304%Z. change (2 ^ 21)%Z with 2097152%Z.
  repeat split; lra.
Qed.

(** ** The centre of the classic Mandelbrot view *)

(** When every iterate after the start has magnitude below the bailout,
    the loop runs to the cap. *)
Lemma bounded_orbit_runs_to_cap (v : variant) (z0 c : float2) (max_iter : Z) :
  0 <= max_iter ->
  (forall n : nat,
      F32.ltb (complex_mag_squared (orbit v c (S n) z0)) sixteen_f = true) ->
  iterations (escape_time v z0 c max_iter) = max_iter.
Proof.
  intros Hmax Hb.
  destruct (escape_time_run v z0 c max_iter) as (n & _ & H2 & H3 & _ & H5).
  rewrite H2; simpl.
  destruct (Z.eq_dec (Z.of_nat n) max_iter) as [|Hne]; [assumption|].
  exfalso.
  destruct (loop_cond_order max_iter (Nat.iter n (body v c) (init_state z0))) as [_ Ho].
  rewrite Ho in H3 by (rewrite iter_body_iter; simpl; lia).
  destruct n as [|n]; [vm_compute in H3; discriminate|].
  rewrite iter_body_mag in H3. simpl st_z in H3. rewrite Hb in H3. discriminate.
Qed.

Section ClassicCentre.
Local Abbreviation c := (make_float2 minus_half_f zero_f).
Local Abbreviation origin := (make_float2 zero_f zero_f).
Local Abbreviation za := (orbit Mandelbrot c 60 origin).
Local Abbreviation zb := (orbit Mandelbrot c 61 origin).

(** In binary32 the iterates of [z*z - 0.5] from 0 enter a cycle of two
    neighbouring numbers near -0.366. *)
Lemma centre_cycle : mandel_step c za = zb /\ mandel_step c zb = za.
Proof. vm_compute. split; reflexivity. Qed.

Lemma centre_orbit_tail (k : nat) :
  orbit Mandelbrot c (60 + 2 * k) origin = za
  /\ orbit Mandelbrot c (61 + 2 * k) origin = zb.
Proof.
  induction k as [|k [IHa IHb]]; [split; reflexivity|].
  replace (60 + 2 * S k)%nat with (S (61 + 2 * k)) by lia.
  replace (61 + 2 * S k)%nat with (S (S (61 + 2 * k))) by lia.
  cbn [orbit]. rewrite IHb. unfold z_step.
  destruct centre_cycle as [Hab Hba]. rewrite Hba, Hab. split; reflexivity.
Qed.

Lemma centre_orbit_head :
  forallb (fun n => F32.ltb (complex_mag_squared (orbit Mandelbrot c n origin)) sixteen_f)
    (seq 0 62) = true.
Proof. vm_compute. reflexivity. Qed.

Lemma centre_orbit_bounded (n : nat) :
  F32.ltb (complex_mag_squared (orbit Mandelbrot c n origin)) sixteen_f = true.
Proof.
  destruct (Nat.lt_ge_cases n 62) as [Hlt|Hge].
  - pose proof centre_orbit_head as Hh.
    rewrite forallb_forall in Hh. apply Hh. apply in_seq. lia.
  - destruct (Nat.Even_or_Odd n) as [[k Hk]|[k Hk]].
    + destruct (centre_orbit_tail (k - 30)) as [Ha _].
      replace (60 + 2 * (k - 30))%nat with n in Ha by lia.
      rewrite Ha. vm_compute. reflexivity.
    + destruct (centre_orbit_tail (k - 30)) as [_ Hb].
      replace (61 + 2 * (k - 30))%nat with n in Hb by lia.
      rewrite Hb. vm_compute. reflexivity.
Qed.
End ClassicCentre.

(** C4.  In the classic view (centre (-0.5, 0), zoom 1) of the
    1920 x 1080 image, the centre pixel (960, 540) is mapped exactly to
    -0.5 + 0i, in binary64 and after narrowing; the loop on that point runs
    to the cap for every [max_iter >= 0]; and the pixel is black. *)
Theorem classic_centre_black `{DeviceMath} (max_iter : Z) :
  0 <= max_iter ->
  let vw := mk_view (F64.opp (F64.lit 1 2)) zero_d (F64.of_int 1) in
  let p := plane_map Mandelbrot vw WIDTH HEIGHT (WIDTH / 2) (HEIGHT / 2) in
  p = (minus_half_d, zero_d)
  /\ to_float2 p = make_float2 minus_half_f zero_f
  /\ iterations (escape_time Mandelbrot (make_float2 zero_f zero_f) (to_float2 p) max_iter)
     = max_iter
  /\ mandelbrot_pixel max_iter WIDTH HEIGHT (center_x vw) (center_y vw) (zoom vw)
       (WIDTH / 2) (HEIGHT / 2) = mk_color 0 0 0.
Proof.
  intros Hmax vw p.
  assert (Hp : p = (minus_half_d, zero_d)) by (vm_compute; reflexivity).
  assert (Hf : to_float2 p = make_float2 minus_half_f zero_f)
    by (rewrite Hp; vm_compute; reflexivity).
  assert (Hit : iterations (escape_time Mandelbrot (make_float2 zero_f zero_f)
                              (to_float2 p) max_iter) = max_iter).
  { rewrite Hf. apply bounded_orbit_runs_to_cap; [assumption|].
    intros n. apply centre_orbit_bounded. }
  repeat split; auto.
  unfold mandelbrot_pixel. apply shade_black.
  change (to_float2 (mandelbrot_plane WIDTH HEIGHT (center_x vw) (center_y vw) (zoom vw)
                       (WIDTH / 2) (HEIGHT / 2))) with (to_float2 p).
  exact Hit.
Qed.

Lemma classic_centre_black_witness :
  0 <= MAX_ITER
  /\ mandelbrot_pixel (H := echo_math) MAX_ITER WIDTH HEIGHT
       (F64.opp (F64.lit 1 2)) zero_d (F64.of_int 1) 960 540 = mk_color 0 0 0.
Proof.
  split; [unfold MAX_ITER; lia|].
  apply (classic_centre_black (H := echo_math) MAX_ITER). unfold MAX_ITER; lia.
Defined.

(** ** The image writer *)

Lemma read_uint_bytes (u : Decimal.uint) (rest : list byte) :
  match rest with
  | [] => True
  | b :: _ => digit_of_byte b = None
  end ->
  read_uint (uint_bytes u ++ rest) = (u, rest).
Proof.
  intros Hrest.
  induction u as [|u IH|u IH|u IH|u IH|u IH|u IH|u IH|u IH|u IH|u IH]; simpl;
    try (rewrite IH; reflexivity).
  destruct rest as [|b rest]; simpl; [reflexivity|]. now rewrite Hrest.
Qed.

Lemma dec_bytes_nonneg (n : Z) :
  0 <= n ->
  exists u : Decimal.uint,
    dec_bytes n = uint_bytes u /\ u <> Decimal.Nil /\ Z.of_uint u = n.
Proof.
  intros Hn. unfold dec_bytes. destruct n as [|p|p]; [| |lia]; simpl.
  - exists (Decimal.D0 Decimal.Nil). repeat split; discriminate.
  - exists (Pos.to_uint p). repeat split.
    + apply DecimalPos.Unsigned.to_uint_nonnil.
    + unfold Z.of_uint. now rewrite DecimalPos.Unsigned.of_to.
Qed.

Lemma read_number_dec (n : Z) (rest : list byte) :
  0 <= n ->
  match rest with
  | [] => True
  | b :: _ => digit_of_byte b = None
  end ->
  read_number (dec_bytes n ++ rest) = Some (n, rest).
Proof.
  intros Hn Hrest.
  destruct (dec_bytes_nonneg n Hn) as (u & Hd & Hnil & Hval).
  unfold read_number. rewrite Hd, (read_uint_bytes u rest Hrest).
  destruct u; try congruence; now rewrite Hval.
Qed.

Lemma parse_ppm_header (W H : Z) (payload : list byte) :
  0 <= W -> 0 <= H ->
  parse_ppm (ppm_header W H ++ payload) = Some (mk_ppm W H 255 payload).
Proof.
  intros HW HH.
  assert (Hshape : ppm_header W H ++ payload
                   = x50 :: x36 :: x0a :: dec_bytes W
                       ++ x20 :: dec_bytes H ++ x0a :: x32 :: x35 :: x35 :: x0a :: payload).
  { unfold ppm_header. repeat (rewrite <- app_assoc; cbn [app]). reflexivity. }
  rewrite Hshape. unfold parse_ppm.
  cbn [skip_space is_space mbind option_bind].
  rewrite (read_number_dec W _ HW) by reflexivity.
  cbn [skip_space is_space mbind option_bind].
  rewrite (read_number_dec H _ HH) by reflexivity.
  reflexivity.
Qed.

Lemma color_bytes_length (image : list Color) :
  length (flat_map color_bytes image) = (3 * length image)%nat.
Proof.
  induction image as [|c image IH]; simpl; [reflexivity|]. rewrite IH. lia.
Qed.

Lemma color_bytes_lookup (image : list Color) (i : nat) (c : Color) :
  image !! i = Some c ->
  flat_map color_bytes image !! (3 * i)%nat = Some (byte_of_uchar (red c))
  /\ flat_map color_bytes image !! (3 * i + 1)%nat = Some (byte_of_uchar (green c))
  /\ flat_map color_bytes image !! (3 * i + 2)%nat = Some (byte_of_uchar (blue c)).
Proof.
  revert i. induction image as [|c0 image IH]; intros i Hi; [discriminate|].
  destruct i as [|i].
  - injection Hi as ->. repeat split; reflexivity.
  - replace (3 * S i)%nat with (S (S (S (3 * i)))) by lia.
    simpl in Hi. destruct (IH i Hi) as (Hr & Hg & Hb).
    repeat split; simpl; assumption.
Qed.

Lemma fwrite_all (image : list Color) (count : Z) :
  length image = Z.to_nat count ->
  fwrite_colors image count = flat_map color_bytes image.
Proof.
  intros Hlen. unfold fwrite_colors. rewrite <- Hlen. now rewrite firstn_all.
Qed.

(** C7.  For a pixel buffer of [W * H] colours, what [save_ppm] writes is
    the header [P6], newline, [W] in decimal, space, [H] in decimal,
    newline, [255], newline, followed by exactly [W * H * 3] bytes: the
    red, green and blue bytes of pixel [(x, y)] at offsets
    [3 * (y * W + x)], [+ 1] and [+ 2].  Reading the file back gives [W],
    [H], 255 and that payload. *)
Theorem ppm_roundtrip (image : list Color) (W H : Z) :
  0 <= W -> 0 <= H -> length image = Z.to_nat (W * H) ->
  let payload := flat_map color_bytes image in
  ppm_bytes image W H
  = [x50; x36; x0a] ++ dec_bytes W ++ [x20] ++ dec_bytes H
      ++ [x0a; x32; x35; x35; x0a] ++ payload
  /\ Z.of_nat (length payload) = W * H * 3
  /\ (forall (x y : Z) (c : Color),
        0 <= x < W -> 0 <= y < H ->
        image !! Z.to_nat (y * W + x) = Some c ->
        payload !! Z.to_nat (3 * (y * W + x)) = Some (byte_of_uchar (red c))
        /\ payload !! Z.to_nat (3 * (y * W + x) + 1) = Some (byte_of_uchar (green c))
        /\ payload !! Z.to_nat (3 * (y * W + x) + 2) = Some (byte_of_uchar (blue c)))
  /\ parse_ppm (ppm_bytes image W H) = Some (mk_ppm W H 255 payload)
  /\ (forall (filename : string) (w : world),
        files (save_ppm (fun _ => true) filename image W H w) !! filename
        = Some (ppm_bytes image W H)).
Proof.
  intros HW HH Hlen payload.
  assert (Hb : ppm_bytes image W H = ppm_header W H ++ payload).
  { unfold ppm_bytes. now rewrite fwrite_all. }
  split; [|split; [|split; [|split]]].
  - rewrite Hb. unfold ppm_header. now rewrite <- !app_assoc.
  - unfold payload. rewrite color_bytes_length, Hlen. lia.
  - intros x y c Hx Hy Hc.
    assert (0 <= y * W + x) by nia.
    destruct (color_bytes_lookup image _ c Hc) as (Hr & Hg & Hbl).
    replace (Z.to_nat (3 * (y * W + x))) with (3 * Z.to_nat (y * W + x))%nat by lia.
    replace (Z.to_nat (3 * (y * W + x) + 1)) with (3 * Z.to_nat (y * W + x) + 1)%nat by lia.
    replace (Z.to_nat (3 * (y * W + x) + 2)) with (3 * Z.to_nat (y * W + x) + 2)%nat by lia.
    auto.
  - rewrite Hb. now apply parse_ppm_header.
  - intros filename w. unfold save_ppm, printf; simpl. apply lookup_insert_eq.
Qed.

Lemma ppm_roundtrip_witness :
  0 <= 2 /\ 0 <= 1
  /\ parse_ppm (ppm_bytes [mk_color 255 0 7; mk_color 1 2 3] 2 1)
     = Some (mk_ppm 2 1 255 [xff; x00; x07; x01; x02; x03]).
Proof.
  split; [lia|]. split; [lia|].
  apply (ppm_roundtrip [mk_color 255 0 7; mk_color 1 2 3] 2 1); [lia | lia | reflexivity].
Defined.

(** The header of the program's images, byte for byte. *)
Example header_1920_1080 :
  string_of_list_byte (ppm_header WIDTH HEIGHT)
  = ("P6" +:+ nl +:+ "1920 1080" +:+ nl +:+ "255" +:+ nl)%string.
Proof. vm_compute. reflexivity. Qed.

(** ** The grid executor *)

Section Grid.
Context `{DeviceMath}.

Lemma kernel_store (sc : Scene) (cfg : launch_cfg) (image : list Color) (t : thread) :
  kernel sc cfg image t
  = store_pixel (pixel sc) cfg image (sc_width sc) (sc_height sc) t.
Proof.
  unfold kernel, pixel. destruct (sc_fractal sc); reflexivity.
Qed.

Lemma in_range (n i : Z) : In i (range n) <-> 0 <= i < n.
Proof.
  unfold range. rewrite in_map_iff. split.
  - intros (k & <- & Hk). apply in_seq in Hk. lia.
  - intros Hi. exists (Z.to_nat i). split; [lia|]. apply in_seq. lia.
Qed.

Lemma in_grid_threads (cfg : launch_cfg) (t : thread) :
  In t (grid_threads cfg)
  <-> (0 <= blockIdx_x t < gridDim_x cfg /\ 0 <= blockIdx_y t < gridDim_y cfg
       /\ 0 <= threadIdx_x t < blockDim_x cfg /\ 0 <= threadIdx_y t < blockDim_y cfg).
Proof.
  unfold grid_threads. split.
  - intros Hin.
    apply in_flat_map in Hin as (by_ & Hby & Hin).
    apply in_flat_map in Hin as (bx & Hbx & Hin).
    apply in_flat_map in Hin as (ty & Hty & Hin).
    apply in_map_iff in Hin as (tx & <- & Htx).
    rewrite in_range in Hby, Hbx, Hty, Htx. simpl. lia.
  - intros (Hbx & Hby & Htx & Hty). destruct t as [bx by_ tx ty]; simpl in *.
    apply in_flat_map. exists by_. split; [now apply in_range|].
    apply in_flat_map. exists bx. split; [now apply in_range|].
    apply in_flat_map. exists ty. split; [now apply in_range|].
    apply in_map_iff. exists tx. split; [reflexivity | now apply in_range].
Qed.

(** The grid of [main] covers every pixel of the image. *)
Lemma grid_covers (width height x y : Z) :
  0 <= x < width -> 0 <= y < height ->
  exists t : thread,
    In t (grid_threads (cfg_of width height))
    /\ thread_x (cfg_of width height) t = x /\ thread_y (cfg_of width height) t = y.
Proof.
  intros Hx Hy. exists (mk_thread (x / 16) (y / 16) (x mod 16) (y mod 16)).
  split; [|split].
  - apply in_grid_threads; simpl.
    pose proof (Z.mod_pos_bound x 16). pose proof (Z.mod_pos_bound y 16).
    assert (x / 16 < (width + 16 - 1) / 16).
    { apply Z.div_lt_upper_bound; [lia|].
      pose proof (Z.mul_div_le x 16). pose proof (Z.mod_pos_bound (width + 16 - 1) 16).
      pose proof (Z.div_mod (width + 16 - 1) 16). lia. }
    assert (y / 16 < (height + 16 - 1) / 16).
    { apply Z.div_lt_upper_bound; [lia|].
      pose proof (Z.mul_div_le y 16). pose proof (Z.mod_pos_bound (height + 16 - 1) 16).
      pose proof (Z.div_mod (height + 16 - 1) 16). lia. }
    pose proof (Z.div_pos x 16). pose proof (Z.div_pos y 16). lia.
  - unfold thread_x; simpl. pose proof (Z.div_mod x 16). lia.
  - unfold thread_y; simpl. pose proof (Z.div_mod y 16). lia.
Qed.

Lemma grid_nonneg (cfg : launch_cfg) (t : thread) :
  0 <= blockDim_x cfg -> 0 <= blockDim_y cfg ->
  In t (grid_threads cfg) -> 0 <= thread_x cfg t /\ 0 <= thread_y cfg t.
Proof.
  intros Hbx Hby Hin. apply in_grid_threads in Hin. unfold thread_x, thread_y. nia.
Qed.

Lemma index_of_pixel (width x y : Z) :
  0 <= x < width -> 0 <= y ->
  Z.of_nat (Z.to_nat (y * width + x)) mod width = x
  /\ Z.of_nat (Z.to_nat (y * width + x)) / width = y.
Proof.
  intros Hx Hy. rewrite Z2Nat.id by nia. split.
  - rewrite Z.add_comm, Z.mod_add by lia. apply Z.mod_small. lia.
  - rewrite Z.add_comm, Z.div_add by lia. rewrite Z.div_small by lia. lia.
Qed.

Section Launch.
Variables (pix : Z -> Z -> Color) (cfg : launch_cfg) (width height : Z).
Hypothesis width_nonneg : 0 <= width.
Hypothesis height_nonneg : 0 <= height.

Local Abbreviation k := (fun image t => store_pixel pix cfg image width height t).
Local Abbreviation value i := (pix (Z.of_nat i mod width) (Z.of_nat i / width)).

(** One thread leaves every slot as it was or sets it to the colour of
    its pixel. *)
Lemma store_pixel_slot (image : list Color) (t : thread) (i : nat) :
  0 <= thread_x cfg t -> 0 <= thread_y cfg t ->
  length (k image t) = length image
  /\ (k image t !! i = image !! i
      \/ k image t !! i = Some (value i)).
Proof.
  intros Hx Hy. unfold store_pixel.
  destruct ((thread_x cfg t >=? width) || (thread_y cfg t >=? height)) eqn:Hg.
  - auto.
  - apply orb_false_iff in Hg as [Hgx Hgy].
    split; [apply length_insert|].
    destruct (Nat.eq_dec i (Z.to_nat (thread_y cfg t * width + thread_x cfg t)))
      as [->|Hne].
    + destruct (Nat.lt_ge_cases (Z.to_nat (thread_y cfg t * width + thread_x cfg t))
                  (length image)) as [Hlt|Hge].
      * right. rewrite list_lookup_insert_eq by assumption.
        assert (Hxw : thread_x cfg t < width) by (rewrite Z.geb_leb in Hgx; apply Z.leb_gt in Hgx; lia).
        destruct (index_of_pixel width (thread_x cfg t) (thread_y cfg t)) as [-> ->];
          [lia | lia | reflexivity].
      * left. now rewrite list_insert_ge.
    + left. now rewrite list_lookup_insert_ne.
Qed.

Lemma launch_slots (sched : list thread) (image : list Color) (i : nat) :
  (forall t, In t sched -> 0 <= thread_x cfg t /\ 0 <= thread_y cfg t) ->
  length (launch k sched image) = length image
  /\ (launch k sched image !! i = image !! i
      \/ launch k sched image !! i = Some (value i)).
Proof.
  revert image. induction sched as [|t sched IH]; intros image Hpos; simpl; [auto|].
  destruct (Hpos t (or_introl eq_refl)) as [Hx Hy].
  destruct (store_pixel_slot image t i Hx Hy) as [Hlen Hslot].
  destruct (IH (k image t)) as [Hlen' Hslot'].
  { intros t' Ht'. apply Hpos. now right. }
  unfold launch in *. split; [congruence|].
  destruct Hslot' as [-> | ->]; auto.
Qed.

(** The slot of a pixel whose thread is in the schedule holds the colour
    of that pixel after the launch. *)
Lemma launch_written (sched : list thread) (image : list Color) (t : thread) :
  (forall t, In t sched -> 0 <= thread_x cfg t /\ 0 <= thread_y cfg t) ->
  In t sched ->
  thread_x cfg t < width -> thread_y cfg t < height ->
  (Z.to_nat (thread_y cfg t * width + thread_x cfg t) < length image)%nat ->
  launch k sched image !! Z.to_nat (thread_y cfg t * width + thread_x cfg t)
  = Some (pix (thread_x cfg t) (thread_y cfg t)).
Proof.
  revert image. induction sched as [|t0 sched IH]; intros image Hpos Hin Hx Hy Hlen;
    [destruct Hin|].
  assert (Hpos' : forall t', In t' sched -> 0 <= thread_x cfg t' /\ 0 <= thread_y cfg t').
  { intros t' Ht'. apply Hpos. now right. }
  destruct (Hpos t0 (or_introl eq_refl)) as [Hx0 Hy0].
  destruct (store_pixel_slot image t0 0 Hx0 Hy0) as [Hlen0 _].
  destruct (Hpos t Hin) as [Hxt Hyt].
  assert (Hval : pix (thread_x cfg t) (thread_y cfg t)
                 = value (Z.to_nat (thread_y cfg t * width + thread_x cfg t))).
  { destruct (index_of_pixel width (thread_x cfg t) (thread_y cfg t)) as [-> ->];
      [lia | lia | reflexivity]. }
  destruct Hin as [->|Hin].
  - simpl. change (fold_left k sched (k image t)) with (launch k sched (k image t)).
    destruct (launch_slots sched (k image t)
                (Z.to_nat (thread_y cfg t * width + thread_x cfg t)) Hpos')
      as [_ [Hsame|Hset]].
    + rewrite Hsame. unfold store_pixel.
      replace (thread_x cfg t >=? width) with false by (symmetry; rewrite Z.geb_leb; apply Z.leb_gt; lia).
      replace (thread_y cfg t >=? height) with false by (symmetry; rewrite Z.geb_leb; apply Z.leb_gt; lia).
      simpl. now rewrite list_lookup_insert_eq.
    + now rewrite Hset, Hval.
  - simpl. apply (IH (k image t0)); auto. now rewrite Hlen0.
Qed.
End Launch.

Lemma launch_ext (k1 k2 : list Color -> thread -> list Color) (sched : list thread)
    (image : list Color) :
  (forall img t, k1 img t = k2 img t) -> launch k1 sched image = launch k2 sched image.
Proof.
  intros Hk. revert image. unfold launch.
  induction sched as [|t sched IH]; intros image; simpl; [reflexivity|].
  now rewrite Hk, IH.
Qed.

Lemma image_of_lookup (sc : Scene) (i : nat) :
  (i < Z.to_nat (sc_width sc * sc_height sc))%nat ->
  image_of sc !! i
  = Some (pixel sc (Z.of_nat i mod sc_width sc) (Z.of_nat i / sc_width sc)).
Proof.
  intros Hi. unfold image_of.
  change (map ?f ?l) with (f <$> l). rewrite list_lookup_fmap.
  now rewrite lookup_seq_lt.
Qed.

Lemma image_of_length (sc : Scene) :
  length (image_of sc) = Z.to_nat (sc_width sc * sc_height sc).
Proof.
  unfold image_of. now rewrite length_map, length_seq.
Qed.

(** Whatever the order of the threads and the old contents of the buffer,
    a launch over the whole grid leaves the image of the scene. *)
Lemma render_image (sc : Scene) (sched : list thread) (buffer : list Color) :
  0 <= sc_width sc -> 0 <= sc_height sc ->
  Permutation sched (grid_threads (cfg_of (sc_width sc) (sc_height sc))) ->
  length buffer = Z.to_nat (sc_width sc * sc_height sc) ->
  render sc sched buffer = image_of sc.
Proof.
  intros Hw Hh Hperm Hlen.
  set (w := sc_width sc) in *. set (h := sc_height sc) in *.
  set (cfg := cfg_of w h) in *.
  unfold render. fold w h cfg.
  rewrite (launch_ext _ (fun image t => store_pixel (pixel sc) cfg image w h t))
    by (intros; apply kernel_store).
  assert (Hpos : forall t, In t sched -> 0 <= thread_x cfg t /\ 0 <= thread_y cfg t).
  { intros t Ht. apply grid_nonneg; [simpl; lia | simpl; lia |].
    now apply (Permutation_in _ Hperm). }
  apply list_eq. intros i.
  destruct (Nat.lt_ge_cases i (Z.to_nat (w * h))) as [Hlt|Hge].
  - rewrite image_of_lookup by assumption. fold w.
    assert (Hwpos : 0 < w) by nia.
    pose proof (Z.mod_pos_bound (Z.of_nat i) w Hwpos) as Hx.
    assert (Hy : 0 <= Z.of_nat i / w < h).
    { split; [apply Z.div_pos; lia|]. apply Z.div_lt_upper_bound; lia. }
    destruct (grid_covers w h _ _ Hx Hy) as (t & Hin & Htx & Hty). fold cfg in Hin, Htx, Hty.
    assert (Hi : Z.to_nat (thread_y cfg t * w + thread_x cfg t) = i).
    { rewrite Htx, Hty. pose proof (Z.div_mod (Z.of_nat i) w). lia. }
    rewrite <- Hi at 1. rewrite <- Htx, <- Hty.
    apply launch_written; auto.
    + now apply (Permutation_in _ (Permutation_sym Hperm)).
    + lia.
    + lia.
    + lia.
  - rewrite !lookup_ge_None_2; [reflexivity | |].
    + rewrite image_of_length. fold w h. lia.
    + destruct (launch_slots (pixel sc) cfg w h sched buffer i Hpos) as [-> _]. lia.
Qed.

(** C6.  Two runs of the grid executor on the same scene give the same
    pixel buffer and the same file contents, whatever order the device
    runs the threads in and whatever the buffers held before: the result
    is the image of the scene, each slot holding the colour that the
    per-pixel pipeline computes from the scene and the pixel's
    coordinates alone. *)
Theorem render_deterministic (sc : Scene) (sched1 sched2 : list thread)
    (buffer1 buffer2 : list Color) :
  0 <= sc_width sc -> 0 <= sc_height sc ->
  Permutation sched1 (grid_threads (cfg_of (sc_width sc) (sc_height sc))) ->
  Permutation sched2 (grid_threads (cfg_of (sc_width sc) (sc_height sc))) ->
  length buffer1 = Z.to_nat (sc_width sc * sc_height sc) ->
  length buffer2 = Z.to_nat (sc_width sc * sc_height sc) ->
  render sc sched1 buffer1 = render sc sched2 buffer2
  /\ ppm_bytes (render sc sched1 buffer1) (sc_width sc) (sc_height sc)
     = ppm_bytes (render sc sched2 buffer2) (sc_width sc) (sc_height sc)
  /\ (forall x y : Z,
        0 <= x < sc_width sc -> 0 <= y < sc_height sc ->
        render sc sched1 buffer1 !! Z.to_nat (y * sc_width sc + x) = Some (pixel sc x y)).
Proof.
  intros Hw Hh Hp1 Hp2 Hl1 Hl2.
  rewrite (render_image sc sched1 buffer1), (render_image sc sched2 buffer2) by assumption.
  repeat split.
  intros x y Hx Hy. rewrite image_of_lookup by nia.
  destruct (index_of_pixel (sc_width sc) x y) as [-> ->]; [lia | lia | reflexivity].
Qed.
End Grid.

Lemma render_deterministic_witness :
  let sc := mk_scene (FMandelbrot minus_half_d zero_d (F64.of_int 1)) 2 1 3 in
  let grid := grid_threads (cfg_of 2 1) in
  0 <= sc_width sc /\ 0 <= sc_height sc
  /\ Permutation (rev grid) grid
  /\ render (H := echo_math) sc grid [mk_color 1 2 3; mk_color 4 5 6]
     = render (H := echo_math) sc (rev grid) [mk_color 9 9 9; mk_color 0 0 0].
Proof.
  intros sc grid.
  split; [simpl; lia|]. split; [simpl; lia|].
  split; [apply Permutation_sym, Permutation_rev|].
  apply (render_deterministic (H := echo_math) sc grid (rev grid)).
  - simpl; lia.
  - simpl; lia.
  - apply Permutation_refl.
  - apply Permutation_sym, Permutation_rev.
  - reflexivity.
  - reflexivity.
Defined.

(** ** The driver and failures to open a file *)

Lemma save_ppm_failure (can_open : string -> bool) (filename : string)
    (image : list Color) (width height : Z) (w : world) :
  can_open filename = false ->
  save_ppm can_open filename image width height w
  = mk_world (files w)
      (console w ++ [("Error: Could not open file " +:+ filename +:+ nl)%string]).
Proof.
  intros Hco. unfold save_ppm. now rewrite Hco.
Qed.

Lemma save_ppm_other (can_open : string -> bool) (filename other : string)
    (image : list Color) (width height : Z) (w : world) :
  filename <> other ->
  files (save_ppm can_open filename image width height w) !! other = files w !! other.
Proof.
  intros Hne. unfold save_ppm. destruct (can_open filename); simpl; [|reflexivity].
  now apply lookup_insert_ne.
Qed.

Lemma save_ppm_same (can_open : string -> bool) (filename : string)
    (image : list Color) (width height : Z) (w : world) :
  files (save_ppm can_open filename image width height w) !! filename
  = if can_open filename then Some (ppm_bytes image width height)
    else files w !! filename.
Proof.
  unfold save_ppm. destruct (can_open filename); simpl; [|reflexivity].
  apply lookup_insert_eq.
Qed.

Lemma save_ppm_console (can_open : string -> bool) (filename : string)
    (image : list Color) (width height : Z) (w : world) :
  console (save_ppm can_open filename image width height w)
  = console w
      ++ [if can_open filename then ("Saved fractal to " +:+ filename +:+ nl)%string
          else ("Error: Could not open file " +:+ filename +:+ nl)%string].
Proof.
  unfold save_ppm. destruct (can_open filename); reflexivity.
Qed.

Section DriverFacts.
Context `{DeviceMath}.
Variables (can_open : string -> bool).

Lemma say_ok (msg : string) (m : machine) : buffers_ok m -> buffers_ok (say msg m).
Proof. intros Hm. exact Hm. Qed.

Lemma say_files (msg : string) (m : machine) :
  files (outside (say msg m)) = files (outside m).
Proof. reflexivity. Qed.

Lemma say_console (msg other : string) (m : machine) :
  In other (console (outside m)) -> In other (console (outside (say msg m))).
Proof.
  intros Hin. unfold say, printf; cbn [outside console]. apply in_or_app. now left.
Qed.

(** One scene: the device buffer and the host buffer both end up holding
    the image of the scene, which is what [save_ppm] is given. *)
Lemma generate_image (f : fractal) (sched : list thread) (filename : string) (m : machine) :
  buffers_ok m ->
  Permutation sched (grid_threads (cfg_of WIDTH HEIGHT)) ->
  let img := image_of (mk_scene f WIDTH HEIGHT MAX_ITER) in
  generate can_open f sched filename m
  = mk_machine img img (save_ppm can_open filename img WIDTH HEIGHT (outside m)).
Proof.
  intros [Hd Hh] Hperm img. unfold generate.
  assert (Himg : render (mk_scene f WIDTH HEIGHT MAX_ITER) sched (d_image m) = img).
  { subst img.
    pose proof (render_image (mk_scene f WIDTH HEIGHT MAX_ITER) sched (d_image m)) as Hr.
    cbn [sc_width sc_height] in Hr.
    apply Hr; [unfold WIDTH; lia | unfold HEIGHT; lia | exact Hperm | exact Hd]. }
  rewrite Himg.
  assert (Hli : length img = Z.to_nat (WIDTH * HEIGHT)) by apply image_of_length.
  generalize dependent (Z.to_nat (WIDTH * HEIGHT)). intros N Hd Hh Hli.
  assert (Hcopy : firstn N img ++ skipn N (h_image m) = img).
  { rewrite firstn_all2, skipn_all2 by (rewrite ?Hh, ?Hli; apply Nat.le_refl).
    apply app_nil_r. }
  now rewrite Hcopy.
Qed.

Lemma generate_ok (f : fractal) (sched : list thread) (filename : string) (m : machine) :
  buffers_ok m ->
  Permutation sched (grid_threads (cfg_of WIDTH HEIGHT)) ->
  buffers_ok (generate can_open f sched filename m).
Proof.
  intros Hm Hperm. rewrite generate_image by assumption.
  split; apply image_of_length.
Qed.

Lemma generate_other (f : fractal) (sched : list thread) (filename other : string)
    (m : machine) :
  filename <> other ->
  files (outside (generate can_open f sched filename m)) !! other
  = files (outside m) !! other.
Proof.
  intros Hne. unfold generate; cbn [outside]. now apply save_ppm_other.
Qed.

Lemma generate_same (f : fractal) (sched : list thread) (filename : string) (m : machine) :
  buffers_ok m ->
  Permutation sched (grid_threads (cfg_of WIDTH HEIGHT)) ->
  files (outside (generate can_open f sched filename m)) !! filename
  = if can_open filename
    then Some (ppm_bytes (image_of (mk_scene f WIDTH HEIGHT MAX_ITER)) WIDTH HEIGHT)
    else files (outside m) !! filename.
Proof.
  intros Hm Hperm. rewrite generate_image by assumption. cbn [outside]. apply save_ppm_same.
Qed.

Lemma generate_console (f : fractal) (sched : list thread) (filename other : string)
    (m : machine) :
  In other (console (outside m)) ->
  In other (console (outside (generate can_open f sched filename m))).
Proof.
  intros Hin. unfold generate; cbn [outside]. rewrite save_ppm_console.
  apply in_or_app. now left.
Qed.

Lemma generate_reports (f : fractal) (sched : list thread) (filename : string)
    (m : machine) :
  can_open filename = false ->
  In ("Error: Could not open file " +:+ filename +:+ nl)%string
     (console (outside (generate can_open f sched filename m))).
Proof.
  intros Hco. unfold generate; cbn [outside]. rewrite save_ppm_console, Hco.
  apply in_or_app. right. now left.
Qed.
End DriverFacts.

Ltac buffers_tac :=
  repeat match goal with
    | |- buffers_ok (say _ _) => apply say_ok
    | |- buffers_ok (generate _ _ _ _ _) => apply generate_ok
    | |- buffers_ok _ => assumption
    | |- Permutation _ _ => solve [auto]
    end.

Ltac through_later_steps :=
  repeat first
    [ rewrite say_files
    | rewrite generate_other by discriminate ].

Ltac find_report :=
  repeat first
    [ apply generate_reports; assumption
    | apply say_console
    | apply generate_console ].

Opaque generate say render image_of ppm_bytes.

(** C8.  When [fopen] fails, [save_ppm] prints the error and returns with
    no file touched.  In [main], whichever files cannot be opened, the
    run goes through all seven scenes and returns 0; a scene whose file
    cannot be opened leaves that file as it was and its error message on
    the console; every scene whose file can be opened has its image
    written in full, whatever happened to the scenes before it. *)
Theorem open_failure_skips_scene `{DeviceMath} (can_open : string -> bool)
    (sched : nat -> list thread) (h0 d0 : list Color) (w0 : world) :
  (forall k : nat, Permutation (sched k) (grid_threads (cfg_of WIDTH HEIGHT))) ->
  length h0 = Z.to_nat (WIDTH * HEIGHT) ->
  length d0 = Z.to_nat (WIDTH * HEIGHT) ->
  let final := main can_open sched h0 d0 w0 in
  (forall (filename : string) (image : list Color) (width height : Z) (w : world),
      can_open filename = false ->
      save_ppm can_open filename image width height w
      = mk_world (files w)
          (console w ++ [("Error: Could not open file " +:+ filename +:+ nl)%string]))
  /\ snd final = 0
  /\ forall (f : fractal) (filename : string),
       In (f, filename) scenes ->
       (can_open filename = false ->
          files (outside (fst final)) !! filename = files w0 !! filename
          /\ In ("Error: Could not open file " +:+ filename +:+ nl)%string
                (console (outside (fst final))))
       /\ (can_open filename = true ->
             files (outside (fst final)) !! filename
             = Some (ppm_bytes (image_of (mk_scene f WIDTH HEIGHT MAX_ITER)) WIDTH HEIGHT)).
Proof.
  intros Hsched Hh Hd final.
  split; [intros; now apply save_ppm_failure|].
  split; [reflexivity|].
  assert (H0 : buffers_ok (mk_machine d0 h0 w0)) by (split; assumption).
  intros f filename Hin.
  unfold scenes in Hin. cbn [In] in Hin.
  unfold final, main. cbn [fst].
  destruct Hin as [E|[E|[E|[E|[E|[E|[E|[]]]]]]]]; injection E as <- <-;
    (split; intros Hco;
     [ split;
       [ through_later_steps;
         rewrite generate_same by buffers_tac; rewrite Hco;
         through_later_steps; reflexivity
       | find_report ]
     | through_later_steps;
       rewrite generate_same by buffers_tac; rewrite Hco; reflexivity ]).
Qed.

Lemma open_failure_skips_scene_witness :
  let can_open := fun name : string => negb (String.eqb name "julia_2.ppm") in
  let sched := fun _ : nat => grid_threads (cfg_of WIDTH HEIGHT) in
  let blank := repeat (mk_color 0 0 0) (Z.to_nat (WIDTH * HEIGHT)) in
  let final := main (H := echo_math) can_open sched blank blank (mk_world ∅ []) in
  (forall k : nat, Permutation (sched k) (grid_threads (cfg_of WIDTH HEIGHT)))
  /\ length blank = Z.to_nat (WIDTH * HEIGHT)
  /\ snd final = 0
  /\ files (outside (fst final)) !! "julia_2.ppm"%string = None
  /\ files (outside (fst final)) !! "julia_3.ppm"%string
     = Some (ppm_bytes (image_of (H := echo_math) (mk_scene scene5 WIDTH HEIGHT MAX_ITER))
               WIDTH HEIGHT).
Proof.
  intros can_open sched blank final.
  assert (Hs : forall k : nat, Permutation (sched k) (grid_threads (cfg_of WIDTH HEIGHT)))
    by (intros k; apply Permutation_refl).
  assert (Hl : length blank = Z.to_nat (WIDTH * HEIGHT)) by apply repeat_length.
  destruct (open_failure_skips_scene (H := echo_math) can_open sched blank blank
              (mk_world ∅ []) Hs Hl Hl) as (_ & Hrc & Hscenes).
  split; [exact Hs|]. split; [exact Hl|]. split; [exact Hrc|]. split.
  - destruct (Hscenes scene4 "julia_2.ppm"%string) as [Hfail _].
    { unfold scenes. cbn [In]. auto 10. }
    destruct (Hfail eq_refl) as [Hfile _]. exact Hfile.
  - destruct (Hscenes scene5 "julia_3.ppm"%string) as [_ Hgood].
    { unfold scenes. cbn [In]. auto 10. }
    exact (Hgood eq_refl).
Defined.

Transparent generate say render image_of ppm_bytes.

(** ** Burning Ship against Mandelbrot *)

Lemma f32_prec_pos : 0 < F32.prec.
Proof. reflexivity. Qed.

Lemma not_negative_sign_clear (x : spec_float) :
  negative x = false -> x <> neg_zero -> sign_clear x.
Proof.
  unfold negative, F32.ltb, SFltb, neg_zero, sign_clear.
  destruct x as [[|]|[|]| |[|] m e]; simpl; intros Hn Hz;
    try reflexivity; try discriminate; contradiction.
Qed.

Lemma ship_step_mandel (c z : float2) :
  sign_clear (fx z) -> sign_clear (fy z) -> ship_step c z = mandel_step c z.
Proof.
  unfold ship_step, mandel_step, sign_clear, F32.abs. destruct z as [x y]; simpl.
  now intros -> ->.
Qed.

(** From an iterate with clear sign bits, the Mandelbrot transition never
    produces a negative zero. *)
Lemma mandel_step_no_neg_zero (c z : float2) :
  F32.valid (fx c) -> F32.valid (fy c) ->
  sign_clear (fx z) -> sign_clear (fy z) ->
  fx (mandel_step c z) <> neg_zero /\ fy (mandel_step c z) <> neg_zero.
Proof.
  intros Hcx Hcy Hx Hy.
  apply (valid_exp_ok F32.prec F32.emax) in Hcx, Hcy.
  destruct z as [x y]; simpl in Hx, Hy.
  unfold mandel_step, square_add, complex_mul; simpl.
  unfold F32.add, F32.sub, F32.mul.
  pose proof (SFmul_exp_ok F32.prec F32.emax x x) as Exx.
  pose proof (SFmul_exp_ok F32.prec F32.emax y y) as Eyy.
  pose proof (SFmul_exp_ok F32.prec F32.emax x y) as Exy.
  pose proof (SFmul_exp_ok F32.prec F32.emax y x) as Eyx.
  pose proof (SFmul_sign_clear F32.prec F32.emax x x Hx Hx) as Sxx.
  pose proof (SFmul_sign_clear F32.prec F32.emax x y Hx Hy) as Sxy.
  pose proof (SFmul_sign_clear F32.prec F32.emax y x Hy Hx) as Syx.
  destruct (SFsub_facts F32.prec F32.emax f32_prec_pos _ _ Exx Eyy) as [Esub Zsub].
  destruct (SFadd_facts F32.prec F32.emax f32_prec_pos _ _ Exy Eyx) as (Esum & _ & Ssum).
  specialize (Ssum Sxy Syx).
  destruct (SFadd_facts F32.prec F32.emax f32_prec_pos _ _ Esub Hcx) as (_ & Zre & _).
  destruct (SFadd_facts F32.prec F32.emax f32_prec_pos _ _ Esum Hcy) as (_ & Zim & _).
  split.
  - intros E. destruct (Zre E) as [E1 _]. apply Zsub in E1.
    rewrite E1 in Sxx. discriminate Sxx.
  - intros E. destruct (Zim E) as [E1 _].
    rewrite E1 in Ssum. discriminate Ssum.
Qed.

(** While the Mandelbrot iterates have no negative component, the two
    loops go through the same states. *)
Lemma loops_agree (c : float2) (max_iter : Z) (fuel : nat) (s : loop_state) :
  F32.valid (fx c) -> F32.valid (fy c) ->
  sign_clear (fx (st_z s)) -> sign_clear (fy (st_z s)) ->
  never_negative Mandelbrot c (pred fuel) (st_z s) = true ->
  while_loop fuel (loop_cond max_iter) (body BurningShip c) s
  = while_loop fuel (loop_cond max_iter) (body Mandelbrot c) s.
Proof.
  intros Hcx Hcy. revert s.
  induction fuel as [|fuel IH]; intros s Hx Hy Hnn; [reflexivity|].
  cbn [while_loop]. destruct (loop_cond max_iter s); [|reflexivity].
  assert (Hb : body BurningShip c s = body Mandelbrot c s).
  { unfold body. cbn [z_step]. now rewrite ship_step_mandel. }
  rewrite Hb. destruct fuel as [|fuel]; [reflexivity|].
  cbn [pred never_negative] in Hnn.
  apply andb_true_iff in Hnn as [_ Hnext].
  destruct (mandel_step_no_neg_zero c (st_z s) Hcx Hcy Hx Hy) as [Zx Zy].
  assert (Hnext' := Hnext).
  destruct fuel as [|fuel']; cbn [never_negative] in Hnext';
    repeat (apply andb_true_iff in Hnext' as [Hnext' ?]);
    try (apply andb_true_iff in Hnext' as [Hnx Hny]);
    (apply IH; cbn [body st_z z_step];
     [ apply not_negative_sign_clear; [now apply negb_true_iff|assumption]
     | apply not_negative_sign_clear; [now apply negb_true_iff|assumption]
     | exact Hnext ]).
Qed.



(** A constant whose iterates do turn negative, where the two loops give
    different results: the hypothesis on the signs cannot be dropped. *)
Example ship_differs_when_negative :
  let c := make_float2 (F32.opp one_f) (F32.opp half_f) in
  never_negative Mandelbrot c (Z.to_nat MAX_ITER) (make_float2 zero_f zero_f) = false
  /\ escape_time BurningShip (make_float2 zero_f zero_f) c MAX_ITER
     <> escape_time Mandelbrot (make_float2 zero_f zero_f) c MAX_ITER.
Proof.
  vm_compute. split; [reflexivity | discriminate].
Qed.

(** ** The smoothing term *)

Lemma ge_four_positive (x : spec_float) :
  F32.leb four_f x = true -> F32.ltb zero_f x = true.
Proof.
  rewrite four_f_value. unfold F32.leb, F32.ltb, SFleb, SFltb, zero_f.
  destruct x as [s|[|]| |[|] m e]; cbn [SFcompare]; intros Hle;
    try discriminate; reflexivity.
Qed.

Lemma two_positive : F32.ltb zero_f two_f = true.
Proof. vm_compute. reflexivity. Qed.

Lemma f32_emin_nonpos : emin F32.prec F32.emax <= 0.
Proof. vm_compute. discriminate. Qed.

Lemma narrow_valid (x : spec_float) : F32.valid (narrow x).
Proof.
  unfold F32.valid, narrow. destruct x; try reflexivity.
  apply binary_normalize_valid. exact f32_prec_pos.
Qed.

Lemma of_int_valid (n : Z) : F32.valid (F32.of_int n).
Proof. apply binary_normalize_valid. exact f32_prec_pos. Qed.

Lemma square_add_valid (z c : float2) :
  valid2 (fx z) (fy z) -> valid2 (fx c) (fy c) ->
  valid2 (fx (square_add z c)) (fy (square_add z c)).
Proof.
  intros [Hx Hy] [Hcx Hcy]. unfold square_add, complex_mul; cbn [fx fy].
  unfold F32.add, F32.sub, F32.mul. split.
  - apply SFadd_valid; [exact f32_prec_pos | | exact Hcx].
    apply SFsub_valid; [exact f32_prec_pos | |];
      apply SFmul_valid; auto using f32_prec_pos, f32_emin_nonpos.
  - apply SFadd_valid; [exact f32_prec_pos | | exact Hcy].
    apply SFadd_valid; [exact f32_prec_pos | |];
      apply SFmul_valid; auto using f32_prec_pos, f32_emin_nonpos.
Qed.

Lemma z_step_valid (v : variant) (c z : float2) :
  valid2 (fx z) (fy z) -> valid2 (fx c) (fy c) ->
  valid2 (fx (z_step v c z)) (fy (z_step v c z)).
Proof.
  intros [Hx Hy] Hc. destruct v; cbn [z_step]; unfold mandel_step, ship_step;
    apply square_add_valid; try assumption; try (split; assumption).
  cbn [fx fy]. split; apply SFabs_valid; assumption.
Qed.

Lemma orbit_valid (v : variant) (c z0 : float2) (n : nat) :
  valid2 (fx z0) (fy z0) -> valid2 (fx c) (fy c) ->
  valid2 (fx (orbit v c n z0)) (fy (orbit v c n z0)).
Proof.
  intros Hz Hc. induction n as [|n IH]; [exact Hz|].
  cbn [orbit]. now apply z_step_valid.
Qed.

Lemma mag_valid (z : float2) :
  valid2 (fx z) (fy z) -> F32.valid (complex_mag_squared z).
Proof.
  intros [Hx Hy]. unfold complex_mag_squared, F32.valid, F32.add, F32.mul.
  apply SFadd_valid; [exact f32_prec_pos | |];
    apply SFmul_valid; auto using f32_prec_pos, f32_emin_nonpos.
Qed.

(** The magnitude the evaluator returns is a binary32 number. *)
Lemma escape_time_valid (v : variant) (z0 c : float2) (max_iter : Z) :
  valid2 (fx z0) (fy z0) -> valid2 (fx c) (fy c) ->
  F32.valid (final_magnitude_sq (escape_time v z0 c max_iter)).
Proof.
  intros Hz Hc.
  destruct (escape_time_run v z0 c max_iter) as (n & _ & -> & _).
  cbn [final_magnitude_sq]. destruct n as [|n]; [reflexivity|].
  rewrite iter_body_mag. apply mag_valid. now apply orbit_valid.
Qed.

(** On an escape the comparison [mag_sq < 16.0f] has failed. *)
Lemma escaped_magnitude (v : variant) (z0 c : float2) (max_iter : Z) :
  iterations (escape_time v z0 c max_iter) < max_iter ->
  F32.ltb (final_magnitude_sq (escape_time v z0 c max_iter)) sixteen_f = false.
Proof.
  destruct (escape_time_run v z0 c max_iter) as (n & _ & -> & H3 & _).
  cbn [iterations final_magnitude_sq]. intros Hlt.
  destruct (loop_cond_order max_iter (Nat.iter n (body v c) (init_state z0))) as [_ Ho].
  rewrite Ho in H3; [exact H3|]. rewrite iter_body_iter. cbn [init_state st_iter]. lia.
Qed.

Lemma positive_not_le (x : spec_float) :
  F32.ltb zero_f x = true -> F32.leb x zero_f = false.
Proof.
  unfold F32.ltb, F32.leb, SFltb, SFleb. rewrite (SFcompare_antisym zero_f x).
  destruct (SFcompare zero_f x) as [[ | | ]|]; simpl; intros Hlt;
    try discriminate; reflexivity.
Qed.

Section Smoothing.
Context `{DeviceMath}.
Hypothesis logf_positive :
  forall x : spec_float, F32.leb four_f x = true -> F32.ltb zero_f (logf x) = true.
Hypothesis logf_nan : logf S754_nan = S754_nan.

Lemma smoothing_ok_from_sixteen (mag_sq : spec_float) :
  F32.valid mag_sq -> F32.leb sixteen_f mag_sq = true -> smoothing_ok mag_sq.
Proof.
  intros Hv Hle.
  pose proof (sqrt_ge_four mag_sq Hv Hle) as H4.
  pose proof (ge_four_positive _ H4) as Hpos.
  pose proof (logf_positive _ H4) as Hlpos.
  assert (Hc1 : checked_logf (F32.sqrt mag_sq) = Some (logf (F32.sqrt mag_sq))).
  { unfold checked_logf. now rewrite (positive_not_le _ Hpos). }
  assert (Hc2 : checked_logf (logf (F32.sqrt mag_sq))
                = Some (logf (logf (F32.sqrt mag_sq)))).
  { unfold checked_logf. now rewrite (positive_not_le _ Hlpos). }
  unfold smoothing_ok. repeat split; try assumption.
  unfold checked_smoothing. rewrite Hc1, Hc2.
  unfold checked_logf. now rewrite (positive_not_le _ two_positive).
Qed.

(** A magnitude that is not a number goes through both logarithms as
    such: no argument is zero or negative there either. *)
Lemma smoothing_of_nan : checked_smoothing S754_nan = Some (smoothing S754_nan).
Proof.
  unfold checked_smoothing, smoothing.
  change (F32.sqrt S754_nan) with S754_nan.
  assert (Hn : checked_logf S754_nan = Some S754_nan).
  { unfold checked_logf. cbn. now rewrite logf_nan. }
  rewrite logf_nan, Hn.
  unfold checked_logf. now rewrite (positive_not_le _ two_positive).
Qed.
End Smoothing.

(** C9.  Let [logf] be positive from 4 on and map a value that is not a
    number to itself.  For a binary32 magnitude of at least 16, [sqrtf]
    gives at least 4, hence a positive number, and the outer logarithm
    gets a positive argument too: computed through the checked logarithm,
    the smoothing term takes no error branch and is the value the kernels
    compute.  Whenever the evaluator, started on binary32 numbers,
    reports an escape, no logarithm of the smoothing term gets a zero or
    negative argument; and unless the magnitude is not a number, it is at
    least 16. *)
Theorem smoothing_defined `{DeviceMath} :
  (forall x : spec_float, F32.leb four_f x = true -> F32.ltb zero_f (logf x) = true) ->
  logf S754_nan = S754_nan ->
  (forall mag_sq : spec_float,
      F32.valid mag_sq -> F32.leb sixteen_f mag_sq = true -> smoothing_ok mag_sq)
  /\ (forall (v : variant) (z0 c : float2) (max_iter : Z),
        valid2 (fx z0) (fy z0) -> valid2 (fx c) (fy c) ->
        let r := escape_time v z0 c max_iter in
        iterations r < max_iter ->
        checked_smoothing (final_magnitude_sq r) = Some (smoothing (final_magnitude_sq r))
        /\ (is_nan (final_magnitude_sq r) = false ->
            F32.leb sixteen_f (final_magnitude_sq r) = true
            /\ smoothing_ok (final_magnitude_sq r))).
Proof.
  intros Hlog Hnan. split.
  - intros mag_sq. now apply smoothing_ok_from_sixteen.
  - intros v z0 c max_iter Hz Hc r Hesc.
    pose proof (escape_time_valid v z0 c max_iter Hz Hc) as Hv. fold r in Hv.
    destruct (not_ltb_leb _ _ (escaped_magnitude v z0 c max_iter Hesc))
      as [Hn|[Hn|Hle]].
    + fold r in Hn. destruct (final_magnitude_sq r); try discriminate Hn.
      split; [now apply smoothing_of_nan | discriminate].
    + discriminate Hn.
    + fold r in Hle.
      pose proof (smoothing_ok_from_sixteen Hlog _ Hv Hle) as Hok.
      split; [apply Hok | intros _; split; assumption].
Qed.

Lemma smoothing_defined_witness :
  let mag_sq := F32.of_int 25 in
  (forall x : spec_float,
      F32.leb four_f x = true -> F32.ltb zero_f (logf (DeviceMath := echo_math) x) = true)
  /\ logf (DeviceMath := echo_math) S754_nan = S754_nan
  /\ F32.valid mag_sq /\ F32.leb sixteen_f mag_sq = true
  /\ checked_smoothing (H := echo_math) mag_sq = Some (smoothing (H := echo_math) mag_sq).
Proof.
  intros mag_sq.
  assert (Hlog : forall x : spec_float,
             F32.leb four_f x = true
             -> F32.ltb zero_f (logf (DeviceMath := echo_math) x) = true)
    by (intros x Hx; now apply ge_four_positive).
  assert (Hv : F32.valid mag_sq) by (vm_compute; reflexivity).
  assert (Hle : F32.leb sixteen_f mag_sq = true) by (vm_compute; reflexivity).
  split; [exact Hlog|]. split; [reflexivity|]. split; [exact Hv|]. split; [exact Hle|].
  destruct (smoothing_defined (H := echo_math) Hlog eq_refl) as [Hall _].
  apply (Hall mag_sq Hv Hle).
Defined.


(** * Further properties of the program *)

(** ** Complex arithmetic *)

Section Commutativity.
Variables prec emax : Z.

Lemma SFmul_comm (x y : spec_float) : SFmul prec emax x y = SFmul prec emax y x.
Proof.
  destruct x as [sx|sx| |sx mx ex], y as [sy|sy| |sy my ey]; cbn [SFmul];
    rewrite ?(xorb_comm sx sy); try reflexivity.
  now rewrite (Pos.mul_comm mx my), (Z.add_comm ex ey).
Qed.

Lemma SFmul_opp_opp (x y : spec_float) :
  SFmul prec emax (SFopp x) (SFopp y) = SFmul prec emax x y.
Proof.
  destruct x as [sx|sx| |sx mx ex], y as [sy|sy| |sy my ey]; cbn [SFmul SFopp];
    rewrite ?xorb_negb_negb; reflexivity.
Qed.
End Commutativity.

(** X2.  [complex_mag_squared] never returns a negative number or a negative
    zero, whatever its argument: the result has a clear sign bit or is not
    a number. *)
Theorem complex_mag_squared_sign (z : float2) :
  sign_clear (complex_mag_squared z)
  /\ negative (complex_mag_squared z) = false
  /\ complex_mag_squared z <> neg_zero.
Proof.
  assert (Hs : sign_clear (complex_mag_squared z)).
  { unfold complex_mag_squared, F32.add, F32.mul.
    assert (Sx : forall x, sign_clear (SFmul F32.prec F32.emax x x)).
    { intros x. destruct x as [s|s| |s m e]; unfold sign_clear; cbn [SFmul SFabs];
        rewrite ?xorb_nilpotent; try reflexivity.
      destruct (binary_round_aux_cases F32.prec F32.emax false (Zpos (m * m)) (e + e)
                  loc_Exact) as [->|[->|(m' & e' & -> & _)]]; try reflexivity; lia. }
    destruct (SFadd_facts F32.prec F32.emax f32_prec_pos
                (SFmul F32.prec F32.emax (fx z) (fx z))
                (SFmul F32.prec F32.emax (fy z) (fy z))) as (_ & _ & Hsc);
      try apply SFmul_exp_ok.
    apply Hsc; apply Sx. }
  split; [exact Hs|]. unfold sign_clear in Hs.
  split.
  - unfold negative, F32.ltb, SFltb.
    destruct (complex_mag_squared z) as [[|]|[|]| |[|] m e]; try discriminate Hs;
      reflexivity.
  - intros E. rewrite E in Hs. discriminate Hs.
Qed.

(** ** The escape-time loop *)

Lemma z_step_opp (v : variant) (c z : float2) : z_step v c (opp2 z) = z_step v c z.
Proof.
  assert (Hsq : forall w, complex_mul (opp2 w) (opp2 w) = complex_mul w w).
  { intros w. unfold complex_mul, opp2, F32.mul, F32.opp; cbn [fx fy].
    now rewrite !SFmul_opp_opp. }
  destruct v; cbn [z_step]; unfold mandel_step, ship_step, square_add.
  - now rewrite Hsq.
  - now rewrite Hsq.
  - unfold opp2, F32.abs, F32.opp; cbn [fx fy].
    replace (SFabs (SFopp (fx z))) with (SFabs (fx z)) by (now destruct (fx z)).
    replace (SFabs (SFopp (fy z))) with (SFabs (fy z)) by (now destruct (fy z)).
    reflexivity.
Qed.

Lemma run_opp (v : variant) (z0 c : float2) (max_iter : Z) :
  escape_time v (opp2 z0) c max_iter = escape_time v z0 c max_iter.
Proof.
  unfold escape_time, run_loop, escape_fuel. cbn [while_loop].
  assert (Hc : loop_cond max_iter (init_state (opp2 z0))
               = loop_cond max_iter (init_state z0)) by reflexivity.
  assert (Hb : body v c (init_state (opp2 z0)) = body v c (init_state z0)).
  { unfold body, init_state; cbn [st_z st_iter]. now rewrite z_step_opp. }
  rewrite Hc, Hb.
  destruct (loop_cond max_iter (init_state z0)); reflexivity.
Qed.

(** X3.  The loop gives the same result from [z0] and from the opposite point,
    for every variant: the first transition squares the sign away (for
    Burning Ship, takes the absolute values first). *)
Theorem escape_time_opp (v : variant) (z0 c : float2) (max_iter : Z) :
  escape_time v (opp2 z0) c max_iter = escape_time v z0 c max_iter.
Proof. apply run_opp. Qed.

Lemma add_zero_square (x : spec_float) :
  F32.mul (F32.add zero_f x) (F32.add zero_f x) = F32.mul x x.
Proof.
  unfold F32.mul, F32.add, zero_f. destruct x as [[|]|s| |s m e]; reflexivity.
Qed.

(** From the origin the first iterate is [c] (with a negative zero turned
    into zero), so its squared magnitude is that of [c]. *)
Lemma first_iterate_magnitude (v : variant) (c : float2) :
  complex_mag_squared (z_step v c origin) = complex_mag_squared c.
Proof.
  assert (Hz : z_step v c origin
               = make_float2 (F32.add zero_f (fx c)) (F32.add zero_f (fy c))).
  { destruct v; reflexivity. }
  rewrite Hz. unfold complex_mag_squared; cbn [fx fy]. now rewrite !add_zero_square.
Qed.

(** The exit of the loop is the first state where the guard fails. *)
Lemma exit_index_unique (v : variant) (z0 c : float2) (max_iter : Z) (n : nat) :
  loop_cond max_iter (Nat.iter n (body v c) (init_state z0)) = false ->
  (forall k : nat, (k < n)%nat ->
      loop_cond max_iter (Nat.iter k (body v c) (init_state z0)) = true) ->
  escape_time v z0 c max_iter
  = result_of (Nat.iter n (body v c) (init_state z0)).
Proof.
  intros Hstop Hbefore.
  destruct (run_loop_total v z0 c max_iter) as (n' & Hrun & Hstop' & Hbefore' & _).
  unfold escape_time. rewrite Hrun.
  destruct (Nat.lt_trichotomy n n') as [Hlt|[->|Hgt]]; [|reflexivity|].
  - rewrite (Hbefore' n Hlt) in Hstop. discriminate.
  - rewrite (Hbefore n' Hgt) in Hstop'. discriminate.
Qed.

(** X4.  For the Mandelbrot and Burning Ship loops (started at the origin) with
    [max_iter >= 1]: exactly one iteration is reported if and only if the
    cap is 1 or [|c|^2 < 16.0f] is false; and then the magnitude returned
    is [|c|^2]. *)
Theorem outside_radius_one_iteration (v : variant) (c : float2) (max_iter : Z) :
  1 <= max_iter ->
  let r := escape_time v origin c max_iter in
  (iterations r = 1
   <-> (max_iter = 1 \/ F32.ltb (complex_mag_squared c) sixteen_f = false))
  /\ (iterations r = 1 -> final_magnitude_sq r = complex_mag_squared c).
Proof.
  intros Hmax r.
  set (s1 := Nat.iter 1 (body v c) (init_state origin)).
  assert (Hm1 : st_mag_sq s1 = complex_mag_squared c)
    by (apply (first_iterate_magnitude v c)).
  assert (Hi1 : st_iter s1 = 1) by reflexivity.
  assert (H0 : loop_cond max_iter (init_state origin) = true).
  { unfold loop_cond, init_state; cbn [st_iter st_mag_sq].
    replace (0 <? max_iter) with true by (symmetry; apply Z.ltb_lt; lia). reflexivity. }
  destruct (loop_cond max_iter s1) eqn:Hc1.
  - (* the loop goes on after the first step *)
    destruct (escape_time_run v origin c max_iter) as (n & _ & Hr & Hstop & _).
    fold r in Hr.
    assert (Hn : (2 <= n)%nat).
    { destruct n as [|[|n]]; [| |lia].
      - change (loop_cond max_iter (init_state origin) = false) in Hstop. congruence.
      - fold s1 in Hstop. congruence. }
    unfold loop_cond in Hc1. rewrite Hi1, Hm1 in Hc1.
    apply andb_true_iff in Hc1 as [Hlt Hmag]. apply Z.ltb_lt in Hlt.
    rewrite Hr; cbn [iterations final_magnitude_sq]. split.
    + split; [lia|]. intros [->|Hf]; [lia | congruence].
    + lia.
  - assert (Hr : r = result_of s1).
    { apply exit_index_unique; [exact Hc1|].
      intros k Hk. replace k with 0%nat by lia. exact H0. }
    rewrite Hr. unfold result_of; cbn [iterations final_magnitude_sq].
    rewrite Hi1, Hm1. split; [|reflexivity].
    split; [|reflexivity]. intros _.
    unfold loop_cond in Hc1. rewrite Hi1, Hm1 in Hc1.
    apply andb_false_iff in Hc1 as [Hc1|Hc1]; [left; apply Z.ltb_ge in Hc1; lia | now right].
Qed.

Lemma outside_radius_one_iteration_witness :
  let c := make_float2 (F32.of_int 3) (F32.of_int 3) in
  1 <= MAX_ITER
  /\ F32.ltb (complex_mag_squared c) sixteen_f = false
  /\ iterations (escape_time BurningShip origin c MAX_ITER) = 1.
Proof.
  intros c.
  assert (Hm : 1 <= MAX_ITER) by (unfold MAX_ITER; lia).
  split; [exact Hm|]. split; [reflexivity|].
  destruct (outside_radius_one_iteration BurningShip c MAX_ITER Hm) as [[_ Hone] _].
  apply Hone. right. reflexivity.
Defined.

(** X5.  Raising the cap never changes the result of a point that escaped, and
    never lowers an iteration count. *)
Theorem raise_cap (v : variant) (z0 c : float2) (max_iter max_iter' : Z) :
  max_iter <= max_iter' ->
  let r := escape_time v z0 c max_iter in
  let r' := escape_time v z0 c max_iter' in
  (iterations r < max_iter -> r' = r)
  /\ iterations r <= iterations r'.
Proof.
  intros Hle r r'.
  destruct (escape_time_run v z0 c max_iter) as (n & Hrun & Hr & Hstop & Hbefore & _).
  destruct (escape_time_run v z0 c max_iter') as (n' & _ & Hr' & Hstop' & Hbefore' & _).
  fold r in Hr. fold r' in Hr'.
  assert (Hit : forall k, st_iter (Nat.iter k (body v c) (init_state z0)) = Z.of_nat k).
  { intros k. rewrite iter_body_iter. cbn [init_state st_iter]. lia. }
  assert (Hup : forall k, loop_cond max_iter (Nat.iter k (body v c) (init_state z0)) = true
                     -> loop_cond max_iter' (Nat.iter k (body v c) (init_state z0)) = true).
  { intros k Hk. unfold loop_cond in *. apply andb_true_iff in Hk as [Hk1 Hk2].
    apply Z.ltb_lt in Hk1. rewrite Hk2, andb_true_r. apply Z.ltb_lt. lia. }
  assert (Hnn : (n <= n')%nat).
  { destruct (Nat.le_gt_cases n n') as [|Hgt]; [assumption|].
    rewrite (Hup n' (Hbefore n' Hgt)) in Hstop'. discriminate. }
  split.
  - intros Hesc. rewrite Hr in Hesc. cbn [iterations] in Hesc.
    assert (Hstop2 : loop_cond max_iter' (Nat.iter n (body v c) (init_state z0)) = false).
    { unfold loop_cond in *. rewrite Hit in *.
      apply andb_false_iff in Hstop as [Hs|Hs]; [apply Z.ltb_ge in Hs; lia|].
      rewrite Hs. apply andb_false_r. }
    unfold r'. rewrite (exit_index_unique v z0 c max_iter' n Hstop2).
    + rewrite Hr. unfold result_of. now rewrite Hit.
    + intros k Hk. apply Hup, Hbefore, Hk.
  - rewrite Hr, Hr'. cbn [iterations]. lia.
Qed.

Lemma raise_cap_witness :
  let c := make_float2 one_f one_f in
  5 <= MAX_ITER
  /\ iterations (escape_time Mandelbrot origin c 5) < 5
  /\ escape_time Mandelbrot origin c MAX_ITER = escape_time Mandelbrot origin c 5.
Proof.
  intros c.
  assert (Hle : 5 <= MAX_ITER) by (unfold MAX_ITER; lia).
  assert (Hesc : iterations (escape_time Mandelbrot origin c 5) < 5)
    by (vm_compute; reflexivity).
  split; [exact Hle|]. split; [exact Hesc|].
  destruct (raise_cap Mandelbrot origin c 5 MAX_ITER Hle) as [Hsame _].
  exact (Hsame Hesc).
Defined.

(** X6.  A value that is not a number in the starting point or in the constant
    ends the loop after one iteration, with a magnitude that is not a
    number. *)
Theorem nan_input_one_iteration (v : variant) (z0 c : float2) (max_iter : Z) :
  1 <= max_iter ->
  is_nan (fx z0) || is_nan (fy z0) || is_nan (fx c) || is_nan (fy c) = true ->
  escape_time v z0 c max_iter = mk_result 1 S754_nan.
Proof.
  intros Hmax Hnan.
  assert (Hmag : complex_mag_squared (z_step v c z0) = S754_nan).
  { assert (Hsq : forall w, is_nan (fx w) || is_nan (fy w) || is_nan (fx c) || is_nan (fy c)
                             = true ->
                     complex_mag_squared (square_add w c) = S754_nan).
    { intros [x y] Hw. cbn [fx fy] in Hw.
      unfold complex_mag_squared, square_add, complex_mul, F32.add, F32.sub, F32.mul;
        cbn [fx fy].
      destruct x as [sx|sx| |sx mx ex]; cbn [is_nan orb] in Hw;
        try (cbn [SFmul SFsub SFadd]; reflexivity);
        destruct y as [sy|sy| |sy my ey]; cbn [is_nan orb] in Hw;
        try (cbn [SFmul SFsub SFadd];
             match goal with
             | |- context [SFsub ?p ?e ?a S754_nan] =>
                 replace (SFsub p e a S754_nan) with S754_nan by (now destruct a)
             end; reflexivity);
        (destruct (fx c) as [sc|sc| |sc mc ec]; cbn [is_nan orb] in Hw;
         [| |
          match goal with
          | |- context [SFadd ?p ?e ?a S754_nan] =>
              replace (SFadd p e a S754_nan) with S754_nan by (now destruct a)
          end; reflexivity |];
         (destruct (fy c) as [sd|sd| |sd md ed]; cbn [is_nan orb] in Hw;
          try discriminate Hw;
          repeat match goal with
          | |- context [SFadd ?p ?e ?a S754_nan] =>
              replace (SFadd p e a S754_nan) with S754_nan by (now destruct a)
          | |- context [SFmul ?p ?e S754_nan ?a] =>
              replace (SFmul p e S754_nan a) with S754_nan by reflexivity
          end; reflexivity)). }
    destruct v; cbn [z_step]; unfold mandel_step, ship_step; apply Hsq; try exact Hnan.
    cbn [fx fy]. unfold F32.abs.
    replace (is_nan (SFabs (fx z0))) with (is_nan (fx z0)) by (now destruct (fx z0)).
    replace (is_nan (SFabs (fy z0))) with (is_nan (fy z0)) by (now destruct (fy z0)).
    exact Hnan. }
  rewrite (exit_index_unique v z0 c max_iter 1).
  - change (Nat.iter 1 (body v c) (init_state z0)) with (body v c (init_state z0)).
    unfold result_of, body. cbn [st_iter st_mag_sq st_z init_state].
    now rewrite Hmag.
  - change (Nat.iter 1 (body v c) (init_state z0)) with (body v c (init_state z0)).
    unfold loop_cond, body. cbn [st_iter st_mag_sq st_z init_state].
    rewrite Hmag. apply andb_false_r.
  - intros k Hk. replace k with 0%nat by lia.
    change (Nat.iter 0 (body v c) (init_state z0)) with (init_state z0).
    unfold loop_cond, init_state; cbn [st_iter st_mag_sq].
    replace (0 <? max_iter) with true by (symmetry; apply Z.ltb_lt; lia). reflexivity.
Qed.

Lemma nan_input_one_iteration_witness :
  1 <= MAX_ITER
  /\ escape_time Julia (make_float2 S754_nan zero_f) origin MAX_ITER = mk_result 1 S754_nan.
Proof.
  split; [unfold MAX_ITER; lia|].
  apply (nan_input_one_iteration Julia (make_float2 S754_nan zero_f) origin MAX_ITER).
  - unfold MAX_ITER; lia.
  - reflexivity.
Defined.

(** ** Signs of zeros, opposites and conjugates *)

Lemma sf_eqb_eq (x y : spec_float) : sf_eqb x y = true -> x = y.
Proof.
  destruct x as [s|s| |s m e], y as [s'|s'| |s' m' e']; cbn [sf_eqb];
    try discriminate; try reflexivity.
  - intros E. apply Bool.eqb_prop in E. now subst.
  - intros E. apply Bool.eqb_prop in E. now subst.
  - intros E. apply andb_true_iff in E as [E E3]. apply andb_true_iff in E as [E1 E2].
    apply Bool.eqb_prop in E1. apply Pos.eqb_eq in E2. apply Z.eqb_eq in E3. now subst.
Qed.

Section ZeroSigns.
Variables prec emax : Z.

Lemma binary_round_aux_opp (s : bool) (m e : Z) (l : location) :
  binary_round_aux prec emax (negb s) m e l = SFopp (binary_round_aux prec emax s m e l).
Proof.
  unfold binary_round_aux.
  destruct (shr_fexp prec emax m e l) as [mrs1 e1].
  destruct (shr_fexp prec emax _ e1 loc_Exact) as [mrs2 e2].
  destruct (shr_m mrs2); try reflexivity.
  destruct (e2 <=? emax - prec); reflexivity.
Qed.

Lemma binary_round_opp (s : bool) (m : positive) (e : Z) :
  binary_round prec emax (negb s) m e = SFopp (binary_round prec emax s m e).
Proof.
  unfold binary_round. destruct (shl_align m e _) as [mz ez].
  apply binary_round_aux_opp.
Qed.

Lemma SFmul_opp_r (x y : spec_float) :
  SFmul prec emax x (SFopp y) = SFopp (SFmul prec emax x y).
Proof.
  destruct x as [sx|sx| |sx mx ex], y as [sy|sy| |sy my ey]; cbn [SFmul SFopp];
    rewrite <- ?negb_xorb_r; try reflexivity.
  apply binary_round_aux_opp.
Qed.

Lemma SFmul_opp_l (x y : spec_float) :
  SFmul prec emax (SFopp x) y = SFopp (SFmul prec emax x y).
Proof.
  now rewrite (SFmul_comm prec emax (SFopp x) y), SFmul_opp_r, (SFmul_comm prec emax y x).
Qed.

Lemma SFopp_invol (x : spec_float) : SFopp (SFopp x) = x.
Proof. destruct x; cbn [SFopp]; now rewrite ?negb_involutive. Qed.

Lemma clear_zero_idem (x : spec_float) : clear_zero (clear_zero x) = clear_zero x.
Proof. now destruct x. Qed.

Lemma clear_zero_opp (x : spec_float) :
  clear_zero (SFopp (clear_zero x)) = clear_zero (SFopp x).
Proof. now destruct x. Qed.

Lemma SFmul_clear_zero (x y : spec_float) :
  clear_zero (SFmul prec emax (clear_zero x) (clear_zero y))
  = clear_zero (SFmul prec emax x y).
Proof.
  destruct x as [sx|sx| |sx mx ex], y as [sy|sy| |sy my ey]; reflexivity.
Qed.

Lemma SFadd_clear_zero (x y : spec_float) :
  clear_zero (SFadd prec emax (clear_zero x) (clear_zero y))
  = clear_zero (SFadd prec emax x y).
Proof.
  destruct x as [sx|sx| |sx mx ex], y as [sy|sy| |sy my ey]; try reflexivity;
    destruct sx, sy; reflexivity.
Qed.

Lemma SFsub_clear_zero (x y : spec_float) :
  clear_zero (SFsub prec emax (clear_zero x) (clear_zero y))
  = clear_zero (SFsub prec emax x y).
Proof.
  destruct x as [sx|sx| |sx mx ex], y as [sy|sy| |sy my ey]; try reflexivity;
    destruct sx, sy; reflexivity.
Qed.

Lemma SFabs_clear_zero (x : spec_float) :
  clear_zero (SFabs (clear_zero x)) = clear_zero (SFabs x).
Proof. now destruct x. Qed.

Lemma SFmul_square_clear_zero (x : spec_float) :
  SFmul prec emax (clear_zero x) (clear_zero x) = SFmul prec emax x x.
Proof.
  destruct x as [[|]|s| |s m e]; reflexivity.
Qed.

Lemma binary_normalize_opp (m e : Z) :
  clear_zero (binary_normalize prec emax (- m) e false)
  = clear_zero (SFopp (binary_normalize prec emax m e false)).
Proof.
  destruct m as [|p|p]; cbn [binary_normalize Z.opp]; try reflexivity.
  - now rewrite <- binary_round_opp.
  - change (binary_round prec emax true p e)
      with (binary_round prec emax (negb false) p e).
    now rewrite binary_round_opp, SFopp_invol.
Qed.
End ZeroSigns.

Section ZeroSignCompat.
Variables prec emax : Z.

Lemma SFadd_opp (x y : spec_float) :
  clear_zero (SFadd prec emax (SFopp x) (SFopp y))
  = clear_zero (SFopp (SFadd prec emax x y)).
Proof.
  destruct x as [sx|sx| |sx mx ex], y as [sy|sy| |sy my ey]; try reflexivity;
    try (destruct sx, sy; reflexivity).
  cbn [SFadd SFopp].
  replace (cond_Zopp (negb sx) (Zpos (fst (shl_align mx ex (Z.min ex ey))))
           + cond_Zopp (negb sy) (Zpos (fst (shl_align my ey (Z.min ex ey)))))
    with (- (cond_Zopp sx (Zpos (fst (shl_align mx ex (Z.min ex ey))))
             + cond_Zopp sy (Zpos (fst (shl_align my ey (Z.min ex ey))))))
    by (destruct sx, sy; cbn [cond_Zopp negb]; lia).
  apply binary_normalize_opp.
Qed.

Lemma SFadd_compat (x x' y y' : spec_float) :
  clear_zero x = clear_zero x' -> clear_zero y = clear_zero y' ->
  clear_zero (SFadd prec emax x y) = clear_zero (SFadd prec emax x' y').
Proof.
  intros Hx Hy. now rewrite <- SFadd_clear_zero, Hx, Hy, SFadd_clear_zero.
Qed.

Lemma SFsub_compat (x x' y y' : spec_float) :
  clear_zero x = clear_zero x' -> clear_zero y = clear_zero y' ->
  clear_zero (SFsub prec emax x y) = clear_zero (SFsub prec emax x' y').
Proof.
  intros Hx Hy. now rewrite <- SFsub_clear_zero, Hx, Hy, SFsub_clear_zero.
Qed.

Lemma SFmul_compat (x x' y y' : spec_float) :
  clear_zero x = clear_zero x' -> clear_zero y = clear_zero y' ->
  clear_zero (SFmul prec emax x y) = clear_zero (SFmul prec emax x' y').
Proof.
  intros Hx Hy. now rewrite <- SFmul_clear_zero, Hx, Hy, SFmul_clear_zero.
Qed.

Lemma SFmul_square_compat (x x' : spec_float) :
  clear_zero x = clear_zero x' -> SFmul prec emax x x = SFmul prec emax x' x'.
Proof.
  intros Hx. now rewrite <- SFmul_square_clear_zero, Hx, SFmul_square_clear_zero.
Qed.

Lemma SFabs_compat (x x' : spec_float) :
  clear_zero x = clear_zero x' -> clear_zero (SFabs x) = clear_zero (SFabs x').
Proof.
  intros Hx. now rewrite <- SFabs_clear_zero, Hx, SFabs_clear_zero.
Qed.

Lemma SFopp_compat (x x' : spec_float) :
  clear_zero x = clear_zero x' -> clear_zero (SFopp x) = clear_zero (SFopp x').
Proof.
  intros Hx. now rewrite <- clear_zero_opp, Hx, clear_zero_opp.
Qed.
End ZeroSignCompat.

Lemma same_but_zero_signs_iff (z z' : float2) :
  same_but_zero_signs z z'
  <-> clear_zero (fx z) = clear_zero (fx z') /\ clear_zero (fy z) = clear_zero (fy z').
Proof.
  unfold same_but_zero_signs, clear_zero2. split.
  - intros [= Hx Hy]. now split.
  - intros [-> ->]. reflexivity.
Qed.

Lemma square_add_compat (z z' c c' : float2) :
  same_but_zero_signs z z' -> same_but_zero_signs c c' ->
  same_but_zero_signs (square_add z c) (square_add z' c').
Proof.
  rewrite !same_but_zero_signs_iff. intros [Hx Hy] [Hcx Hcy].
  unfold square_add, complex_mul, F32.add, F32.sub, F32.mul; cbn [fx fy].
  split.
  - apply SFadd_compat; [|exact Hcx].
    now rewrite (SFmul_square_compat _ _ _ _ Hx), (SFmul_square_compat _ _ _ _ Hy).
  - apply SFadd_compat; [|exact Hcy].
    apply SFadd_compat; apply SFmul_compat; assumption.
Qed.

Lemma z_step_compat (v : variant) (z z' c c' : float2) :
  same_but_zero_signs z z' -> same_but_zero_signs c c' ->
  same_but_zero_signs (z_step v c z) (z_step v c' z').
Proof.
  intros Hz Hc. destruct v; cbn [z_step]; unfold mandel_step, ship_step;
    apply square_add_compat; try assumption.
  apply same_but_zero_signs_iff in Hz as [Hx Hy].
  apply same_but_zero_signs_iff; cbn [fx fy]. unfold F32.abs.
  split; now apply SFabs_compat.
Qed.

Lemma mag_compat (z z' : float2) :
  same_but_zero_signs z z' -> complex_mag_squared z = complex_mag_squared z'.
Proof.
  intros Hz. apply same_but_zero_signs_iff in Hz as [Hx Hy].
  unfold complex_mag_squared, F32.add, F32.mul.
  now rewrite (SFmul_square_compat _ _ _ _ Hx), (SFmul_square_compat _ _ _ _ Hy).
Qed.

(** Two loops whose states stay related give related results. *)
Lemma while_loop_related {S : Type} (R : S -> S -> Prop) (cond : S -> bool)
    (step step' : S -> S) :
  (forall s s', R s s' -> cond s = cond s') ->
  (forall s s', R s s' -> cond s = true -> R (step s) (step' s')) ->
  forall (fuel : nat) (s s' : S), R s s' ->
    match while_loop fuel cond step s, while_loop fuel cond step' s' with
    | Some a, Some b => R a b
    | None, None => True
    | _, _ => False
    end.
Proof.
  intros Hcond Hstep. induction fuel as [|fuel IH]; intros s s' HR; cbn [while_loop];
    [exact I|].
  rewrite <- (Hcond s s' HR). destruct (cond s) eqn:Hc; [|exact HR].
  apply IH. now apply Hstep.
Qed.

(** Two runs of the evaluator whose iterates stay related, with equal
    magnitudes, return the same result. *)
Lemma escape_time_related (P : float2 -> float2 -> Prop) (v v' : variant)
    (z0 z0' c c' : float2) (max_iter : Z) :
  P z0 z0' ->
  (forall z z', P z z' ->
      P (z_step v c z) (z_step v' c' z')
      /\ complex_mag_squared (z_step v c z) = complex_mag_squared (z_step v' c' z')) ->
  escape_time v z0 c max_iter = escape_time v' z0' c' max_iter.
Proof.
  intros H0 Hstep.
  set (R := fun s s' : loop_state =>
              P (st_z s) (st_z s') /\ st_iter s = st_iter s'
              /\ st_mag_sq s = st_mag_sq s').
  pose proof (while_loop_related R (loop_cond max_iter) (body v c) (body v' c')) as Hrel.
  specialize (Hrel ltac:(intros s s' (_ & Hi & Hm); unfold loop_cond; now rewrite Hi, Hm)).
  specialize (Hrel ltac:(intros s s' (Hp & Hi & Hm) _; destruct (Hstep _ _ Hp) as [Hp' Hm'];
                         unfold R, body; cbn [st_z st_iter st_mag_sq];
                         repeat split; [exact Hp' | now rewrite Hi | exact Hm'])).
  specialize (Hrel (escape_fuel max_iter) (init_state z0) (init_state z0')
                ltac:(unfold R, init_state; cbn [st_z st_iter st_mag_sq]; auto)).
  unfold escape_time, run_loop.
  destruct (while_loop _ _ (body v c) _) as [a|], (while_loop _ _ (body v' c') _) as [b|];
    try contradiction.
  - destruct Hrel as (_ & Hi & Hm). unfold result_of. now rewrite Hi, Hm.
  - reflexivity.
Qed.

Lemma run_zero_signs (v : variant) (z0 z0' c c' : float2) (max_iter : Z) :
  same_but_zero_signs z0 z0' -> same_but_zero_signs c c' ->
  escape_time v z0 c max_iter = escape_time v z0' c' max_iter.
Proof.
  intros Hz Hc. apply (escape_time_related same_but_zero_signs); [exact Hz|].
  intros z z' Hzz.
  pose proof (z_step_compat v z z' c c' Hzz Hc) as Hs.
  split; [exact Hs | now apply mag_compat].
Qed.

(** X7.  The signs of the zero components of the starting point and of the
    constant have no effect on the result, for every variant. *)
Theorem zero_signs_irrelevant (v : variant) (z0 z0' c c' : float2) (max_iter : Z) :
  same_but_zero_signs z0 z0' -> same_but_zero_signs c c' ->
  escape_time v z0 c max_iter = escape_time v z0' c' max_iter.
Proof. apply run_zero_signs. Qed.

Lemma zero_signs_irrelevant_witness :
  let c := make_float2 (F32.lit 1 4) zero_f in
  let c' := make_float2 (F32.lit 1 4) neg_zero in
  same_but_zero_signs origin (make_float2 neg_zero zero_f)
  /\ same_but_zero_signs c c'
  /\ escape_time BurningShip origin c MAX_ITER
     = escape_time BurningShip (make_float2 neg_zero zero_f) c' MAX_ITER.
Proof.
  intros c c'.
  assert (Hz : same_but_zero_signs origin (make_float2 neg_zero zero_f)) by reflexivity.
  assert (Hc : same_but_zero_signs c c') by reflexivity.
  split; [exact Hz|]. split; [exact Hc|].
  exact (zero_signs_irrelevant BurningShip _ _ _ _ MAX_ITER Hz Hc).
Defined.

Lemma square_add_conj (z c : float2) :
  same_but_zero_signs (square_add (conjugate z) (conjugate c)) (conjugate (square_add z c)).
Proof.
  apply same_but_zero_signs_iff.
  unfold square_add, complex_mul, conjugate, F32.add, F32.sub, F32.mul, F32.opp; cbn [fx fy].
  split.
  - now rewrite SFmul_opp_opp.
  - rewrite SFmul_opp_r, SFmul_opp_l.
    rewrite <- SFadd_opp. apply SFadd_compat; [|reflexivity].
    apply SFadd_opp.
Qed.

Lemma mag_conj (z : float2) : complex_mag_squared (conjugate z) = complex_mag_squared z.
Proof.
  unfold complex_mag_squared, conjugate, F32.mul, F32.opp; cbn [fx fy].
  now rewrite SFmul_opp_opp.
Qed.

Lemma conj_compat (z z' : float2) :
  same_but_zero_signs z z' -> same_but_zero_signs (conjugate z) (conjugate z').
Proof.
  rewrite !same_but_zero_signs_iff. unfold conjugate, F32.opp; cbn [fx fy].
  intros [Hx Hy]. split; [exact Hx | now apply SFopp_compat].
Qed.

Lemma run_conj (v : variant) (z0 c : float2) (max_iter : Z) :
  v <> BurningShip ->
  escape_time v (conjugate z0) (conjugate c) max_iter = escape_time v z0 c max_iter.
Proof.
  intros Hv.
  apply (escape_time_related (fun z' z => same_but_zero_signs z' (conjugate z)));
    [reflexivity|].
  intros z' z Hz.
  assert (Hs : same_but_zero_signs (z_step v (conjugate c) z') (conjugate (z_step v c z))).
  { assert (Hm : z_step v = mandel_step) by (destruct v; [reflexivity| reflexivity | congruence]).
    rewrite Hm. unfold mandel_step.
    unfold same_but_zero_signs.
    rewrite (square_add_compat z' (conjugate z) (conjugate c) (conjugate c) Hz eq_refl).
    apply square_add_conj. }
  split; [exact Hs|]. rewrite (mag_compat _ _ Hs). apply mag_conj.
Qed.

(** X8.  The Mandelbrot and Julia loops give the same result on the conjugate
    data: conjugating both the starting point and the constant changes
    neither the iteration count nor the final magnitude. *)
Theorem conjugate_symmetry (v : variant) (z0 c : float2) (max_iter : Z) :
  v <> BurningShip ->
  escape_time v (conjugate z0) (conjugate c) max_iter = escape_time v z0 c max_iter.
Proof. apply run_conj. Qed.

Lemma conjugate_symmetry_witness :
  let c := make_float2 (F32.opp one_f) (F32.lit 3 10) in
  Mandelbrot <> BurningShip
  /\ escape_time Mandelbrot (conjugate origin) (conjugate c) MAX_ITER
     = escape_time Mandelbrot origin c MAX_ITER.
Proof.
  intros c.
  assert (Hv : Mandelbrot <> BurningShip) by discriminate.
  split; [exact Hv|].
  exact (conjugate_symmetry Mandelbrot origin c MAX_ITER Hv).
Defined.

(** ** Symmetries of the images *)

Lemma narrow_opp (x : spec_float) : narrow (SFopp x) = SFopp (narrow x).
Proof.
  destruct x as [s|s| |s m e]; try reflexivity.
  cbn [SFopp narrow].
  destruct s; cbn [cond_Zopp negb];
    change (- Z.pos m) with (Z.neg m); cbn [binary_normalize];
    change (binary_round F32.prec F32.emax true m e)
      with (binary_round F32.prec F32.emax (negb false) m e);
    rewrite binary_round_opp; [now rewrite SFopp_invol | reflexivity].
Qed.

Lemma narrow_compat (x x' : spec_float) :
  clear_zero x = clear_zero x' -> clear_zero (narrow x) = clear_zero (narrow x').
Proof.
  destruct x as [s|s| |s m e], x' as [s'|s'| |s' m' e']; try discriminate;
    try reflexivity; cbn [clear_zero]; now intros [= -> -> ->] || now intros [= ->].
Qed.

Lemma SFadd_zero_l (prec emax : Z) (s : bool) (x : spec_float) :
  clear_zero (SFadd prec emax (S754_zero s) x) = clear_zero x.
Proof. destruct s, x as [[]|[]| |[] m e]; reflexivity. Qed.

Lemma mirror_centred (size n : Z) :
  mirror_check size = true -> 0 <= n <= size ->
  clear_zero (centred (size - n) size) = clear_zero (SFopp (centred n size)).
Proof.
  unfold mirror_check. rewrite forallb_forall. intros Hall Hn.
  apply sf_eqb_eq, (Hall n). apply in_map_iff. exists (Z.to_nat n).
  split; [lia|]. apply in_seq. lia.
Qed.

Lemma mirror_width : mirror_check WIDTH = true.
Proof. vm_compute. reflexivity. Qed.

Lemma mirror_height : mirror_check HEIGHT = true.
Proof. vm_compute. reflexivity. Qed.

(** The offset of the mirrored pixel is the opposite offset. *)
Lemma offset_mirror (size n : Z) (scale : spec_float) :
  mirror_check size = true -> 0 <= n <= size ->
  clear_zero (offset (size - n) size scale)
  = clear_zero (SFopp (offset n size scale)).
Proof.
  intros Hm Hn. unfold offset.
  change (F64.sub (F64.of_int ?a) (F64.div (F64.of_int ?b) two_d)) with (centred a b).
  unfold F64.mul. rewrite <- SFmul_opp_l.
  apply SFmul_compat; [|reflexivity]. now apply mirror_centred.
Qed.

Section Symmetry.
Context `{DeviceMath}.

(** X9.  Every Julia image of the program's size is symmetric about its middle:
    pixels [(x, y)] and [(WIDTH - x, HEIGHT - y)] get the same colour,
    for every constant, zoom and iteration cap. *)
Theorem julia_point_symmetry (max_iter : Z) (julia_real julia_imag zoom : spec_float)
    (x y : Z) :
  0 <= x <= WIDTH -> 0 <= y <= HEIGHT ->
  julia_pixel max_iter WIDTH HEIGHT julia_real julia_imag zoom (WIDTH - x) (HEIGHT - y)
  = julia_pixel max_iter WIDTH HEIGHT julia_real julia_imag zoom x y.
Proof.
  intros Hx Hy. unfold julia_pixel. f_equal.
  rewrite <- (run_opp Julia (to_float2 (julia_plane WIDTH HEIGHT zoom x y))).
  apply run_zero_signs; [|reflexivity].
  apply same_but_zero_signs_iff.
  unfold to_float2, julia_plane, opp2, F32.opp; cbn [fst snd fx fy].
  rewrite <- !narrow_opp.
  split; apply narrow_compat.
  - exact (offset_mirror WIDTH x _ mirror_width Hx).
  - exact (offset_mirror HEIGHT y _ mirror_height Hy).
Qed.

(** X10.  A Mandelbrot image of the program's size whose view is centred on the
    real axis is symmetric about its middle row: pixels [(x, y)] and
    [(x, HEIGHT - y)] get the same colour. *)
Theorem mandelbrot_mirror_symmetry (max_iter : Z) (center_x center_y zoom : spec_float)
    (x y : Z) :
  clear_zero center_y = zero_d -> 0 <= y <= HEIGHT ->
  mandelbrot_pixel max_iter WIDTH HEIGHT center_x center_y zoom x (HEIGHT - y)
  = mandelbrot_pixel max_iter WIDTH HEIGHT center_x center_y zoom x y.
Proof.
  intros Hc Hy. unfold mandelbrot_pixel. f_equal.
  change (make_float2 zero_f zero_f) with origin.
  rewrite <- (run_conj Mandelbrot origin
                (to_float2 (mandelbrot_plane WIDTH HEIGHT center_x center_y zoom x y)))
    by discriminate.
  apply run_zero_signs; [reflexivity|].
  apply same_but_zero_signs_iff.
  unfold to_float2, mandelbrot_plane, conjugate, F32.opp; cbn [fst snd fx fy].
  split; [reflexivity|].
  rewrite <- narrow_opp. apply narrow_compat.
  destruct center_y as [s| | |]; try discriminate.
  unfold F64.add. rewrite SFadd_zero_l.
  rewrite (offset_mirror HEIGHT y _ mirror_height Hy).
  apply SFopp_compat. symmetry. apply SFadd_zero_l.
Qed.
End Symmetry.

Lemma julia_point_symmetry_witness :
  0 <= 100 <= WIDTH /\ 0 <= 200 <= HEIGHT
  /\ julia_pixel (H := echo_math) MAX_ITER WIDTH HEIGHT
       (F64.opp (F64.lit 7 10)) (F64.lit 27015 100000) (F64.of_int 1)
       (WIDTH - 100) (HEIGHT - 200)
     = julia_pixel (H := echo_math) MAX_ITER WIDTH HEIGHT
         (F64.opp (F64.lit 7 10)) (F64.lit 27015 100000) (F64.of_int 1) 100 200.
Proof.
  assert (Hx : 0 <= 100 <= WIDTH) by (unfold WIDTH; lia).
  assert (Hy : 0 <= 200 <= HEIGHT) by (unfold HEIGHT; lia).
  split; [exact Hx|]. split; [exact Hy|].
  exact (julia_point_symmetry (H := echo_math) MAX_ITER _ _ _ 100 200 Hx Hy).
Defined.

Lemma mandelbrot_mirror_symmetry_witness :
  clear_zero zero_d = zero_d /\ 0 <= 200 <= HEIGHT
  /\ mandelbrot_pixel (H := echo_math) MAX_ITER WIDTH HEIGHT
       (F64.opp (F64.lit 1 2)) zero_d (F64.of_int 1) 700 (HEIGHT - 200)
     = mandelbrot_pixel (H := echo_math) MAX_ITER WIDTH HEIGHT
         (F64.opp (F64.lit 1 2)) zero_d (F64.of_int 1) 700 200.
Proof.
  assert (Hc : clear_zero zero_d = zero_d) by reflexivity.
  assert (Hy : 0 <= 200 <= HEIGHT) by (unfold HEIGHT; lia).
  split; [exact Hc|]. split; [exact Hy|].
  exact (mandelbrot_mirror_symmetry (H := echo_math) MAX_ITER _ zero_d _ 700 200 Hc Hy).
Defined.

(** ** The flipped axis of the Burning Ship view *)

Lemma SFsub_opp (prec emax : Z) (x y : spec_float) :
  SFsub prec emax x (SFopp y) = SFadd prec emax x y.
Proof.
  destruct x as [[]|[]| |[] mx ex], y as [[]|[]| |[] my ey]; reflexivity.
Qed.

Section Flip.
Context `{DeviceMath}.

(** X11.  Row [HEIGHT - y] of a Burning Ship image samples the point of the
    plane that row [y] of the Mandelbrot image of the same view samples;
    when no Mandelbrot iterate from there has a negative component, the
    two pixels have the same colour. *)
Theorem burning_ship_flipped (max_iter : Z) (center_x center_y zoom : spec_float)
    (x y : Z) :
  0 <= y <= HEIGHT ->
  let c := to_float2 (mandelbrot_plane WIDTH HEIGHT center_x center_y zoom x y) in
  same_but_zero_signs
    (to_float2 (burning_ship_plane WIDTH HEIGHT center_x center_y zoom x (HEIGHT - y))) c
  /\ (never_negative Mandelbrot c (Z.to_nat max_iter) origin = true ->
      burning_ship_pixel max_iter WIDTH HEIGHT center_x center_y zoom x (HEIGHT - y)
      = mandelbrot_pixel max_iter WIDTH HEIGHT center_x center_y zoom x y).
Proof.
  intros Hy c.
  assert (Hs : same_but_zero_signs
                 (to_float2 (burning_ship_plane WIDTH HEIGHT center_x center_y zoom x
                               (HEIGHT - y))) c).
  { apply same_but_zero_signs_iff.
    unfold c, to_float2, burning_ship_plane, mandelbrot_plane; cbn [fst snd fx fy].
    split; [reflexivity|]. apply narrow_compat.
    unfold F64.sub, F64.add. rewrite <- SFsub_opp.
    apply SFsub_compat; [reflexivity|].
    exact (offset_mirror HEIGHT y _ mirror_height Hy). }
  split; [exact Hs|]. intros Hnn.
  unfold burning_ship_pixel, mandelbrot_pixel. fold c. f_equal.
  change (make_float2 zero_f zero_f) with origin.
  rewrite (run_zero_signs BurningShip origin origin _ c max_iter eq_refl Hs).
  unfold escape_time, run_loop.
  rewrite (loops_agree c max_iter (escape_fuel max_iter) (init_state origin));
    [reflexivity | apply narrow_valid | apply narrow_valid
    | reflexivity | reflexivity | exact Hnn].
Qed.

(** X12.  The middle pixel (960, 540) samples the centre of the view, up to the
    sign of a zero, whenever the scale is a finite number. *)
Theorem middle_pixel_is_centre (center_x center_y zoom : spec_float) :
  is_finite (pixel_scale WIDTH HEIGHT zoom) = true ->
  let p := mandelbrot_plane WIDTH HEIGHT center_x center_y zoom 960 540 in
  let q := burning_ship_plane WIDTH HEIGHT center_x center_y zoom 960 540 in
  let j := julia_plane WIDTH HEIGHT zoom 960 540 in
  clear_zero (fst p) = clear_zero center_x /\ clear_zero (snd p) = clear_zero center_y
  /\ clear_zero (fst q) = clear_zero center_x /\ clear_zero (snd q) = clear_zero center_y
  /\ clear_zero (fst j) = zero_d /\ clear_zero (snd j) = zero_d.
Proof.
  intros Hfin p q j.
  unfold p, q, j, mandelbrot_plane, burning_ship_plane, julia_plane; cbn [fst snd].
  unfold offset.
  change (F64.sub (F64.of_int 960) (F64.div (F64.of_int WIDTH) two_d))
    with (centred 960 WIDTH).
  change (F64.sub (F64.of_int 540) (F64.div (F64.of_int HEIGHT) two_d))
    with (centred 540 HEIGHT).
  assert (Hw : centred 960 WIDTH = zero_d) by (vm_compute; reflexivity).
  assert (Hh : centred 540 HEIGHT = zero_d) by (vm_compute; reflexivity).
  rewrite Hw, Hh.
  destruct (pixel_scale WIDTH HEIGHT zoom) as [s|s| |s m e]; try discriminate Hfin;
    (split; [|split; [|split; [|split; [|split]]]];
     [ destruct center_x as [[]|[]| |[] ? ?], s; reflexivity
     | destruct center_y as [[]|[]| |[] ? ?], s; reflexivity
     | destruct center_x as [[]|[]| |[] ? ?], s; reflexivity
     | destruct center_y as [[]|[]| |[] ? ?], s; reflexivity
     | destruct s; reflexivity
     | destruct s; reflexivity ]).
Qed.
End Flip.

Lemma burning_ship_flipped_witness :
  let cx := F64.lit 1 4 in
  let c := to_float2 (mandelbrot_plane WIDTH HEIGHT cx zero_d (F64.of_int 1) 960 540) in
  0 <= 540 <= HEIGHT
  /\ never_negative Mandelbrot c (Z.to_nat 50) origin = true
  /\ burning_ship_pixel (H := echo_math) 50 WIDTH HEIGHT cx zero_d (F64.of_int 1) 960
       (HEIGHT - 540)
     = mandelbrot_pixel (H := echo_math) 50 WIDTH HEIGHT cx zero_d (F64.of_int 1) 960 540.
Proof.
  intros cx c.
  assert (Hy : 0 <= 540 <= HEIGHT) by (unfold HEIGHT; lia).
  assert (Hn : never_negative Mandelbrot c (Z.to_nat 50) origin = true)
    by (vm_compute; reflexivity).
  split; [exact Hy|]. split; [exact Hn|].
  exact (proj2 (burning_ship_flipped (H := echo_math) 50 cx zero_d (F64.of_int 1)
                  960 540 Hy) Hn).
Defined.

Lemma middle_pixel_is_centre_witness :
  let cx := F64.opp (F64.lit 7269 10000) in
  let cy := F64.lit 1889 10000 in
  let zm := F64.of_int 10000 in
  is_finite (pixel_scale WIDTH HEIGHT zm) = true
  /\ clear_zero (fst (mandelbrot_plane WIDTH HEIGHT cx cy zm 960 540)) = clear_zero cx
  /\ clear_zero (snd (mandelbrot_plane WIDTH HEIGHT cx cy zm 960 540)) = clear_zero cy.
Proof.
  intros cx cy zm.
  assert (Hf : is_finite (pixel_scale WIDTH HEIGHT zm) = true) by (vm_compute; reflexivity).
  split; [exact Hf|].
  destruct (middle_pixel_is_centre cx cy zm Hf) as (H1 & H2 & _).
  split; [exact H1 | exact H2].
Defined.

(** ** The threads of a launch *)

Lemma thread_of_pixel (width height : Z) (t : thread) :
  In t (grid_threads (cfg_of width height)) ->
  t = mk_thread (thread_x (cfg_of width height) t / 16)
        (thread_y (cfg_of width height) t / 16)
        (thread_x (cfg_of width height) t mod 16)
        (thread_y (cfg_of width height) t mod 16).
Proof.
  intros Hin. apply in_grid_threads in Hin.
  destruct t as [bx by_ tx ty]. unfold thread_x, thread_y, cfg_of in *.
  cbn [blockIdx_x blockIdx_y threadIdx_x threadIdx_y blockDim_x blockDim_y
       gridDim_x gridDim_y] in *.
  destruct Hin as (_ & _ & Htx & Hty).
  f_equal.
  - apply (Z.div_unique _ 16 bx tx); lia.
  - apply (Z.div_unique _ 16 by_ ty); lia.
  - apply (Z.mod_unique _ 16 bx tx); lia.
  - apply (Z.mod_unique _ 16 by_ ty); lia.
Qed.

Lemma same_pixel_same_thread (width height : Z) (t t' : thread) :
  In t (grid_threads (cfg_of width height)) ->
  In t' (grid_threads (cfg_of width height)) ->
  thread_x (cfg_of width height) t = thread_x (cfg_of width height) t' ->
  thread_y (cfg_of width height) t = thread_y (cfg_of width height) t' ->
  t = t'.
Proof.
  intros Hin Hin' Hx Hy.
  rewrite (thread_of_pixel width height t Hin), (thread_of_pixel width height t' Hin').
  now rewrite Hx, Hy.
Qed.

Lemma slot_pixel (width x y x' y' : Z) :
  0 <= x < width -> 0 <= x' < width ->
  y * width + x = y' * width + x' -> x = x' /\ y = y'.
Proof.
  intros Hx Hx' Hi.
  assert (Hy : y = y') by nia. subst y'. split; lia.
Qed.

Lemma index_in_range (width height : Z) (t : thread) :
  In t (grid_threads (cfg_of width height)) ->
  thread_x (cfg_of width height) t < width ->
  thread_y (cfg_of width height) t < height ->
  0 <= thread_y (cfg_of width height) t * width + thread_x (cfg_of width height) t
    < width * height.
Proof.
  intros Hin Hx Hy.
  destruct (grid_nonneg (cfg_of width height) t) as [Hx0 Hy0];
    [simpl; lia | simpl; lia | exact Hin |].
  nia.
Qed.

(** On a size that fits, the device computes the coordinates without
    wrapping. *)
Lemma device_coords (width height : Z) (t : thread) :
  size_fits width height -> In t (grid_threads (cfg_of width height)) ->
  device_x (cfg_of width height) t = thread_x (cfg_of width height) t
  /\ device_y (cfg_of width height) t = thread_y (cfg_of width height) t.
Proof.
  intros (Hw & Hh & Hwm & Hhm & _) Hin. apply in_grid_threads in Hin.
  unfold device_x, device_y, thread_x, thread_y, uint, int_of_uint, INT_MAX in *.
  cbn [cfg_of gridDim_x gridDim_y blockDim_x blockDim_y] in *.
  destruct Hin as (Hbx & Hby & Htx & Hty).
  assert (Bx : 0 <= blockIdx_x t * 16 /\ blockIdx_x t * 16 + threadIdx_x t <= width + 14)
    by (revert Hbx; Z.div_mod_to_equations; lia).
  assert (By : 0 <= blockIdx_y t * 16 /\ blockIdx_y t * 16 + threadIdx_y t <= height + 14)
    by (revert Hby; Z.div_mod_to_equations; lia).
  rewrite (Z.mod_small (blockIdx_x t * 16)), (Z.mod_small (blockIdx_y t * 16)) by lia.
  rewrite !Z.mod_small by lia.
  split.
  - replace (blockIdx_x t * 16 + threadIdx_x t <=? 2147483647) with true
      by (symmetry; apply Z.leb_le; lia). reflexivity.
  - replace (blockIdx_y t * 16 + threadIdx_y t <=? 2147483647) with true
      by (symmetry; apply Z.leb_le; lia). reflexivity.
Qed.

(** Inside an image whose pixel count fits, the index does not overflow. *)
Lemma int_index_exact (width height x y : Z) :
  size_fits width height -> 0 <= x < width -> 0 <= y < height ->
  int_index width x y = Some (y * width + x).
Proof.
  intros (Hw & Hh & _ & _ & Hn) Hx Hy.
  unfold int_index, int_result, INT_MIN, INT_MAX in *.
  assert (Hp : 0 <= y * width /\ y * width + x < width * height) by nia.
  replace ((-2147483648 <=? y * width) && (y * width <=? 2147483647)) with true
    by (symmetry; apply andb_true_iff; split; apply Z.leb_le; lia).
  replace ((-2147483648 <=? y * width + x) && (y * width + x <=? 2147483647)) with true
    by (symmetry; apply andb_true_iff; split; apply Z.leb_le; lia).
  reflexivity.
Qed.

(** On a size that fits and a buffer that holds the image, the thread on
    machine integers with its checked store does what the thread of the
    kernels above does. *)
Lemma store_checked_model (pix : Z -> Z -> Color) (width height : Z)
    (image : list Color) (t : thread) :
  size_fits width height -> In t (grid_threads (cfg_of width height)) ->
  (Z.to_nat (width * height) <= length image)%nat ->
  store_pixel_checked pix (cfg_of width height) image width height t
  = Some (store_pixel pix (cfg_of width height) image width height t).
Proof.
  intros Hfit Hin Hlen. unfold store_pixel_checked, store_pixel.
  destruct (device_coords width height t Hfit Hin) as [-> ->].
  destruct ((thread_x (cfg_of width height) t >=? width)
            || (thread_y (cfg_of width height) t >=? height)) eqn:G; [reflexivity|].
  apply orb_false_iff in G as [Gx Gy]. rewrite Z.geb_leb in Gx, Gy.
  apply Z.leb_gt in Gx, Gy.
  destruct (grid_nonneg (cfg_of width height) t) as [X Y];
    [simpl; lia | simpl; lia | exact Hin |].
  rewrite (int_index_exact width height) by (assumption || lia).
  pose proof (index_in_range width height t Hin Gx Gy) as Hi.
  replace ((0 <=? thread_y (cfg_of width height) t * width
                  + thread_x (cfg_of width height) t)
           && (thread_y (cfg_of width height) t * width
               + thread_x (cfg_of width height) t <? Z.of_nat (length image)))
    with true; [reflexivity|].
  symmetry. apply andb_true_iff. split; [apply Z.leb_le | apply Z.ltb_lt]; lia.
Qed.

Lemma store_pixel_length (pix : Z -> Z -> Color) (cfg : launch_cfg) (width height : Z)
    (image : list Color) (t : thread) :
  length (store_pixel pix cfg image width height t) = length image.
Proof.
  unfold store_pixel. destruct (_ || _); [reflexivity | apply length_insert].
Qed.

Lemma launch_checked_model (pix : Z -> Z -> Color) (width height : Z)
    (sched : list thread) (image : list Color) :
  size_fits width height ->
  (forall t : thread, In t sched -> In t (grid_threads (cfg_of width height))) ->
  (Z.to_nat (width * height) <= length image)%nat ->
  launch_checked (fun img t =>
                    store_pixel_checked pix (cfg_of width height) img width height t)
    sched image
  = Some (launch (fun img t => store_pixel pix (cfg_of width height) img width height t)
            sched image).
Proof.
  intros Hfit. revert image.
  induction sched as [|t sched IH]; intros image Hgrid Hlen; [reflexivity|].
  cbn [launch_checked]. unfold launch; cbn [fold_left].
  rewrite store_checked_model by (auto; apply Hgrid; now left).
  apply IH; [intros t' Ht'; apply Hgrid; now right|].
  now rewrite store_pixel_length.
Qed.

(** X13.  For an image size that fits [int] and a buffer that holds the
    image, every thread of the grid of [main] computes its coordinates
    without wrapping; when it passes the bounds test its index
    [y * width + x] does not overflow and lies in the image; and its
    store is inside the buffer, so that the kernel on machine integers
    is defined and does what the kernel of the model does. *)
Theorem store_in_bounds `{DeviceMath} (sc : Scene) (image : list Color) (t : thread) :
  let w := sc_width sc in
  let h := sc_height sc in
  let cfg := cfg_of w h in
  size_fits w h -> In t (grid_threads cfg) ->
  (Z.to_nat (w * h) <= length image)%nat ->
  device_x cfg t = thread_x cfg t /\ device_y cfg t = thread_y cfg t
  /\ (device_x cfg t < w -> device_y cfg t < h ->
      int_index w (device_x cfg t) (device_y cfg t)
      = Some (device_y cfg t * w + device_x cfg t)
      /\ 0 <= device_y cfg t * w + device_x cfg t < w * h
      /\ device_y cfg t * w + device_x cfg t < Z.of_nat (length image))
  /\ kernel_checked sc cfg image t = Some (kernel sc cfg image t).
Proof.
  intros w h cfg Hfit Hin Hlen.
  destruct (device_coords w h t Hfit Hin) as [Ex Ey]. fold cfg in Ex, Ey.
  split; [exact Ex|]. split; [exact Ey|]. split.
  - rewrite Ex, Ey. intros Hx Hy.
    destruct (grid_nonneg cfg t) as [X Y]; [simpl; lia | simpl; lia | exact Hin |].
    pose proof (index_in_range w h t Hin Hx Hy) as Hi. fold cfg in Hi.
    split; [apply (int_index_exact w h); (assumption || lia)|].
    split; [exact Hi | lia].
  - unfold kernel_checked. rewrite kernel_store. now apply store_checked_model.
Qed.

Lemma store_in_bounds_witness :
  let sc := mk_scene scene1 20 17 30 in
  let cfg := cfg_of 20 17 in
  let t := mk_thread 1 1 3 0 in
  let image := repeat (mk_color 1 2 3) 340 in
  size_fits 20 17 /\ In t (grid_threads cfg)
  /\ (Z.to_nat (20 * 17) <= length image)%nat
  /\ int_index 20 (device_x cfg t) (device_y cfg t) = Some 339
  /\ kernel_checked (H := echo_math) sc cfg image t
     = Some (kernel (H := echo_math) sc cfg image t).
Proof.
  intros sc cfg t image.
  assert (Hfit : size_fits 20 17) by (unfold size_fits, INT_MAX; lia).
  assert (Hin : In t (grid_threads cfg))
    by (apply in_grid_threads; vm_compute; intuition discriminate).
  assert (Hlen : (Z.to_nat (20 * 17) <= length image)%nat) by (vm_compute; lia).
  destruct (store_in_bounds (H := echo_math) sc image t Hfit Hin Hlen)
    as (_ & _ & Hidx & Hk).
  split; [exact Hfit|]. split; [exact Hin|]. split; [exact Hlen|].
  split; [|exact Hk].
  exact (proj1 (Hidx ltac:(vm_compute; reflexivity) ltac:(vm_compute; reflexivity))).
Defined.

(** X14.  For an image size that fits [int], every slot of the image has
    exactly one thread of the grid that stores into it: some thread
    passes the bounds test and computes, on machine integers, the index
    of the slot, and no other thread of the grid computes that index. *)
Theorem one_thread_per_slot (width height i : Z) :
  size_fits width height -> 0 < width -> 0 <= i < width * height ->
  let cfg := cfg_of width height in
  exists t : thread,
    (In t (grid_threads cfg)
     /\ device_x cfg t < width /\ device_y cfg t < height
     /\ int_index width (device_x cfg t) (device_y cfg t) = Some i)
    /\ forall t' : thread,
         In t' (grid_threads cfg) ->
         device_x cfg t' < width ->
         int_index width (device_x cfg t') (device_y cfg t') = Some i ->
         t' = t.
Proof.
  intros Hfit Hw Hi cfg.
  pose proof (Z.mod_pos_bound i width Hw) as Hx.
  assert (Hy : 0 <= i / width < height).
  { split; [apply Z.div_pos; lia|]. apply Z.div_lt_upper_bound; lia. }
  destruct (grid_covers width height _ _ Hx Hy) as (t & Hin & Htx & Hty).
  fold cfg in Hin, Htx, Hty.
  destruct (device_coords width height t Hfit Hin) as [Ex Ey]. fold cfg in Ex, Ey.
  assert (Hidx : i mod width + width * (i / width) = i)
    by (pose proof (Z.div_mod i width); lia).
  exists t. split.
  - rewrite Ex, Ey, Htx, Hty. repeat split; try lia; try assumption.
    rewrite (int_index_exact width height) by (assumption || lia).
    f_equal. lia.
  - intros t' Hin' Hx' Hi'.
    destruct (device_coords width height t' Hfit Hin') as [Ex' Ey']. fold cfg in Ex', Ey'.
    rewrite Ex', Ey' in *.
    destruct (grid_nonneg cfg t') as [Hx0 Hy0]; [simpl; lia | simpl; lia | exact Hin' |].
    assert (Hz : thread_y cfg t' * width + thread_x cfg t' = i).
    { unfold int_index, int_result in Hi'.
      destruct ((INT_MIN <=? thread_y cfg t' * width)
                && (thread_y cfg t' * width <=? INT_MAX)); [|discriminate].
      destruct ((INT_MIN <=? thread_y cfg t' * width + thread_x cfg t')
                && (thread_y cfg t' * width + thread_x cfg t' <=? INT_MAX));
        [|discriminate].
      now injection Hi'. }
    destruct (slot_pixel width (thread_x cfg t') (thread_y cfg t')
                (thread_x cfg t) (thread_y cfg t)) as [Ex2 Ey2]; [lia | lia | |].
    + rewrite Hz, Htx, Hty. lia.
    + now apply (same_pixel_same_thread width height).
Qed.

Lemma one_thread_per_slot_witness :
  let cfg := cfg_of WIDTH HEIGHT in
  size_fits WIDTH HEIGHT /\ 0 < WIDTH /\ 0 <= 2073599 < WIDTH * HEIGHT
  /\ exists t : thread,
       (In t (grid_threads cfg)
        /\ device_x cfg t < WIDTH /\ device_y cfg t < HEIGHT
        /\ int_index WIDTH (device_x cfg t) (device_y cfg t) = Some 2073599)
       /\ forall t' : thread,
            In t' (grid_threads cfg) ->
            device_x cfg t' < WIDTH ->
            int_index WIDTH (device_x cfg t') (device_y cfg t') = Some 2073599 ->
            t' = t.
Proof.
  intros cfg.
  assert (Hfit : size_fits WIDTH HEIGHT) by (unfold size_fits, INT_MAX, WIDTH, HEIGHT; lia).
  assert (Hw : 0 < WIDTH) by (unfold WIDTH; lia).
  assert (Hi : 0 <= 2073599 < WIDTH * HEIGHT) by (unfold WIDTH, HEIGHT; lia).
  split; [exact Hfit|]. split; [exact Hw|]. split; [exact Hi|].
  exact (one_thread_per_slot WIDTH HEIGHT 2073599 Hfit Hw Hi).
Defined.

(** The sizes from which the index [y * width + x] can overflow are left
    out for a reason: at 46341 x 46341 the last pixel has no index on
    [int]. *)
Example index_overflows :
  46341 + 15 <= INT_MAX /\ INT_MAX < 46341 * 46341
  /\ int_index 46341 46340 46340 = None.
Proof. vm_compute. repeat split; discriminate. Qed.

Section Threads.
Context `{DeviceMath}.

Lemma stores_commute (sc : Scene) (image : list Color) (t1 t2 : thread) :
  let cfg := cfg_of (sc_width sc) (sc_height sc) in
  In t1 (grid_threads cfg) -> In t2 (grid_threads cfg) ->
  kernel sc cfg (kernel sc cfg image t1) t2 = kernel sc cfg (kernel sc cfg image t2) t1.
Proof.
  intros cfg H1 H2. rewrite !kernel_store. unfold store_pixel.
  set (w := sc_width sc) in *. set (h := sc_height sc) in *.
  destruct ((thread_x cfg t1 >=? w) || (thread_y cfg t1 >=? h)) eqn:G1;
    destruct ((thread_x cfg t2 >=? w) || (thread_y cfg t2 >=? h)) eqn:G2;
    try reflexivity.
  apply orb_false_iff in G1 as [G1 _]. apply orb_false_iff in G2 as [G2 _].
  rewrite Z.geb_leb in G1, G2. apply Z.leb_gt in G1, G2.
  destruct (grid_nonneg cfg t1) as [X1 Y1]; [simpl; lia | simpl; lia | exact H1 |].
  destruct (grid_nonneg cfg t2) as [X2 Y2]; [simpl; lia | simpl; lia | exact H2 |].
  destruct (Z.eq_dec (thread_y cfg t1 * w + thread_x cfg t1)
              (thread_y cfg t2 * w + thread_x cfg t2)) as [E|N].
  - destruct (slot_pixel w _ _ _ _ (conj X1 G1) (conj X2 G2) E) as [Ex Ey].
    now rewrite Ex, Ey.
  - apply list_insert_insert_ne. intros E. apply N. symmetry.
    apply Z2Nat.inj in E; nia.
Qed.

Lemma kernel_checked_model (sc : Scene) (image : list Color) (t : thread) :
  size_fits (sc_width sc) (sc_height sc) ->
  In t (grid_threads (cfg_of (sc_width sc) (sc_height sc))) ->
  (Z.to_nat (sc_width sc * sc_height sc) <= length image)%nat ->
  kernel_checked sc (cfg_of (sc_width sc) (sc_height sc)) image t
  = Some (kernel sc (cfg_of (sc_width sc) (sc_height sc)) image t)
  /\ length (kernel sc (cfg_of (sc_width sc) (sc_height sc)) image t) = length image.
Proof.
  intros Hfit Hin Hlen. split.
  - unfold kernel_checked. rewrite kernel_store. now apply store_checked_model.
  - rewrite kernel_store. apply store_pixel_length.
Qed.

(** X15.  For an image size that fits [int] and a buffer that holds the
    image, the stores of two threads of the grid commute: on machine
    integers and with checked stores, running them in either order is
    defined and leaves the same buffer. *)
Theorem kernel_commute (sc : Scene) (image : list Color) (t1 t2 : thread) :
  let cfg := cfg_of (sc_width sc) (sc_height sc) in
  size_fits (sc_width sc) (sc_height sc) ->
  (Z.to_nat (sc_width sc * sc_height sc) <= length image)%nat ->
  In t1 (grid_threads cfg) -> In t2 (grid_threads cfg) ->
  exists image' : list Color,
    launch_checked (kernel_checked sc cfg) [t1; t2] image = Some image'
    /\ launch_checked (kernel_checked sc cfg) [t2; t1] image = Some image'
    /\ length image' = length image.
Proof.
  intros cfg Hfit Hlen H1 H2.
  destruct (kernel_checked_model sc image t1 Hfit H1 Hlen) as [K1 L1].
  destruct (kernel_checked_model sc image t2 Hfit H2 Hlen) as [K2 L2].
  fold cfg in K1, K2, L1, L2.
  destruct (kernel_checked_model sc (kernel sc cfg image t1) t2 Hfit H2) as [K12 L12];
    [fold cfg; lia|].
  destruct (kernel_checked_model sc (kernel sc cfg image t2) t1 Hfit H1) as [K21 _];
    [fold cfg; lia|].
  fold cfg in K12, K21, L12.
  exists (kernel sc cfg (kernel sc cfg image t1) t2).
  cbn [launch_checked]. rewrite K1, K2, K12, K21.
  split; [reflexivity|]. split; [|lia].
  f_equal. symmetry. now apply stores_commute.
Qed.
End Threads.

Lemma kernel_commute_witness :
  let sc := mk_scene (FJulia (F64.opp (F64.lit 4 10)) (F64.lit 6 10) (F64.of_int 1)) 20 17 30 in
  let cfg := cfg_of (sc_width sc) (sc_height sc) in
  let t1 := mk_thread 1 0 3 15 in
  let t2 := mk_thread 0 1 9 0 in
  let image := repeat (mk_color 1 2 3) 340 in
  size_fits (sc_width sc) (sc_height sc)
  /\ (Z.to_nat (sc_width sc * sc_height sc) <= length image)%nat
  /\ In t1 (grid_threads cfg) /\ In t2 (grid_threads cfg)
  /\ exists image' : list Color,
       launch_checked (kernel_checked (H := echo_math) sc cfg) [t1; t2] image = Some image'
       /\ launch_checked (kernel_checked (H := echo_math) sc cfg) [t2; t1] image
          = Some image'
       /\ length image' = length image.
Proof.
  intros sc cfg t1 t2 image.
  assert (Hfit : size_fits (sc_width sc) (sc_height sc))
    by (unfold size_fits, INT_MAX; cbn; lia).
  assert (Hlen : (Z.to_nat (sc_width sc * sc_height sc) <= length image)%nat)
    by (vm_compute; lia).
  assert (H1 : In t1 (grid_threads cfg))
    by (apply in_grid_threads; vm_compute; intuition discriminate).
  assert (H2 : In t2 (grid_threads cfg))
    by (apply in_grid_threads; vm_compute; intuition discriminate).
  split; [exact Hfit|]. split; [exact Hlen|]. split; [exact H1|]. split; [exact H2|].
  exact (kernel_commute (H := echo_math) sc image t1 t2 Hfit Hlen H1 H2).
Defined.

(** ** The whole run *)

Section Run.
Context `{DeviceMath}.
Variable can_open : string -> bool.

Lemma console_say (msg : string) (m : machine) :
  console (outside (say msg m)) = console (outside m) ++ [msg].
Proof. reflexivity. Qed.

Lemma console_generate (f : fractal) (sched : list thread) (filename : string)
    (m : machine) :
  console (outside (generate can_open f sched filename m))
  = console (outside m) ++ [report can_open filename].
Proof. unfold generate; cbn [outside]. apply save_ppm_console. Qed.

Lemma image_size_line :
  ("Image size: " +:+ str_of_int WIDTH +:+ "x" +:+ str_of_int HEIGHT
   +:+ ", Max iterations: " +:+ str_of_int MAX_ITER +:+ nl)%string
  = ("Image size: 1920x1080, Max iterations: 1000" +:+ nl)%string.
Proof. vm_compute. reflexivity. Qed.

Opaque generate say.

(** X16.  A run of [main] makes the same seventeen outputs whatever the
    buffers held, whatever was on disk and in whatever order the threads
    ran: the two opening messages, then for each scene its announcement
    and the message of [save_ppm], and last the closing message, which
    says that all fractals were generated even when no file could be
    opened.  Together they hold nineteen newline characters: the first
    announcement and the closing message begin with one. *)
Theorem main_transcript (sched : nat -> list thread) (h0 d0 : list Color) (w0 : world) :
  console (outside (fst (main can_open sched h0 d0 w0)))
  = console w0 ++ transcript can_open
  /\ length (transcript can_open) = 17%nat
  /\ list_sum (map newlines (transcript can_open)) = 19%nat
  /\ last (console (outside (fst (main can_open sched h0 d0 w0))))
     = Some (nl +:+ "All fractals generated successfully!" +:+ nl)%string.
Proof.
  assert (Hc : console (outside (fst (main can_open sched h0 d0 w0)))
               = console w0 ++ transcript can_open).
  { unfold main. cbn [fst].
    rewrite image_size_line.
    repeat first [rewrite console_say | rewrite console_generate].
    cbn [outside console]. unfold transcript.
    rewrite <- !app_assoc. reflexivity. }
  split; [exact Hc|]. split; [reflexivity|]. split.
  - unfold transcript, report.
    repeat match goal with
      | |- context [can_open ?name] => destruct (can_open name)
      end; vm_compute; reflexivity.
  - rewrite Hc. unfold transcript.
    change (console w0 ++ ?a :: ?b :: ?c :: ?d :: ?e :: ?f :: ?g :: ?h :: ?i :: ?j :: ?k
              :: ?l :: ?m :: ?n :: ?o :: ?p :: [?q])
      with (console w0 ++ [a; b; c; d; e; f; g; h; i; j; k; l; m; n; o; p] ++ [q]).
    rewrite app_assoc. apply last_snoc.
Qed.

(** X17.  [main] never touches a file other than the seven it names. *)
Theorem main_other_files (sched : nat -> list thread) (h0 d0 : list Color) (w0 : world)
    (other : string) :
  ~ In other (map snd scenes) ->
  files (outside (fst (main can_open sched h0 d0 w0))) !! other = files w0 !! other.
Proof.
  intros Hn. unfold main. cbn [fst].
  repeat first
    [ rewrite say_files
    | rewrite generate_other
        by (intros <-; apply Hn; unfold scenes; cbn [map snd In]; auto 10) ].
  reflexivity.
Qed.

Transparent generate say.
End Run.

Lemma main_other_files_witness :
  let w0 := mk_world {[ "notes.txt"%string := [x68; x69] ]} [] in
  ~ In "notes.txt"%string (map snd scenes)
  /\ files (outside (fst (main (H := echo_math) (fun _ => true) (fun _ => []) [] [] w0)))
       !! "notes.txt"%string
     = files w0 !! "notes.txt"%string.
Proof.
  intros w0.
  assert (Hn : ~ In "notes.txt"%string (map snd scenes)).
  { unfold scenes. cbn [map snd In]. intros Hin.
    repeat (destruct Hin as [Hin|Hin]; [discriminate Hin|]). exact Hin. }
  split; [exact Hn|].
  exact (main_other_files (H := echo_math) (fun _ => true) (fun _ => []) [] [] w0
           "notes.txt"%string Hn).
Defined.

(** ** Reading the colours back *)

Lemma uchar_of_byte_of_uchar (n : Z) :
  0 <= n <= 255 -> uchar_of_byte (byte_of_uchar n) = n.
Proof.
  intros Hn. unfold uchar_of_byte, byte_of_uchar.
  rewrite Z.mod_small by lia.
  destruct (Byte.of_N (Z.to_N n)) as [b|] eqn:E.
  - apply Byte.to_of_N in E. rewrite E. lia.
  - apply Byte.of_N_None_iff in E. lia.
Qed.

Lemma colors_of_color_bytes (image : list Color) :
  Forall in_gamut image -> colors_of_bytes (flat_map color_bytes image) = image.
Proof.
  induction 1 as [|c image (Hr & Hg & Hb) _ IH]; [reflexivity|].
  cbn [flat_map color_bytes app colors_of_bytes].
  rewrite IH, !uchar_of_byte_of_uchar by assumption.
  now destruct c.
Qed.

Lemma read_ppm_bytes (image : list Color) (W H : Z) :
  0 <= W -> 0 <= H -> length image = Z.to_nat (W * H) -> Forall in_gamut image ->
  read_ppm (ppm_bytes image W H) = Some (W, H, image).
Proof.
  intros HW HH Hlen Hg. unfold read_ppm, ppm_bytes.
  rewrite fwrite_all by assumption.
  rewrite parse_ppm_header by assumption.
  cbn [ppm_width ppm_height ppm_payload].
  now rewrite colors_of_color_bytes.
Qed.

Section Decoding.
Context `{DeviceMath}.

Lemma pixel_in_gamut (sc : Scene) (x y : Z) : in_gamut (pixel sc x y).
Proof.
  unfold pixel, mandelbrot_pixel, julia_pixel, burning_ship_pixel, shade.
  destruct (sc_fractal sc); apply get_color_range.
Qed.

Lemma image_in_gamut (sc : Scene) : Forall in_gamut (image_of sc).
Proof.
  unfold image_of. apply List.Forall_forall. intros c Hc.
  apply in_map_iff in Hc as (i & <- & _). apply pixel_in_gamut.
Qed.

(** X18.  The file written for a scene determines its image: reading it back
    gives the width, the height and every colour of the rendered image,
    whatever the device math library returns.  So two scenes of one size
    whose files are equal have equal images. *)
Theorem scene_file_decodes (sc sc' : Scene) :
  0 <= sc_width sc -> 0 <= sc_height sc ->
  read_ppm (ppm_bytes (image_of sc) (sc_width sc) (sc_height sc))
  = Some (sc_width sc, sc_height sc, image_of sc)
  /\ (0 <= sc_width sc' -> 0 <= sc_height sc' ->
      ppm_bytes (image_of sc) (sc_width sc) (sc_height sc)
      = ppm_bytes (image_of sc') (sc_width sc') (sc_height sc') ->
      sc_width sc = sc_width sc' /\ sc_height sc = sc_height sc'
      /\ image_of sc = image_of sc').
Proof.
  intros Hw Hh.
  assert (Hread : forall s : Scene, 0 <= sc_width s -> 0 <= sc_height s ->
            read_ppm (ppm_bytes (image_of s) (sc_width s) (sc_height s))
            = Some (sc_width s, sc_height s, image_of s)).
  { intros s Hsw Hsh. apply read_ppm_bytes; try assumption.
    - apply image_of_length.
    - apply image_in_gamut. }
  split; [now apply Hread|].
  intros Hw' Hh' Heq.
  pose proof (Hread sc Hw Hh) as H1. pose proof (Hread sc' Hw' Hh') as H2.
  rewrite Heq, H2 in H1. now injection H1 as -> -> ->.
Qed.
End Decoding.

Lemma scene_file_decodes_witness :
  let sc := mk_scene scene6 3 2 40 in
  0 <= sc_width sc /\ 0 <= sc_height sc
  /\ read_ppm (ppm_bytes (image_of (H := echo_math) sc) (sc_width sc) (sc_height sc))
     = Some (sc_width sc, sc_height sc, image_of (H := echo_math) sc).
Proof.
  intros sc.
  assert (Hw : 0 <= sc_width sc) by (cbn; lia).
  assert (Hh : 0 <= sc_height sc) by (cbn; lia).
  split; [exact Hw|]. split; [exact Hh|].
  exact (proj1 (scene_file_decodes (H := echo_math) sc sc Hw Hh)).
Defined.

(** ** The Mandelbrot loop as a Julia loop *)

Lemma first_iterate_is_c (c : float2) :
  same_but_zero_signs (z_step Mandelbrot c origin) c.
Proof.
  apply same_but_zero_signs_iff.
  destruct c as [[[]|[]| |[] mx ex] [[]|[]| |[] my ey]]; split; reflexivity.
Qed.

(** The Mandelbrot loop from the origin is one transition ahead of the
    Julia loop of constant [c] started at [c]. *)
Lemma one_ahead (c : float2) (k : nat) :
  same_but_zero_signs
    (st_z (Nat.iter (S k) (body Mandelbrot c) (init_state origin)))
    (st_z (Nat.iter k (body Julia c) (init_state c)))
  /\ st_iter (Nat.iter (S k) (body Mandelbrot c) (init_state origin))
     = st_iter (Nat.iter k (body Julia c) (init_state c)) + 1
  /\ ((1 <= k)%nat ->
      st_mag_sq (Nat.iter (S k) (body Mandelbrot c) (init_state origin))
      = st_mag_sq (Nat.iter k (body Julia c) (init_state c))).
Proof.
  induction k as [|k (Hz & Hi & _)].
  - split; [apply first_iterate_is_c|]. split; [reflexivity|]. lia.
  - change (Nat.iter (S (S k)) (body Mandelbrot c) (init_state origin))
      with (body Mandelbrot c (Nat.iter (S k) (body Mandelbrot c) (init_state origin))).
    change (Nat.iter (S k) (body Julia c) (init_state c))
      with (body Julia c (Nat.iter k (body Julia c) (init_state c))).
    revert Hz Hi.
    generalize (Nat.iter (S k) (body Mandelbrot c) (init_state origin)).
    generalize (Nat.iter k (body Julia c) (init_state c)).
    intros sj sm Hz Hi. unfold body; cbn [st_z st_iter st_mag_sq].
    assert (Hs : same_but_zero_signs (z_step Mandelbrot c (st_z sm))
                   (z_step Julia c (st_z sj))).
    { exact (z_step_compat Mandelbrot (st_z sm) (st_z sj) c c Hz eq_refl). }
    split; [exact Hs|]. split; [now rewrite Hi|].
    intros _. now apply mag_compat.
Qed.

(** X19.  For a constant [c] with [|c|^2 < 16.0f], the Mandelbrot loop from the
    origin with cap [max_iter + 1] reports one iteration more than the
    Julia loop of constant [c] started at [c] with cap [max_iter], and the
    same final magnitude. *)
Theorem mandelbrot_as_julia (c : float2) (max_iter : Z) :
  1 <= max_iter ->
  F32.ltb (complex_mag_squared c) sixteen_f = true ->
  let m := escape_time Mandelbrot origin c (max_iter + 1) in
  let j := escape_time Julia c c max_iter in
  iterations m = iterations j + 1 /\ final_magnitude_sq m = final_magnitude_sq j.
Proof.
  intros Hmax Hin m j.
  destruct (escape_time_run Julia c c max_iter) as (n & _ & Hj & Hstop & Hbefore & _).
  assert (Hn : (1 <= n)%nat).
  { destruct n as [|n]; [|lia]. exfalso.
    change (loop_cond max_iter (init_state c) = false) in Hstop.
    unfold loop_cond, init_state in Hstop; cbn [st_iter st_mag_sq] in Hstop.
    replace (0 <? max_iter) with true in Hstop by (symmetry; apply Z.ltb_lt; lia).
    discriminate Hstop. }
  assert (Hcond : forall k : nat, (1 <= k)%nat ->
            loop_cond (max_iter + 1)
              (Nat.iter (S k) (body Mandelbrot c) (init_state origin))
            = loop_cond max_iter (Nat.iter k (body Julia c) (init_state c))).
  { intros k Hk. destruct (one_ahead c k) as (_ & Hi & Hm).
    unfold loop_cond. rewrite Hi, (Hm Hk). f_equal.
    destruct (Z.ltb_spec (st_iter (Nat.iter k (body Julia c) (init_state c)))
                max_iter);
      [apply Z.ltb_lt; lia | apply Z.ltb_ge; lia]. }
  assert (Hm : m = result_of (Nat.iter (S n) (body Mandelbrot c) (init_state origin))).
  { apply exit_index_unique.
    - rewrite (Hcond n Hn). exact Hstop.
    - intros k Hk. destruct k as [|[|k]].
      + unfold loop_cond, init_state; cbn [Nat.iter nat_rect st_iter st_mag_sq].
        replace (0 <? max_iter + 1) with true by (symmetry; apply Z.ltb_lt; lia).
        reflexivity.
      + change (Nat.iter 1 (body Mandelbrot c) (init_state origin))
          with (body Mandelbrot c (init_state origin)).
        unfold loop_cond, body, init_state; cbn [st_iter st_mag_sq st_z].
        replace (0 + 1 <? max_iter + 1) with true by (symmetry; apply Z.ltb_lt; lia).
        change (make_float2 zero_f zero_f) with origin.
        rewrite first_iterate_magnitude. now rewrite Hin.
      + rewrite (Hcond (S k)) by lia. apply Hbefore. lia. }
  destruct (one_ahead c n) as (_ & Hi & Hmag).
  unfold j. rewrite Hm, Hj. unfold result_of; cbn [iterations final_magnitude_sq].
  split.
  - rewrite Hi. now rewrite iter_body_iter.
  - now apply Hmag.
Qed.

Lemma mandelbrot_as_julia_witness :
  let c := make_float2 (F32.lit 3 10) (F32.lit 1 2) in
  1 <= 999
  /\ F32.ltb (complex_mag_squared c) sixteen_f = true
  /\ iterations (escape_time Mandelbrot origin c (999 + 1))
     = iterations (escape_time Julia c c 999) + 1
  /\ final_magnitude_sq (escape_time Mandelbrot origin c (999 + 1))
     = final_magnitude_sq (escape_time Julia c c 999).
Proof.
  intros c.
  assert (Hm : 1 <= 999) by lia.
  assert (Hin : F32.ltb (complex_mag_squared c) sixteen_f = true)
    by (vm_compute; reflexivity).
  split; [exact Hm|]. split; [exact Hin|].
  exact (mandelbrot_as_julia c 999 Hm Hin).
Defined.

(** ** Conversions to [unsigned char] that stay in range *)

Lemma bpow_pos (e : Z) : (0 < powerRZ 2 e)%R.
Proof. apply powerRZ_lt. lra. Qed.

Lemma bpow_add (a b : Z) : powerRZ 2 (a + b) = (powerRZ 2 a * powerRZ 2 b)%R.
Proof. apply powerRZ_add. lra. Qed.

Lemma bpow_Z (n : Z) : 0 <= n -> powerRZ 2 n = IZR (2 ^ n).
Proof.
  intros Hn. destruct n as [|p|p]; [reflexivity| |lia].
  unfold powerRZ. rewrite <- (positive_nat_Z p). now rewrite <- pow_IZR.
Qed.

Lemma bpow_le (a b : Z) : a <= b -> (powerRZ 2 a <= powerRZ 2 b)%R.
Proof.
  intros Hab. replace b with (a + (b - a)) by lia.
  rewrite bpow_add, (bpow_Z (b - a)) by lia.
  assert (H1 : (1 <= IZR (2 ^ (b - a)))%R).
  { apply IZR_le. pose proof (Z.pow_pos_nonneg 2 (b - a)). lia. }
  pose proof (bpow_pos a). nra.
Qed.

Lemma bpow_lt_inv (a b : Z) : (powerRZ 2 a < powerRZ 2 b)%R -> a < b.
Proof.
  intros Hlt. destruct (Z.lt_ge_cases a b) as [|Hge]; [assumption|].
  pose proof (bpow_le b a Hge). lra.
Qed.

Lemma F2R_shift (m e k : Z) : 0 <= k -> F2R (m * 2 ^ k) e = F2R m (e + k).
Proof.
  intros Hk. unfold F2R. rewrite mult_IZR, <- bpow_Z, bpow_add by assumption. ring.
Qed.

Lemma F2R_le (m m' e : Z) : m <= m' -> (F2R m e <= F2R m' e)%R.
Proof.
  intros Hm. unfold F2R. apply Rmult_le_compat_r; [left; apply bpow_pos | now apply IZR_le].
Qed.

Lemma F2R_le_inv (m m' e : Z) : (F2R m e <= F2R m' e)%R -> m <= m'.
Proof.
  unfold F2R. intros Hle. apply le_IZR.
  apply Rmult_le_reg_r with (powerRZ 2 e); [apply bpow_pos | assumption].
Qed.

Lemma F2R_floor (m e n : Z) : 0 <= n -> 0 <= m -> (F2R (m / 2 ^ n) (e + n) <= F2R m e)%R.
Proof.
  intros Hn Hm. rewrite <- F2R_shift by assumption. apply F2R_le.
  rewrite Z.mul_comm. apply Z.mul_div_le. apply Z.pow_pos_nonneg; lia.
Qed.

Lemma SF2R_finite (s : bool) (m : positive) (e : Z) :
  SF2R (S754_finite s m e)
  = (if s then - F2R (Zpos m) e else F2R (Zpos m) e)%R.
Proof.
  assert (Hv : match e with
               | Zneg p => (IZR (Zpos m) / IZR (2 ^ Zpos p))%R
               | _ => IZR (Zpos m * 2 ^ e)
               end = F2R (Zpos m) e).
  { unfold F2R. destruct e as [|p|p].
    - rewrite Z.pow_0_r, Z.mul_1_r. simpl. ring.
    - rewrite mult_IZR, <- bpow_Z by lia. reflexivity.
    - rewrite <- bpow_Z by lia.
      change (Zneg p) with (- Zpos p). rewrite powerRZ_neg' by lra.
      reflexivity. }
  unfold SF2R. now rewrite Hv.
Qed.

Lemma F2R_pos (m : positive) (e : Z) : (0 < F2R (Zpos m) e)%R.
Proof.
  unfold F2R. apply Rmult_lt_0_compat; [apply IZR_lt; lia | apply bpow_pos].
Qed.

Lemma shr_exact (n : nat) (m : Z) :
  0 <= m -> m mod 2 ^ Z.of_nat n = 0 ->
  Nat.iter n shr_1 (Build_shr_record m false false)
  = Build_shr_record (m / 2 ^ Z.of_nat n) false false.
Proof.
  intros Hm. induction n as [|n IH]; intros Hmod.
  - simpl. now rewrite Z.div_1_r.
  - rewrite Nat2Z.inj_succ, Z.pow_succ_r in * by lia.
    assert (Hp : 0 < 2 ^ Z.of_nat n) by (apply Z.pow_pos_nonneg; lia).
    assert (Hq : m = 2 * 2 ^ Z.of_nat n * (m / (2 * 2 ^ Z.of_nat n))).
    { pose proof (Z.div_mod m (2 * 2 ^ Z.of_nat n)). lia. }
    set (q := m / (2 * 2 ^ Z.of_nat n)) in *.
    assert (Hn : m / 2 ^ Z.of_nat n = 2 * q).
    { rewrite Hq at 1. rewrite <- Z.mul_assoc, (Z.mul_comm 2), <- Z.mul_assoc.
      rewrite Z.mul_comm, Z.div_mul by lia. lia. }
    rewrite Nat.iter_succ, IH.
    + rewrite Hn. assert (0 <= q) by (apply Z.div_pos; lia).
      destruct q as [|q|q]; [reflexivity | reflexivity | lia].
    + rewrite Hq. rewrite <- Z.mul_assoc, (Z.mul_comm 2), <- Z.mul_assoc.
      rewrite Z.mul_comm. apply Z.mod_mul. lia.
Qed.

Section Bound.
Variables prec emax : Z.

Lemma shr_fexp_exact (m e : Z) :
  0 <= m ->
  m mod 2 ^ Z.max 0 (fexp prec emax (Zdigits2 m + e) - e) = 0 ->
  loc_of_shr_record (fst (shr_fexp prec emax m e loc_Exact)) = loc_Exact.
Proof.
  intros Hm Hmod. unfold shr_fexp, shr.
  destruct (fexp prec emax (Zdigits2 m + e) - e) as [|p|p]; try reflexivity.
  cbn [fst shr_record_of_loc]. rewrite iter_pos_nat.
  rewrite shr_exact; [reflexivity | assumption |].
  rewrite positive_nat_Z. rewrite Z.max_r in Hmod by lia. exact Hmod.
Qed.

(** The magnitude of a number bounded by another. *)
Lemma digits_le (m mB : positive) (e eB : Z) :
  (F2R (Zpos m) e <= F2R (Zpos mB) eB)%R ->
  Zpos (digits2_pos m) + e <= Zpos (digits2_pos mB) + eB.
Proof.
  intros Hle.
  pose proof (digits2_bounds m) as [Hlo _].
  pose proof (digits2_bounds mB) as [_ Hhi].
  set (d := Zpos (digits2_pos m)) in *. set (dB := Zpos (digits2_pos mB)) in *.
  assert (H1 : (powerRZ 2 (d - 1 + e) <= F2R (Zpos m) e)%R).
  { rewrite bpow_add, (bpow_Z (d - 1)) by (unfold d; lia).
    apply F2R_le. exact Hlo. }
  assert (H2 : (F2R (Zpos mB) eB < powerRZ 2 (dB + eB))%R).
  { rewrite bpow_add, (bpow_Z dB) by (unfold dB; lia). unfold F2R.
    apply Rmult_lt_compat_r; [apply bpow_pos | now apply IZR_lt]. }
  assert (H3 : d - 1 + e < dB + eB) by (apply bpow_lt_inv; lra).
  lia.
Qed.

(** Rounding to nearest does not pass a number of the format. *)
Lemma round_below (m mB : positive) (e eB : Z) :
  eB = fexp prec emax (Zpos (digits2_pos mB) + eB) ->
  (F2R (Zpos m) e <= F2R (Zpos mB) eB)%R ->
  let '(mrs, e1) := shr_fexp prec emax (Zpos m) e loc_Exact in
  let m2 := round_nearest_even (shr_m mrs) (loc_of_shr_record mrs) in
  0 <= m2 /\ (F2R m2 e1 <= F2R (Zpos mB) eB)%R.
Proof.
  intros HB Hle.
  pose proof (shr_fexp_spec prec emax (Zpos m) e loc_Exact ltac:(lia)) as [Hm1 He1].
  pose proof (shr_fexp_exact (Zpos m) e ltac:(lia)) as Hex.
  destruct (shr_fexp prec emax (Zpos m) e loc_Exact) as [mrs e1].
  cbn [fst snd] in *. cbn [Zdigits2] in *.
  set (n := Z.max 0 (fexp prec emax (Zpos (digits2_pos m) + e) - e)) in *.
  assert (Hp : 0 < 2 ^ n) by (apply Z.pow_pos_nonneg; lia).
  assert (H1 : 0 <= shr_m mrs) by (rewrite Hm1; apply Z.div_pos; lia).
  pose proof (round_nearest_even_bounds (shr_m mrs) (loc_of_shr_record mrs)) as Hr.
  split; [lia|].
  destruct (Z.eq_dec (Zpos m mod 2 ^ n) 0) as [Hz|Hnz].
  - (* exact: no rounding *)
    rewrite (Hex Hz). cbn [round_nearest_even].
    rewrite Hm1, He1. etransitivity; [apply F2R_floor; lia | exact Hle].
  - (* inexact: the bound is on the grid of the result *)
    assert (Hn : 0 < n).
    { destruct (Z.eq_dec n 0) as [E|]; [|lia]. rewrite E in Hnz. simpl in Hnz.
      rewrite Z.mod_1_r in Hnz. contradiction. }
    pose proof (digits_le m mB e eB Hle) as Hd.
    assert (HeB : e1 <= eB).
    { rewrite He1, HB. unfold n, fexp in *. lia. }
    replace eB with (e1 + (eB - e1)) in Hle |- * by lia.
    rewrite <- F2R_shift in Hle |- * by lia.
    set (G := Zpos mB * 2 ^ (eB - e1)) in *.
    apply F2R_le.
    rewrite He1, <- F2R_shift in Hle by lia.
    apply F2R_le_inv in Hle.
    pose proof (Z.div_mod (Zpos m) (2 ^ n) ltac:(lia)) as Hdm.
    pose proof (Z.mod_pos_bound (Zpos m) (2 ^ n) Hp) as Hmb.
    rewrite <- Hm1 in Hdm.
    assert (shr_m mrs < G) by nia.
    lia.
Qed.
End Bound.

Lemma shift_value (m p : positive) : Zpos (Pos.iter xO m p) = Zpos m * 2 ^ Zpos p.
Proof.
  induction p as [|p IH] using Pos.peano_ind.
  - simpl. lia.
  - rewrite Pos.iter_succ, Pos2Z.inj_xO, IH, Pos2Z.inj_succ, Z.pow_succ_r by lia. lia.
Qed.

Lemma shl_align_F2R (m : positive) (e e' : Z) :
  F2R (Zpos (fst (shl_align m e e'))) (snd (shl_align m e e')) = F2R (Zpos m) e.
Proof.
  unfold shl_align. destruct (e' - e) as [|d|d] eqn:E; try reflexivity.
  cbn [fst snd]. rewrite shift_value, F2R_shift by lia. f_equal. lia.
Qed.

Lemma shl_align_snd (m : positive) (e e' : Z) :
  e' <= e -> snd (shl_align m e e') = e'.
Proof.
  intros He. unfold shl_align. destruct (e' - e) as [|d|d] eqn:E; cbn [snd]; lia.
Qed.

Lemma F2R_plus (a b e : Z) : F2R (a + b) e = (F2R a e + F2R b e)%R.
Proof. unfold F2R. rewrite plus_IZR. ring. Qed.

Lemma F2R_cond_Zopp (s : bool) (m e : Z) :
  F2R (cond_Zopp s m) e = (if s then - F2R m e else F2R m e)%R.
Proof. unfold F2R. destruct s; cbn [cond_Zopp]; [rewrite opp_IZR; ring | reflexivity]. Qed.

Lemma F2R_mult (m m' e e' : Z) : F2R (m * m') (e + e') = (F2R m e * F2R m' e')%R.
Proof. unfold F2R. rewrite mult_IZR, bpow_add. ring. Qed.

Lemma Rabs_SF2R_finite (s : bool) (m : positive) (e : Z) :
  Rabs (SF2R (S754_finite s m e)) = F2R (Zpos m) e.
Proof.
  rewrite SF2R_finite. pose proof (F2R_pos m e).
  destruct s; [rewrite Rabs_Ropp|]; apply Rabs_pos_eq; lra.
Qed.

Lemma SF2R_opp (x : spec_float) : SF2R (SFopp x) = (- SF2R x)%R.
Proof.
  destruct x as [s|s| |s m e]; cbn [SFopp]; try (simpl; lra).
  rewrite !SF2R_finite. destruct s; cbn [negb]; lra.
Qed.

Lemma is_finite_opp (x : spec_float) : is_finite (SFopp x) = is_finite x.
Proof. now destruct x. Qed.

Section Bounds.
Variables prec emax : Z.
Variables (mB : positive) (eB : Z).
Hypothesis canonical_bound : eB = fexp prec emax (Zpos (digits2_pos mB) + eB).
Hypothesis small_bound : Zpos (digits2_pos mB) + eB <= emax - prec + 1.

Lemma binary_round_aux_le (s : bool) (m : positive) (e : Z) :
  (F2R (Zpos m) e <= F2R (Zpos mB) eB)%R ->
  binary_round_aux prec emax s (Zpos m) e loc_Exact = S754_zero s
  \/ exists (m3 : positive) (e3 : Z),
       binary_round_aux prec emax s (Zpos m) e loc_Exact = S754_finite s m3 e3
       /\ (F2R (Zpos m3) e3 <= F2R (Zpos mB) eB)%R.
Proof.
  intros Hle. unfold binary_round_aux.
  pose proof (round_below prec emax m mB e eB canonical_bound Hle) as Hrb.
  destruct (shr_fexp prec emax (Zpos m) e loc_Exact) as [mrs e1].
  set (m2 := round_nearest_even (shr_m mrs) (loc_of_shr_record mrs)) in *.
  destruct Hrb as [H2 Hle2].
  pose proof (shr_fexp_spec prec emax m2 e1 loc_Exact H2) as [Hm3 He3].
  destruct (shr_fexp prec emax m2 e1 loc_Exact) as [mrs3 e3]. cbn [fst snd] in *.
  set (n := Z.max 0 (fexp prec emax (Zdigits2 m2 + e1) - e1)) in *.
  assert (Hfl : (F2R (shr_m mrs3) e3 <= F2R (Zpos mB) eB)%R).
  { rewrite Hm3, He3. etransitivity; [apply F2R_floor; lia | exact Hle2]. }
  assert (H3 : 0 <= shr_m mrs3).
  { rewrite Hm3. apply Z.div_pos; [lia | apply Z.pow_pos_nonneg; lia]. }
  destruct (shr_m mrs3) as [|m3|m3]; [now left | | lia].
  right. exists m3, e3.
  destruct (e3 <=? emax - prec) eqn:Ee; [now split|]. exfalso.
  apply Z.leb_gt in Ee.
  pose proof (digits2_bounds mB) as [_ Hhi].
  assert (Ha : (powerRZ 2 e3 <= F2R (Zpos m3) e3)%R).
  { unfold F2R. pose proof (bpow_pos e3).
    assert (1 <= IZR (Zpos m3))%R by (apply IZR_le; lia). nra. }
  assert (Hb : (F2R (Zpos mB) eB < powerRZ 2 (Zpos (digits2_pos mB) + eB))%R).
  { rewrite bpow_add, (bpow_Z (Zpos (digits2_pos mB))) by lia. unfold F2R.
    apply Rmult_lt_compat_r; [apply bpow_pos | now apply IZR_lt]. }
  assert (Hc : e3 < Zpos (digits2_pos mB) + eB) by (apply bpow_lt_inv; lra).
  lia.
Qed.

Lemma binary_round_le (s : bool) (m : positive) (e : Z) :
  (F2R (Zpos m) e <= F2R (Zpos mB) eB)%R ->
  binary_round prec emax s m e = S754_zero s
  \/ exists (m3 : positive) (e3 : Z),
       binary_round prec emax s m e = S754_finite s m3 e3
       /\ (F2R (Zpos m3) e3 <= F2R (Zpos mB) eB)%R.
Proof.
  intros Hle. unfold binary_round.
  pose proof (shl_align_F2R m e (fexp prec emax (Zpos (digits2_pos m) + e))) as Hv.
  destruct (shl_align m e (fexp prec emax (Zpos (digits2_pos m) + e))) as [mz ez].
  cbn [fst snd] in Hv. apply binary_round_aux_le. now rewrite Hv.
Qed.

(** A product whose exact value is within the bound is rounded to a
    finite number within the bound, with the sign of the exact product. *)
Lemma SFmul_bound (x y : spec_float) :
  is_finite x = true -> is_finite y = true ->
  (Rabs (SF2R x) * Rabs (SF2R y) <= F2R (Zpos mB) eB)%R ->
  is_finite (SFmul prec emax x y) = true
  /\ (Rabs (SF2R (SFmul prec emax x y)) <= F2R (Zpos mB) eB)%R
  /\ ((0 <= SF2R x * SF2R y)%R -> (0 <= SF2R (SFmul prec emax x y))%R).
Proof.
  pose proof (F2R_pos mB eB) as HB.
  destruct x as [sx|sx| |sx mx ex], y as [sy|sy| |sy my ey]; try discriminate;
    intros _ _ Hle;
    try (cbn [SFmul SF2R is_finite]; rewrite Rabs_R0;
         split; [reflexivity | split; [lra | intros _; lra]]).
  rewrite !Rabs_SF2R_finite, <- F2R_mult in Hle.
  cbn [SFmul].
  change (Zpos mx * Zpos my) with (Zpos (mx * my)) in Hle.
  destruct (binary_round_aux_le (xorb sx sy) (mx * my) (ex + ey) Hle)
    as [->|(m3 & e3 & -> & H3)].
  - cbn [SF2R is_finite]. rewrite Rabs_R0.
    split; [reflexivity | split; [lra | intros _; lra]].
  - rewrite Rabs_SF2R_finite. split; [reflexivity|]. split; [exact H3|].
    rewrite !SF2R_finite. pose proof (F2R_pos m3 e3).
    pose proof (F2R_pos mx ex). pose proof (F2R_pos my ey).
    destruct sx, sy; cbn [xorb]; intros Hs; nra.
Qed.

(** A sum whose exact value is between zero and the bound is rounded to a
    finite number between zero and the bound. *)
Lemma SFadd_bound (x y : spec_float) :
  is_finite x = true -> is_finite y = true ->
  (0 <= SF2R x + SF2R y <= F2R (Zpos mB) eB)%R ->
  is_finite (SFadd prec emax x y) = true
  /\ (0 <= SF2R (SFadd prec emax x y) <= F2R (Zpos mB) eB)%R.
Proof.
  pose proof (F2R_pos mB eB) as HB.
  destruct x as [sx|sx| |sx mx ex], y as [sy|sy| |sy my ey]; try discriminate;
    intros _ _ Hle.
  - destruct sx, sy; cbn [SFadd SF2R is_finite]; split; try reflexivity; lra.
  - cbn [SFadd]. split; [reflexivity|]. cbn [SF2R] in Hle |- *. lra.
  - cbn [SFadd]. split; [reflexivity|]. cbn [SF2R] in Hle |- *. lra.
  - cbn [SFadd].
    set (ez := Z.min ex ey) in *.
    pose proof (shl_align_F2R mx ex ez) as Hx. pose proof (shl_align_F2R my ey ez) as Hy.
    rewrite shl_align_snd in Hx, Hy by (unfold ez; lia).
    set (M := cond_Zopp sx (Zpos (fst (shl_align mx ex ez)))
              + cond_Zopp sy (Zpos (fst (shl_align my ey ez)))).
    assert (HM : F2R M ez = (SF2R (S754_finite sx mx ex) + SF2R (S754_finite sy my ey))%R).
    { unfold M. rewrite F2R_plus, !F2R_cond_Zopp, Hx, Hy, !SF2R_finite. reflexivity. }
    rewrite <- HM in Hle. clearbody M.
    destruct M as [|p|p]; cbn [binary_normalize].
    + cbn [SF2R is_finite]. split; [reflexivity | lra].
    + destruct (binary_round_le false p ez (proj2 Hle)) as [->|(m3 & e3 & -> & H3)].
      * cbn [SF2R is_finite]. split; [reflexivity | lra].
      * split; [reflexivity|]. rewrite SF2R_finite. pose proof (F2R_pos m3 e3). lra.
    + exfalso. pose proof (F2R_pos p ez) as Hp.
      change (Zneg p) with (- Zpos p) in Hle.
      unfold F2R in Hle, Hp. rewrite opp_IZR in Hle. lra.
Qed.
End Bounds.

Lemma SFsub_as_add (prec emax : Z) (x y : spec_float) :
  SFsub prec emax x y = SFadd prec emax x (SFopp y).
Proof. rewrite <- SFsub_opp. now rewrite SFopp_invol. Qed.

(** The truncation of a finite number from 0 to 255 is a value of
    [unsigned char]. *)
Lemma checked_uchar_defined (x : spec_float) :
  between 0 255 x ->
  exists n : Z, checked_uchar x = Some n /\ trunc_Z x = Some n /\ 0 <= n <= 255.
Proof.
  intros [Hf [Hlo Hhi]]. unfold checked_uchar.
  destruct x as [s|s| |s m e]; try discriminate.
  - exists 0. cbn [trunc_Z]. repeat split; lia.
  - destruct s.
    { exfalso. rewrite SF2R_finite in Hlo. pose proof (F2R_pos m e). lra. }
    cbn [trunc_Z cond_Zopp]. cbn [SF2R] in Hhi.
    assert (Hn : 0 <= match e with
                      | Zneg p => Zpos m / 2 ^ Zpos p
                      | _ => Zpos m * 2 ^ e
                      end <= 255).
    { destruct e as [|p|p].
      - apply le_IZR in Hhi. lia.
      - apply le_IZR in Hhi. lia.
      - assert (Hp : 0 < 2 ^ Zpos p) by (apply Z.pow_pos_nonneg; lia).
        split; [apply Z.div_pos; lia|].
        assert (Hle : (IZR (Zpos m) <= IZR (255 * 2 ^ Zpos p))%R).
        { rewrite mult_IZR. apply IZR_lt in Hp.
          apply Rmult_le_reg_r with (/ IZR (2 ^ Zpos p))%R;
            [now apply Rinv_0_lt_compat|].
          rewrite Rmult_assoc, Rinv_r by lra. unfold Rdiv in Hhi. lra. }
        apply le_IZR in Hle.
        apply Z.div_le_upper_bound; lia. }
    eexists. split; [|split; [reflexivity | exact Hn]].
    replace ((0 <=? _) && (_ <=? 255)) with true; [reflexivity|].
    symmetry. apply andb_true_iff. split; apply Z.leb_le; lia.
Qed.

Lemma half_f_shape : half_f = S754_finite false 8388608 (-24).
Proof. vm_compute. reflexivity. Qed.

Lemma one_f_shape : one_f = S754_finite false 8388608 (-23).
Proof. vm_compute. reflexivity. Qed.

Lemma byte_max_shape : F32.of_int 255 = S754_finite false 16711680 (-16).
Proof. vm_compute. reflexivity. Qed.

Lemma F2R_neg_exp (m : Z) (p : positive) :
  F2R m (Zneg p) = (IZR m / IZR (2 ^ Zpos p))%R.
Proof.
  unfold F2R. change (Zneg p) with (- Zpos p).
  rewrite powerRZ_neg', bpow_Z by lia. reflexivity.
Qed.

Lemma F2R_half : F2R 8388608 (-24) = (/ 2)%R.
Proof. rewrite F2R_neg_exp. change (2 ^ 24) with 16777216. lra. Qed.

Lemma F2R_one : F2R 8388608 (-23) = 1%R.
Proof. rewrite F2R_neg_exp. change (2 ^ 23) with 8388608. lra. Qed.

Lemma F2R_byte_max : F2R 16711680 (-16) = 255%R.
Proof. rewrite F2R_neg_exp. change (2 ^ 16) with 65536. lra. Qed.

Lemma SF2R_half : SF2R half_f = (/ 2)%R.
Proof. rewrite half_f_shape, SF2R_finite. apply F2R_half. Qed.

Lemma SF2R_one : SF2R one_f = 1%R.
Proof. rewrite one_f_shape, SF2R_finite. apply F2R_one. Qed.

Lemma SF2R_byte_max : SF2R (F32.of_int 255) = 255%R.
Proof. rewrite byte_max_shape, SF2R_finite. apply F2R_byte_max. Qed.

Lemma Rabs_le_1 (x : R) : (-1 <= x <= 1)%R -> (Rabs x <= 1)%R.
Proof. intros Hx. apply Rabs_le. lra. Qed.

Lemma Rabs_le_inv (x b : R) : (Rabs x <= b)%R -> (- b <= x <= b)%R.
Proof.
  intros Hx. pose proof (Rle_abs x). pose proof (Rle_abs (- x)) as Hn.
  rewrite Rabs_Ropp in Hn. lra.
Qed.

(** [0.5f + 0.5f * s] stays between 0 and 1 when [s] is between -1 and 1. *)
Lemma wave_between (s : spec_float) : between (-1) 1 s -> between 0 1 (wave s).
Proof.
  intros [Hf Hs]. unfold wave, F32.add, F32.mul.
  destruct (SFmul_bound F32.prec F32.emax 8388608 (-24) eq_refl
              ltac:(vm_compute; discriminate) half_f s eq_refl Hf)
    as (Hhf & Hha & _).
  { rewrite SF2R_half, F2R_half. pose proof (Rabs_le_1 _ Hs).
    rewrite (Rabs_pos_eq (/ 2)) by lra. lra. }
  rewrite F2R_half in Hha. apply Rabs_le_inv in Hha.
  destruct (SFadd_bound F32.prec F32.emax 8388608 (-23) eq_refl
              ltac:(vm_compute; discriminate) half_f
              (SFmul F32.prec F32.emax half_f s) eq_refl Hhf) as [Hrf Hr].
  { rewrite SF2R_half, F2R_one. lra. }
  rewrite F2R_one in Hr. split; assumption.
Qed.

(** [1.0f - e] stays between 0 and 1 when [e] is. *)
Lemma brightness_between (e : spec_float) :
  between 0 1 e -> between 0 1 (F32.sub one_f e).
Proof.
  intros [Hf He]. unfold F32.sub. rewrite SFsub_as_add.
  destruct (SFadd_bound F32.prec F32.emax 8388608 (-23) eq_refl
              ltac:(vm_compute; discriminate) one_f (SFopp e) eq_refl
              ltac:(now rewrite is_finite_opp)) as [Hrf Hr].
  { rewrite SF2R_one, SF2R_opp, F2R_one. lra. }
  rewrite F2R_one in Hr. split; assumption.
Qed.

(** [255 * r * brightness] stays between 0 and 255. *)
Lemma scaled_between (r br : spec_float) :
  between 0 1 r -> between 0 1 br ->
  between 0 255 (F32.mul (F32.mul (F32.of_int 255) r) br).
Proof.
  intros [Hrf Hr] [Hbf Hb]. unfold F32.mul.
  destruct (SFmul_bound F32.prec F32.emax 16711680 (-16) eq_refl
              ltac:(vm_compute; discriminate) (F32.of_int 255) r eq_refl Hrf)
    as (Haf & Haa & Has).
  { rewrite SF2R_byte_max, F2R_byte_max.
    rewrite (Rabs_pos_eq 255), (Rabs_pos_eq (SF2R r)) by lra. lra. }
  rewrite SF2R_byte_max in Has. specialize (Has ltac:(nra)).
  rewrite F2R_byte_max in Haa. rewrite Rabs_pos_eq in Haa by assumption.
  destruct (SFmul_bound F32.prec F32.emax 16711680 (-16) eq_refl
              ltac:(vm_compute; discriminate)
              (SFmul F32.prec F32.emax (F32.of_int 255) r) br Haf Hbf)
    as (Hcf & Hca & Hcs).
  { rewrite F2R_byte_max. rewrite !Rabs_pos_eq by lra. nra. }
  specialize (Hcs ltac:(nra)).
  rewrite F2R_byte_max in Hca. rewrite Rabs_pos_eq in Hca by assumption.
  split; [assumption | lra].
Qed.

Section ColourRange.
Context `{DeviceMath}.

Lemma channel_defined (r br : spec_float) :
  between 0 1 r -> between 0 1 br ->
  checked_uchar (F32.mul (F32.mul (F32.of_int 255) r) br) = Some (channel r br).
Proof.
  intros Hr Hb.
  destruct (checked_uchar_defined _ (scaled_between r br Hr Hb)) as (n & Hc & Ht & Hn).
  rewrite Hc. f_equal. unfold channel, uchar_of_float. rewrite Ht.
  replace ((0 <=? n) && (n <=? 255)) with true; [reflexivity|].
  symmetry. apply andb_true_iff. split; apply Z.leb_le; lia.
Qed.

(** X20.  In [get_color], when the three sines are finite numbers from -1 to 1
    and the exponential is a finite number from 0 to 1, each of the three
    products [255 * r * brightness] is a finite number from 0 to 255: its
    conversion to [unsigned char] is defined and is the channel stored. *)
Theorem get_color_defined (max_iter iter : Z) (smooth_iter : spec_float) :
  iter <> max_iter ->
  let t := F32.mul (F32.add (F32.of_int iter) smooth_iter) rate_f in
  let e := expf (F32.mul (F32.opp decay_f) (F32.of_int iter)) in
  let brightness := F32.sub one_f e in
  let value (s : spec_float) :=
    F32.mul (F32.mul (F32.of_int 255) (F32.add half_f (F32.mul half_f s))) brightness in
  between (-1) 1 (sinf t) ->
  between (-1) 1 (sinf (F32.add t phase_g)) ->
  between (-1) 1 (sinf (F32.add t phase_b)) ->
  between 0 1 e ->
  let col := get_color max_iter iter smooth_iter in
  checked_uchar (value (sinf t)) = Some (red col)
  /\ checked_uchar (value (sinf (F32.add t phase_g))) = Some (green col)
  /\ checked_uchar (value (sinf (F32.add t phase_b))) = Some (blue col).
Proof.
  intros Hne t e brightness value Hr Hg Hb He col.
  pose proof (brightness_between e He) as Hbr.
  unfold col, get_color. apply Z.eqb_neq in Hne. rewrite Hne.
  cbn [red green blue].
  split; [|split]; apply channel_defined; try assumption; now apply wave_between.
Qed.
End ColourRange.

Lemma get_color_defined_witness :
  let t := F32.mul (F32.add (F32.of_int 7) zero_f) rate_f in
  let e := expf (DeviceMath := flat_math) (F32.mul (F32.opp decay_f) (F32.of_int 7)) in
  7 <> MAX_ITER
  /\ between (-1) 1 (sinf (DeviceMath := flat_math) t)
  /\ between 0 1 e
  /\ checked_uchar
       (F32.mul (F32.mul (F32.of_int 255)
                   (F32.add half_f (F32.mul half_f (sinf (DeviceMath := flat_math) t))))
          (F32.sub one_f e))
     = Some (red (get_color (H := flat_math) MAX_ITER 7 zero_f)).
Proof.
  intros t e.
  assert (Hne : 7 <> MAX_ITER) by discriminate.
  assert (Hs : between (-1) 1 (F32.opp one_f)).
  { split; [reflexivity|]. unfold F32.opp. rewrite SF2R_opp, SF2R_one. lra. }
  assert (He : between 0 1 half_f).
  { split; [reflexivity|]. rewrite SF2R_half. lra. }
  split; [exact Hne|]. split; [exact Hs|]. split; [exact He|].
  exact (proj1 (get_color_defined (H := flat_math) MAX_ITER 7 zero_f Hne Hs Hs Hs He)).
Defined.

(** ** Two runs of the program *)

Section Reruns.
Context `{DeviceMath}.
Variable can_open : string -> bool.

Lemma generate_agree (f : fractal) (sched sched' : list thread) (filename : string)
    (m m' : machine) :
  buffers_ok m -> buffers_ok m' -> outside m = outside m' ->
  Permutation sched (grid_threads (cfg_of WIDTH HEIGHT)) ->
  Permutation sched' (grid_threads (cfg_of WIDTH HEIGHT)) ->
  generate can_open f sched filename m = generate can_open f sched' filename m'.
Proof.
  intros Hm Hm' Hout Hs Hs'. rewrite !generate_image by assumption. now rewrite Hout.
Qed.

Lemma say_agree (msg : string) (m m' : machine) :
  outside m = outside m' -> outside (say msg m) = outside (say msg m').
Proof. intros Hout. unfold say; cbn [outside]. now rewrite Hout. Qed.

(** A launch that runs no thread leaves the device buffer as it was; the
    copy and [save_ppm] then write that buffer. *)
Lemma generate_stale (f : fractal) (filename : string) (m : machine) :
  buffers_ok m -> can_open filename = true ->
  files (outside (generate can_open f [] filename m)) !! filename
  = Some (ppm_bytes (d_image m) WIDTH HEIGHT).
Proof.
  intros [Hd Hh] Hco. unfold generate. cbn [outside].
  rewrite save_ppm_same, Hco.
  change (render (mk_scene f WIDTH HEIGHT MAX_ITER) [] (d_image m)) with (d_image m).
  generalize dependent (Z.to_nat (WIDTH * HEIGHT)). intros N Hd Hh.
  rewrite firstn_all2, skipn_all2 by (rewrite ?Hd, ?Hh; apply Nat.le_refl).
  now rewrite app_nil_r.
Qed.

Lemma say_buffers (msg : string) (m : machine) :
  d_image (say msg m) = d_image m /\ h_image (say msg m) = h_image m.
Proof. split; reflexivity. Qed.

Opaque generate say render image_of ppm_bytes.

(** X25.  The program checks no error of a launch.  If the first launch
    runs no thread, the first file, when it can be opened, is written
    all the same and holds the contents that the device buffer had after
    its allocation, whatever they were; [main] goes on and returns 0. *)
Theorem unchecked_launch_failure (sched : nat -> list thread)
    (h0 d0 : list Color) (w0 : world) :
  sched 1%nat = [] ->
  length h0 = Z.to_nat (WIDTH * HEIGHT) -> length d0 = Z.to_nat (WIDTH * HEIGHT) ->
  can_open "mandelbrot_classic.ppm" = true ->
  files (outside (fst (main can_open sched h0 d0 w0))) !! "mandelbrot_classic.ppm"%string
  = Some (ppm_bytes d0 WIDTH HEIGHT)
  /\ snd (main can_open sched h0 d0 w0) = 0.
Proof.
  intros Hs Hh Hd Hco. split; [|reflexivity].
  unfold main. cbn [fst]. rewrite Hs.
  repeat first [rewrite say_files | rewrite generate_other by discriminate].
  rewrite generate_stale; [|split|exact Hco].
  - now rewrite !(proj1 (say_buffers _ _)).
  - now rewrite !(proj1 (say_buffers _ _)).
  - now rewrite !(proj2 (say_buffers _ _)).
Qed.

(** X21.  Provided that both allocations gave buffers of [WIDTH * HEIGHT]
    colours and that each of the seven launches ran every thread of the
    grid, in whatever order (the program checks neither), the final
    state of [main] (the files, the console, both buffers) and its exit
    status depend neither on the order of the threads nor on what the two
    buffers held after their allocation. *)
Theorem main_reproducible (sched sched' : nat -> list thread)
    (h0 d0 h0' d0' : list Color) (w0 : world) :
  (forall k : nat, Permutation (sched k) (grid_threads (cfg_of WIDTH HEIGHT))) ->
  (forall k : nat, Permutation (sched' k) (grid_threads (cfg_of WIDTH HEIGHT))) ->
  length h0 = Z.to_nat (WIDTH * HEIGHT) -> length d0 = Z.to_nat (WIDTH * HEIGHT) ->
  length h0' = Z.to_nat (WIDTH * HEIGHT) -> length d0' = Z.to_nat (WIDTH * HEIGHT) ->
  main can_open sched h0 d0 w0 = main can_open sched' h0' d0' w0.
Proof.
  intros Hs Hs' Hh Hd Hh' Hd'.
  assert (H0 : buffers_ok (mk_machine d0 h0 w0)) by (split; assumption).
  assert (H0' : buffers_ok (mk_machine d0' h0' w0)) by (split; assumption).
  unfold main. apply (f_equal (fun m => (m, 0))). apply (f_equal (say _)).
  repeat match goal with
    | |- generate _ _ _ _ _ = generate _ _ _ _ _ =>
        apply generate_agree; [buffers_tac | buffers_tac | | solve [auto] | solve [auto]]
    | |- outside (say _ _) = outside (say _ _) => apply say_agree
    | |- outside (generate _ _ _ _ _) = outside (generate _ _ _ _ _) =>
        apply (f_equal outside)
    end.
  reflexivity.
Qed.

Transparent generate say render image_of ppm_bytes.
End Reruns.

Lemma main_reproducible_witness :
  let grid := grid_threads (cfg_of WIDTH HEIGHT) in
  let sched := fun _ : nat => grid in
  let sched' := fun _ : nat => rev grid in
  let blank := repeat (mk_color 0 0 0) (Z.to_nat (WIDTH * HEIGHT)) in
  let stale := repeat (mk_color 9 9 9) (Z.to_nat (WIDTH * HEIGHT)) in
  (forall k : nat, Permutation (sched k) grid)
  /\ (forall k : nat, Permutation (sched' k) grid)
  /\ length blank = Z.to_nat (WIDTH * HEIGHT)
  /\ length stale = Z.to_nat (WIDTH * HEIGHT)
  /\ main (H := echo_math) (fun _ => true) sched blank blank (mk_world ∅ [])
     = main (H := echo_math) (fun _ => true) sched' stale stale (mk_world ∅ []).
Proof.
  intros grid sched sched' blank stale.
  assert (Hs : forall k : nat, Permutation (sched k) grid)
    by (intros k; apply Permutation_refl).
  assert (Hs' : forall k : nat, Permutation (sched' k) grid)
    by (intros k; apply Permutation_sym, Permutation_rev).
  assert (Hb : length blank = Z.to_nat (WIDTH * HEIGHT)) by apply repeat_length.
  assert (Hl : length stale = Z.to_nat (WIDTH * HEIGHT)) by apply repeat_length.
  split; [exact Hs|]. split; [exact Hs'|]. split; [exact Hb|]. split; [exact Hl|].
  exact (main_reproducible (H := echo_math) (fun _ => true) sched sched'
           blank blank stale stale (mk_world ∅ []) Hs Hs' Hb Hb Hl Hl).
Defined.

Lemma unchecked_launch_failure_witness :
  let sched := fun _ : nat => @nil thread in
  let stale := repeat (mk_color 9 9 9) (Z.to_nat (WIDTH * HEIGHT)) in
  let final := main (H := echo_math) (fun _ => true) sched stale stale (mk_world ∅ []) in
  sched 1%nat = []
  /\ length stale = Z.to_nat (WIDTH * HEIGHT)
  /\ files (outside (fst final)) !! "mandelbrot_classic.ppm"%string
     = Some (ppm_bytes stale WIDTH HEIGHT).
Proof.
  intros sched stale final.
  assert (Hs : sched 1%nat = []) by reflexivity.
  assert (Hl : length stale = Z.to_nat (WIDTH * HEIGHT)) by apply repeat_length.
  split; [exact Hs|]. split; [exact Hl|].
  exact (proj1 (unchecked_launch_failure (H := echo_math) (fun _ => true) sched
                  stale stale (mk_world ∅ []) Hs Hl Hl eq_refl)).
Defined.

(** ** A magnitude that is not a number *)

Lemma add_nan_r (x : spec_float) : F32.add x S754_nan = S754_nan.
Proof. now destruct x. Qed.

Lemma add_nan_l (x : spec_float) : F32.add S754_nan x = S754_nan.
Proof. reflexivity. Qed.

Lemma mul_nan_r (x : spec_float) : F32.mul x S754_nan = S754_nan.
Proof. now destruct x. Qed.

Lemma mul_nan_l (x : spec_float) : F32.mul S754_nan x = S754_nan.
Proof. reflexivity. Qed.

Section Undefined.
Context `{DeviceMath}.

(** X22.  When the library's logarithm and sine map a value that is not a
    number to itself, a pixel whose loop stopped below the cap with a
    magnitude that is not a number (an iterate overflowed) gets no colour
    from the language: the three products [255 * r * brightness] are not
    numbers, their conversion to [unsigned char] is not defined, and each
    channel is whatever that conversion yields. *)
Theorem nan_magnitude_colour (max_iter : Z) (res : escape_result) :
  logf S754_nan = S754_nan -> sinf S754_nan = S754_nan ->
  iterations res < max_iter -> final_magnitude_sq res = S754_nan ->
  smooth_iter_of max_iter res = S754_nan
  /\ checked_uchar S754_nan = None
  /\ shade max_iter res
     = mk_color (cvt_out_of_range S754_nan mod 256) (cvt_out_of_range S754_nan mod 256)
         (cvt_out_of_range S754_nan mod 256).
Proof.
  intros Hlog Hsin Hlt Hnan.
  assert (Hsm : smooth_iter_of max_iter res = S754_nan).
  { unfold smooth_iter_of, smoothing.
    replace (iterations res <? max_iter) with true by (symmetry; now apply Z.ltb_lt).
    rewrite Hnan. change (F32.sqrt S754_nan) with S754_nan. now rewrite !Hlog. }
  split; [exact Hsm|]. split; [reflexivity|].
  unfold shade, get_color. rewrite Hsm.
  replace (iterations res =? max_iter) with false by (symmetry; apply Z.eqb_neq; lia).
  cbv zeta. unfold channel, wave.
  repeat (rewrite ?add_nan_r, ?add_nan_l, ?mul_nan_r, ?mul_nan_l, ?Hsin).
  reflexivity.
Qed.
End Undefined.

Lemma nan_magnitude_colour_witness :
  let c := make_float2 (narrow (F64.opp (F64.lit 7 10))) (narrow (F64.lit 27015 100000)) in
  let res := escape_time Julia (to_float2 (julia_plane WIDTH HEIGHT tiny_d 0 0)) c MAX_ITER in
  logf (DeviceMath := echo_math) S754_nan = S754_nan
  /\ sinf (DeviceMath := echo_math) S754_nan = S754_nan
  /\ iterations res < MAX_ITER
  /\ final_magnitude_sq res = S754_nan
  /\ shade (H := echo_math) MAX_ITER res = mk_color 0 0 0.
Proof.
  intros c res.
  assert (Hl : logf (DeviceMath := echo_math) S754_nan = S754_nan) by reflexivity.
  assert (Hs : sinf (DeviceMath := echo_math) S754_nan = S754_nan) by reflexivity.
  assert (Hi : iterations res < MAX_ITER) by (vm_compute; reflexivity).
  assert (Hn : final_magnitude_sq res = S754_nan) by (vm_compute; reflexivity).
  split; [exact Hl|]. split; [exact Hs|]. split; [exact Hi|]. split; [exact Hn|].
  exact (proj2 (proj2 (nan_magnitude_colour (H := echo_math) MAX_ITER res Hl Hs Hi Hn))).
Defined.

(** ** The iteration count as a first exit *)

Lemma guard_at (v : variant) (z0 c : float2) (max_iter : Z) (k : nat) :
  loop_cond max_iter (Nat.iter (S k) (body v c) (init_state z0))
  = (Z.of_nat (S k) <? max_iter)
    && F32.ltb (complex_mag_squared (orbit v c (S k) z0)) sixteen_f.
Proof.
  unfold loop_cond. rewrite iter_body_iter, iter_body_mag.
  cbn [init_state st_iter st_z]. now rewrite Z.add_0_l.
Qed.

Lemma guard_at_start (z0 : float2) (max_iter : Z) :
  1 <= max_iter -> loop_cond max_iter (init_state z0) = true.
Proof.
  intros Hm. unfold loop_cond, init_state; cbn [st_iter st_mag_sq].
  replace (0 <? max_iter) with true by (symmetry; apply Z.ltb_lt; lia).
  reflexivity.
Qed.

(** X23.  With [max_iter >= 1], the loop reports [n] iterations
    ([1 <= n <= max_iter]) exactly when the iterates 1 to [n - 1] pass the
    test [|z|^2 < 16.0f] and, unless [n] is the cap, the [n]-th does not;
    the magnitude it returns is that of the [n]-th iterate. *)
Theorem escape_time_first_exit (v : variant) (z0 c : float2) (max_iter : Z) (n : nat) :
  (1 <= n)%nat -> Z.of_nat n <= max_iter ->
  let inside (k : nat) :=
    F32.ltb (complex_mag_squared (orbit v c k z0)) sixteen_f = true in
  (iterations (escape_time v z0 c max_iter) = Z.of_nat n
   <-> (forall k : nat, (1 <= k < n)%nat -> inside k)
       /\ (Z.of_nat n < max_iter -> ~ inside n))
  /\ (iterations (escape_time v z0 c max_iter) = Z.of_nat n ->
      final_magnitude_sq (escape_time v z0 c max_iter)
      = complex_mag_squared (orbit v c n z0)).
Proof.
  intros Hn Hcap inside.
  destruct (escape_time_run v z0 c max_iter) as (n' & _ & Hr & Hstop & Hbefore & _).
  assert (Hmag : forall k : nat, (1 <= k)%nat ->
            st_mag_sq (Nat.iter k (body v c) (init_state z0))
            = complex_mag_squared (orbit v c k z0)).
  { intros [|k] Hk; [lia|]. now rewrite iter_body_mag. }
  split; [split|].
  - intros Hit. rewrite Hr in Hit; cbn [iterations] in Hit.
    apply Nat2Z.inj in Hit. subst n'. split.
    + intros [|k] Hk; [lia|]. specialize (Hbefore (S k) ltac:(lia)).
      rewrite guard_at in Hbefore. now apply andb_true_iff in Hbefore.
    + intros Hlt Hin. destruct n as [|n]; [lia|].
      rewrite guard_at in Hstop. unfold inside in Hin. rewrite Hin in Hstop.
      apply andb_false_iff in Hstop as [Hstop|Hstop]; [|discriminate].
      apply Z.ltb_ge in Hstop. lia.
  - intros [Hin Hout].
    rewrite (exit_index_unique v z0 c max_iter n).
    + unfold result_of; cbn [iterations]. rewrite iter_body_iter. cbn. lia.
    + destruct n as [|n]; [lia|]. rewrite guard_at.
      destruct (Z.ltb_spec (Z.of_nat (S n)) max_iter) as [Hlt|Hge]; [|reflexivity].
      cbn [andb]. specialize (Hout Hlt). unfold inside in Hout.
      now destruct (F32.ltb _ _).
    + intros [|k] Hk; [apply guard_at_start; lia|].
      rewrite guard_at. apply andb_true_iff. split; [apply Z.ltb_lt; lia|].
      apply Hin. lia.
  - intros Hit. rewrite Hr in Hit |- *; cbn [iterations final_magnitude_sq] in *.
    apply Nat2Z.inj in Hit. subst n'. now apply Hmag.
Qed.

Lemma escape_time_first_exit_witness :
  let c := make_float2 one_f one_f in
  let r := escape_time Mandelbrot origin c MAX_ITER in
  (1 <= 3)%nat /\ Z.of_nat 3 <= MAX_ITER
  /\ iterations r = Z.of_nat 3
  /\ final_magnitude_sq r = complex_mag_squared (orbit Mandelbrot c 3 origin).
Proof.
  intros c r.
  assert (Hn : (1 <= 3)%nat) by lia.
  assert (Hc : Z.of_nat 3 <= MAX_ITER) by (unfold MAX_ITER; lia).
  destruct (escape_time_first_exit Mandelbrot origin c MAX_ITER 3 Hn Hc) as [[_ Hiff] Hm].
  assert (Hit : iterations r = Z.of_nat 3).
  { apply Hiff. split.
    - intros k Hk. assert (Hk' : k = 1%nat \/ k = 2%nat) by lia.
      destruct Hk' as [-> | ->]; vm_compute; reflexivity.
    - intros _. vm_compute. discriminate. }
  split; [exact Hn|]. split; [exact Hc|]. split; [exact Hit|]. exact (Hm Hit).
Defined.

(** ** What a launch leaves alone *)

Section Frame.
Context `{DeviceMath}.

Lemma kernel_frame (sc : Scene) (image : list Color) (t : thread) (i : nat) :
  In t (grid_threads (cfg_of (sc_width sc) (sc_height sc))) ->
  (Z.to_nat (sc_width sc * sc_height sc) <= i)%nat ->
  kernel sc (cfg_of (sc_width sc) (sc_height sc)) image t !! i = image !! i.
Proof.
  intros Hin Hi. rewrite kernel_store. unfold store_pixel.
  set (w := sc_width sc) in *. set (h := sc_height sc) in *.
  destruct ((thread_x (cfg_of w h) t >=? w) || (thread_y (cfg_of w h) t >=? h)) eqn:G;
    [reflexivity|].
  apply orb_false_iff in G as [Gx Gy]. rewrite Z.geb_leb in Gx, Gy.
  apply Z.leb_gt in Gx, Gy.
  destruct (grid_nonneg (cfg_of w h) t) as [X Y]; [simpl; lia | simpl; lia | exact Hin |].
  apply list_lookup_insert_ne. nia.
Qed.

Lemma launch_frame (sc : Scene) (sched : list thread) (buffer : list Color) :
  (forall t : thread,
      In t sched -> In t (grid_threads (cfg_of (sc_width sc) (sc_height sc)))) ->
  length (render sc sched buffer) = length buffer
  /\ (forall i : nat, (Z.to_nat (sc_width sc * sc_height sc) <= i)%nat ->
        render sc sched buffer !! i = buffer !! i)
  /\ (forall i : nat,
        render sc sched buffer !! i = buffer !! i
        \/ render sc sched buffer !! i
           = Some (pixel sc (Z.of_nat i mod sc_width sc) (Z.of_nat i / sc_width sc))).
Proof.
  intros Hgrid.
  assert (Hpos : forall t, In t sched ->
            0 <= thread_x (cfg_of (sc_width sc) (sc_height sc)) t
            /\ 0 <= thread_y (cfg_of (sc_width sc) (sc_height sc)) t).
  { intros t Ht. apply grid_nonneg; [simpl; lia | simpl; lia | now apply Hgrid]. }
  assert (Hk : render sc sched buffer
               = launch (fun image t =>
                           store_pixel (pixel sc) (cfg_of (sc_width sc) (sc_height sc))
                             image (sc_width sc) (sc_height sc) t) sched buffer).
  { unfold render. apply launch_ext. intros; apply kernel_store. }
  split; [|split].
  - rewrite Hk.
    now destruct (launch_slots (pixel sc) _ (sc_width sc) (sc_height sc) sched buffer 0 Hpos).
  - intros i Hi. clear Hk Hpos. unfold render, launch.
    revert buffer. induction sched as [|t sched IH]; intros buffer; [reflexivity|].
    cbn [fold_left]. rewrite IH by (intros t' Ht'; apply Hgrid; now right).
    apply kernel_frame; [apply Hgrid; now left | exact Hi].
  - intros i. rewrite Hk.
    now destruct (launch_slots (pixel sc) _ (sc_width sc) (sc_height sc) sched buffer i Hpos).
Qed.

Lemma render_checked_model (sc : Scene) (sched : list thread) (buffer : list Color) :
  size_fits (sc_width sc) (sc_height sc) ->
  (forall t : thread,
      In t sched -> In t (grid_threads (cfg_of (sc_width sc) (sc_height sc)))) ->
  (Z.to_nat (sc_width sc * sc_height sc) <= length buffer)%nat ->
  render_checked sc sched buffer = Some (render sc sched buffer).
Proof.
  intros Hfit Hgrid Hlen. unfold render_checked, kernel_checked.
  rewrite launch_checked_model by assumption.
  f_equal. unfold render. symmetry. apply launch_ext. intros; apply kernel_store.
Qed.

(** X24.  For an image size that fits [int] and a buffer that holds the
    image, a launch over any part of the grid, in any order and with
    repeats, is defined on machine integers with checked stores: no index
    overflows and no store falls outside the buffer.  It keeps the length
    of the buffer, leaves every slot from [width * height] on as it was,
    and leaves each slot below either as it was or holding the colour of
    its pixel. *)
Theorem render_frame (sc : Scene) (sched : list thread) (buffer : list Color) :
  size_fits (sc_width sc) (sc_height sc) ->
  (Z.to_nat (sc_width sc * sc_height sc) <= length buffer)%nat ->
  (forall t : thread,
      In t sched -> In t (grid_threads (cfg_of (sc_width sc) (sc_height sc)))) ->
  exists image : list Color,
    render_checked sc sched buffer = Some image
    /\ image = render sc sched buffer
    /\ length image = length buffer
    /\ (forall i : nat, (Z.to_nat (sc_width sc * sc_height sc) <= i)%nat ->
          image !! i = buffer !! i)
    /\ (forall i : nat,
          image !! i = buffer !! i
          \/ image !! i
             = Some (pixel sc (Z.of_nat i mod sc_width sc) (Z.of_nat i / sc_width sc))).
Proof.
  intros Hfit Hlen Hgrid. exists (render sc sched buffer).
  split; [now apply render_checked_model|]. split; [reflexivity|].
  now apply launch_frame.
Qed.
End Frame.

Lemma render_frame_witness :
  let sc := mk_scene scene3 4 3 25 in
  let sched := [mk_thread 0 0 1 2; mk_thread 0 0 3 0; mk_thread 0 0 1 2; mk_thread 0 0 9 9] in
  let buffer := repeat (mk_color 7 7 7) 15 in
  size_fits (sc_width sc) (sc_height sc)
  /\ (Z.to_nat (sc_width sc * sc_height sc) <= length buffer)%nat
  /\ (forall t : thread,
        In t sched -> In t (grid_threads (cfg_of (sc_width sc) (sc_height sc))))
  /\ exists image : list Color,
       render_checked (H := echo_math) sc sched buffer = Some image
       /\ length image = length buffer
       /\ image !! 14%nat = buffer !! 14%nat.
Proof.
  intros sc sched buffer.
  assert (Hfit : size_fits (sc_width sc) (sc_height sc))
    by (unfold size_fits, INT_MAX; cbn; lia).
  assert (Hlen : (Z.to_nat (sc_width sc * sc_height sc) <= length buffer)%nat)
    by (vm_compute; lia).
  assert (Hg : forall t : thread,
             In t sched -> In t (grid_threads (cfg_of (sc_width sc) (sc_height sc)))).
  { intros t Ht. apply in_grid_threads.
    repeat (destruct Ht as [<-|Ht]; [vm_compute; intuition discriminate|]).
    destruct Ht. }
  destruct (render_frame (H := echo_math) sc sched buffer Hfit Hlen Hg)
    as (image & Hr & _ & Hl & Hrest & _).
  split; [exact Hfit|]. split; [exact Hlen|]. split; [exact Hg|].
  exists image. split; [exact Hr|]. split; [exact Hl|].
  apply Hrest. vm_compute. lia.
Defined.
